(** * compas: triangle-mesh remeshing and mesh subdivision

    A shallow embedding of

    - [compas/datastructures/mesh/algorithms/optimisation.py]
      ([trimesh_optimise_topology]),
    - [compas/topology/subdivision.py]
      ([mesh_subdivide], [mesh_subdivide_quad], [mesh_subdivide_corner],
      [mesh_subdivide_catmullclark], [trimesh_subdivide_loop]) and
    - [compas/utilities/xfunc.py]
      ([DataEncoder.default], [DataDecoder.object_hook]).

    Python floats are idealised as rationals ([Q]); Python integers are [Z];
    dictionaries are [gmap]s; exceptions are values of [exn] carried by an
    error-and-state monad. *)

From Stdlib Require Import ZArith QArith Qabs Qminmax Lia Lqa Ascii.
From stdpp Require Import base option list gmap strings.

Set Default Proof Using "Type".
Set Warnings "-level-tolerance,-clear-no-such-hyp".
Local Open Scope Z_scope.

(* ===================================================================== *)
(** * Python values and exceptions                                         *)
(* ===================================================================== *)

Inductive exn : Type :=
| KeyError
| ValueError
| IndexError
| ZeroDivisionError
| TypeError
| UnboundLocalError
| NotImplementedError.

(** Pure computations that may raise. *)
Definition py (A : Type) : Type := exn + A.

Definition py_ret {A} (a : A) : py A := inr a.
Definition py_raise {A} (e : exn) : py A := inl e.
Definition py_bind {A B} (c : py A) (k : A → py B) : py B :=
  match c with
  | inl e => inl e
  | inr a => k a
  end.

Notation "x <~ c ; k" := (py_bind c (λ x, k))
  (at level 20, c at level 100, k at level 200, only parsing).
Notation "' p <~ c ; k" := (py_bind c (λ p, k))
  (at level 20, p pattern, c at level 100, k at level 200, only parsing).

(** [d[k]] on a dictionary. *)
Definition py_getitem {A} (d : gmap Z A) (k : Z) : py A :=
  match d !! k with
  | Some a => inr a
  | None => inl KeyError
  end.

(** [l.index(x)]: first position of [x], [ValueError] when absent. *)
Fixpoint py_index (l : list Z) (x : Z) : py Z :=
  match l with
  | [] => inl ValueError
  | y :: l' => if bool_decide (y = x) then inr 0
               else i <~ py_index l' x ; inr (i + 1)
  end.

(** [l[i]] on a list, with Python's negative indices. *)
Definition py_list_get {A} (l : list A) (i : Z) : py A :=
  let n := Z.of_nat (length l) in
  let j := if bool_decide (i < 0) then i + n else i in
  if bool_decide (0 ≤ j) then
    match l !! Z.to_nat j with
    | Some a => inr a
    | None => inl IndexError
    end
  else inl IndexError.

(** [a / b] under [from __future__ import division]. *)
Definition py_div (a b : Q) : py Q :=
  if Qeq_bool b 0 then inl ZeroDivisionError else inr (a / b)%Q.

(** [max(l)]: [ValueError] on the empty sequence. *)
Definition py_max (l : list Q) : py Q :=
  match l with
  | [] => inl ValueError
  | x :: l' => inr (fold_left Qmax l' x)
  end.

Definition Qltb (a b : Q) : bool := negb (Qle_bool b a).

(** [for x in xs: s = body(s, x)] for a pure, fallible body. *)
Fixpoint py_for {A S} (xs : list A) (body : S → A → py S) (s : S) : py S :=
  match xs with
  | [] => inr s
  | x :: xs' => s' <~ body s x ; py_for xs' body s'
  end.

(** [[f(x) for x in xs]]. *)
Fixpoint py_map {A B} (f : A → py B) (xs : list A) : py (list B) :=
  match xs with
  | [] => inr []
  | x :: xs' => y <~ f x ; ys <~ py_map f xs' ; inr (y :: ys)
  end.

(** [range(n)] / [xrange(n)]. *)
Definition py_range (n : Z) : list Z := Z.of_nat <$> seq 0 (Z.to_nat n).

(* ===================================================================== *)
(** * The mesh data structure                                              *)
(* ===================================================================== *)

Definition xyz : Type := Q * Q * Q.

(** The three dictionaries the algorithms read and write ([mesh.vertex],
    [mesh.face], [mesh.halfedge]) and the two key counters. An entry
    [halfedge[u][v] = None] is a half-edge without a face (the outside of a
    boundary edge). *)
Record Mesh : Type := mkMesh {
  vertex : gmap Z xyz;
  face : gmap Z (list Z);
  halfedge : gmap Z (gmap Z (option Z));
  max_int_key : Z;
  max_int_fkey : Z
}.

Definition empty_mesh : Mesh :=
  mkMesh ∅ ∅ ∅ (-1) (-1).

Definition set_vertex (f : gmap Z xyz → gmap Z xyz) (m : Mesh) : Mesh :=
  mkMesh (f (vertex m)) (face m) (halfedge m) (max_int_key m) (max_int_fkey m).
Definition set_face (f : gmap Z (list Z) → gmap Z (list Z)) (m : Mesh) : Mesh :=
  mkMesh (vertex m) (f (face m)) (halfedge m) (max_int_key m) (max_int_fkey m).
Definition set_halfedge
    (f : gmap Z (gmap Z (option Z)) → gmap Z (gmap Z (option Z))) (m : Mesh) : Mesh :=
  mkMesh (vertex m) (face m) (f (halfedge m)) (max_int_key m) (max_int_fkey m).

(** [mesh.halfedge[u][v]]. *)
Definition halfedge_get (m : Mesh) (u v : Z) : py (option Z) :=
  row <~ py_getitem (halfedge m) u ; py_getitem row v.

(** [mesh.halfedge[u][v] = f]. *)
Definition halfedge_set (u v : Z) (f : option Z) (m : Mesh) : Mesh :=
  set_halfedge (λ h, <[u := <[v := f]> (default ∅ (h !! u))]> h) m.

(** [del mesh.halfedge[u][v]]. *)
Definition halfedge_del (u v : Z) (m : Mesh) : Mesh :=
  set_halfedge (λ h, match h !! u with
                     | Some row => <[u := delete v row]> h
                     | None => h
                     end) m.

(** [len(mesh.vertex)] and [len(mesh.face)]. *)
Definition number_of_vertices (m : Mesh) : Z := Z.of_nat (size (vertex m)).
Definition number_of_faces (m : Mesh) : Z := Z.of_nat (size (face m)).

(** Modelled from the spec: the Mesh ADT's iteration over vertices and
    faces (the class [Mesh] is outside the reviewed sources): the keys of
    the vertex and face tables. *)
Definition vertices (m : Mesh) : list Z := (map_to_list (vertex m)).*1.
Definition faces (m : Mesh) : list Z := (map_to_list (face m)).*1.

(** Every directed pair of the half-edge table. *)
Definition directed_pairs (m : Mesh) : list (Z * Z) :=
  '(u, row) ← map_to_list (halfedge m);
  '(v, _) ← map_to_list row;
  [(u, v)].

(** Keep the first of the two directions of every pair. *)
Fixpoint unique_edges (l : list (Z * Z)) (seen : gset (Z * Z)) : list (Z * Z) :=
  match l with
  | [] => []
  | (u, v) :: l' =>
      if bool_decide ((u, v) ∈ seen ∨ (v, u) ∈ seen)
      then unique_edges l' seen
      else (u, v) :: unique_edges l' ({[(u, v)]} ∪ {[(v, u)]} ∪ seen)
  end.

(** Modelled from the spec: the Mesh ADT's iteration over edges
    ([mesh.edges()], [mesh.halfedges()]; the class is outside the reviewed
    sources): one pair [(u, v)] per undirected edge of the half-edge table. *)
Definition edges (m : Mesh) : list (Z * Z) := unique_edges (directed_pairs m) ∅.
Definition halfedges (m : Mesh) : list (Z * Z) := edges m.
Definition number_of_edges (m : Mesh) : Z := Z.of_nat (length (edges m)).

(** Modelled from the spec: boundary vertices are exactly those incident to
    an edge with a missing twin face. *)
Definition boundary_pairs (m : Mesh) : list Z :=
  '(u, row) ← map_to_list (halfedge m);
  '(v, f) ← map_to_list row;
  match f with None => [u; v] | Some _ => [] end.
Definition vertices_on_boundary (m : Mesh) : list Z :=
  elements (list_to_set (boundary_pairs m) : gset Z).

(** Modelled from the spec: vertex degree equals the count of adjacent
    distinct vertices via half-edges. *)
Definition vertex_degree (m : Mesh) (key : Z) : py Z :=
  row <~ py_getitem (halfedge m) key ; inr (Z.of_nat (size row)).

(** Modelled from the spec: get a vertex's coordinate. *)
Definition vertex_coordinates (m : Mesh) (key : Z) : py xyz :=
  py_getitem (vertex m) key.

(** Modelled from the spec: ordered face-vertex list. *)
Definition face_vertices (m : Mesh) (fkey : Z) : py (list Z) :=
  py_getitem (face m) fkey.

(** Modelled from the spec: incident faces of a vertex (the faces of its
    outgoing half-edges, the missing ones left out). *)
Definition vertex_faces (m : Mesh) (key : Z) : py (list Z) :=
  row <~ py_getitem (halfedge m) key ;
  inr (omap id (map_to_list row).*2).

(* ===================================================================== *)
(** * The remeshing optimiser: state, trace and collaborators              *)
(* ===================================================================== *)

(** What a run does to its surroundings, in order: the calls it makes to
    the topology operators, the smoothing helper and the callback, and two
    markers for the control flow of the round loop. *)
Inductive event : Type :=
| EvRound (k : Z)
| EvSplit (u v : Z) (allow_boundary : bool)
| EvCollapse (u v : Z) (allow_boundary : bool) (fixed : option (list Z))
| EvSwap (u v : Z) (allow_boundary : bool)
| EvSmooth (fixed : gset Z) (kmax : Z)
| EvCallback (m : Mesh) (k : Z) (args : option (list Z))
| EvBreak (k : Z).

(** The mesh object under mutation and the trace so far. *)
Record World : Type := mkWorld {
  w_mesh : Mesh;
  w_log : list event
}.

Inductive result (A : Type) : Type :=
| Ok (a : A) (w : World)
| Raise (e : exn) (w : World).
Arguments Ok {A} a w.
Arguments Raise {A} e w.

Definition M (A : Type) : Type := World → result A.

Definition ret {A} (a : A) : M A := λ w, Ok a w.
Definition raise {A} (e : exn) : M A := λ w, Raise e w.
Definition bind {A B} (c : M A) (k : A → M B) : M B :=
  λ w, match c w with
       | Ok a w' => k a w'
       | Raise e w' => Raise e w'
       end.

Notation "x <- c ; k" := (bind c (λ x, k))
  (at level 20, c at level 100, k at level 200, only parsing).
Notation "' p <- c ; k" := (bind c (λ p, k))
  (at level 20, p pattern, c at level 100, k at level 200, only parsing).

Definition lift {A} (c : py A) : M A :=
  match c with
  | inl e => raise e
  | inr a => ret a
  end.
Definition get_mesh : M Mesh := λ w, Ok (w_mesh w) w.
Definition put_mesh (m : Mesh) : M unit := λ w, Ok tt (mkWorld m (w_log w)).
Definition emit (e : event) : M unit :=
  λ w, Ok tt (mkWorld (w_mesh w) (w_log w ++ [e])).

(** [for x in xs: ...] with the loop-carried variables in [s]. *)
Fixpoint for_each {A S} (xs : list A) (body : S → A → M S) (s : S) : M S :=
  match xs with
  | [] => ret s
  | x :: xs' => s' <- body s x ; for_each xs' body s'
  end.

(** The functions the optimiser imports from modules outside the reviewed
    sources ([compas.datastructures.mesh.operations], [compas.geometry]) and
    the one Mesh method that needs a square root. They are parameters: the
    optimiser is verified for every implementation. Each returns the mesh
    (or the coordinate dictionary) as the call leaves it, or raises. *)
Class Collaborators : Type := {
  edge_length : Mesh → Z → Z → py Q;
  trimesh_split_edge : Mesh → Z → Z → bool → py Mesh;
  trimesh_collapse_edge : Mesh → Z → Z → bool → option (list Z) → py Mesh;
  trimesh_swap_edge : Mesh → Z → Z → bool → py Mesh;
  smooth_area :
    gmap Z xyz → gmap Z (list Z) → gmap Z (list Z) → gset Z → Z → py (gmap Z xyz)
}.

Definition callback_t : Type := Mesh → Z → option (list Z) → py Mesh.

(** The arguments of [trimesh_optimise_topology] other than the mesh
    ([verbose] only prints and is left out). *)
Record params : Type := mkParams {
  target : Q;
  kmax : Z;
  tol : Q;
  divergence : Q;
  allow_boundary_split : bool;
  allow_boundary_swap : bool;
  allow_boundary_collapse : bool;
  smooth : bool;
  fixed : option (list Z);
  callback : option callback_t;
  callback_args : option (list Z)
}.

Definition default_params (target : Q) : params :=
  mkParams target 100 (1 # 10) (1 # 100) false false false true None None None.

(** The variables that live across rounds. *)
Record locals : Type := mkLocals {
  boundary : gset Z;
  count : Z;
  num_vertices_1 : option Z
}.

Inductive ctl : Type := Continue | Break.

Definition lmin (p : params) : Q := ((1 - tol p) * (4 / 5) * target p)%Q.
Definition lmax (p : params) : Q := ((1 + tol p) * (4 / 3) * target p)%Q.
Definition kmax_start (p : params) : Q := (inject_Z (kmax p) / 2)%Q.

(** [dlmin, dlmax] of round [k]. *)
Definition slack (p : params) (fac : Q) (k : Z) : Q * Q :=
  if Qle_bool (inject_Z k) (kmax_start p) then
    let scale_val := (fac * (1 - inject_Z k / kmax_start p))%Q in
    ((lmin p * scale_val)%Q, (lmax p * scale_val)%Q)
  else (0%Q, 0%Q).

Definition in_visited (visited : gset Z) (u v : Z) : bool :=
  bool_decide (u ∈ visited) || bool_decide (v ∈ visited).

(** [face[face.index(u) - 1]]. *)
Definition vertex_before (face : list Z) (u : Z) : py Z :=
  i <~ py_index face u ; py_list_get face (i - 1).

Definition add_two_if (b : gset Z) (x valency : Z) : Z :=
  if bool_decide (x ∈ b) then valency + 2 else valency.

Definition current_error (valency1 valency2 valency3 valency4 : Z) : Z :=
  Z.abs (valency1 - 6) + Z.abs (valency2 - 6)
  + Z.abs (valency3 - 6) + Z.abs (valency4 - 6).
Definition flipped_error (valency1 valency2 valency3 valency4 : Z) : Z :=
  Z.abs (valency1 - 7) + Z.abs (valency2 - 7)
  + Z.abs (valency3 - 5) + Z.abs (valency4 - 5).

(** The test that ends the run early, evaluated on rounds with
    [(k - 10) % 20 == 0]: [abs(1 - num_vertices_1 / num_vertices_2) <
    divergence and k > kmax_start]. *)
Definition converged (p : params) (k num_vertices_1 num_vertices_2 : Z) : py bool :=
  r <~ py_div (inject_Z num_vertices_1) (inject_Z num_vertices_2) ;
  inr (Qltb (Qabs (1 - r)) (divergence p) && Qltb (kmax_start p) (inject_Z k)).

Section Optimiser.
Context {ops : Collaborators}.
Variable p : params.

(** Body of the split loop. *)
Definition split_step (dlmax : Q) (visited : gset Z) (e : Z * Z) : M (gset Z) :=
  let '(u, v) := e in
  if in_visited visited u v then ret visited else
  m <- get_mesh ;
  len <- lift (edge_length m u v) ;
  if Qle_bool len (lmax p + dlmax) then ret visited else
  _ <- emit (EvSplit u v (allow_boundary_split p)) ;
  m' <- lift (trimesh_split_edge m u v (allow_boundary_split p)) ;
  _ <- put_mesh m' ;
  ret (visited ∪ {[u]} ∪ {[v]}).

(** Body of the collapse loop. *)
Definition collapse_step (dlmin : Q) (visited : gset Z) (e : Z * Z) : M (gset Z) :=
  let '(u, v) := e in
  if in_visited visited u v then ret visited else
  m <- get_mesh ;
  len <- lift (edge_length m u v) ;
  if Qle_bool (lmin p - dlmin) len then ret visited else
  _ <- emit (EvCollapse u v (allow_boundary_collapse p) (fixed p)) ;
  m' <- lift (trimesh_collapse_edge m u v (allow_boundary_collapse p) (fixed p)) ;
  _ <- put_mesh m' ;
  nbrs <- lift (py_getitem (halfedge m') u) ;
  ret (visited ∪ {[u]} ∪ {[v]} ∪ dom nbrs).

(** Body of the swap loop. *)
Definition swap_step (bnd : gset Z) (visited : gset Z) (e : Z * Z) : M (gset Z) :=
  let '(u, v) := e in
  if in_visited visited u v then ret visited else
  m <- get_mesh ;
  f1 <- lift (halfedge_get m u v) ;
  f2 <- lift (halfedge_get m v u) ;
  match f1, f2 with
  | Some f1, Some f2 =>
      face1 <- lift (py_getitem (face m) f1) ;
      face2 <- lift (py_getitem (face m) f2) ;
      v1 <- lift (vertex_before face1 u) ;
      v2 <- lift (vertex_before face2 v) ;
      valency1 <- lift (vertex_degree m u) ;
      valency2 <- lift (vertex_degree m v) ;
      valency3 <- lift (vertex_degree m v1) ;
      valency4 <- lift (vertex_degree m v2) ;
      let valency1 := add_two_if bnd u valency1 in
      let valency2 := add_two_if bnd v valency2 in
      let valency3 := add_two_if bnd v1 valency3 in
      let valency4 := add_two_if bnd v2 valency4 in
      if bool_decide (current_error valency1 valency2 valency3 valency4
                      ≤ flipped_error valency1 valency2 valency3 valency4)
      then ret visited else
      _ <- emit (EvSwap u v (allow_boundary_swap p)) ;
      m' <- lift (trimesh_swap_edge m u v (allow_boundary_swap p)) ;
      _ <- put_mesh m' ;
      ret (visited ∪ {[u]} ∪ {[v]})
  | _, _ => ret visited
  end.

(** The three loops [for u, v in mesh.edges(): ...], each starting from
    [visited = set()]; the loop runs over the edges that [mesh.edges()]
    lists when the loop is entered. *)
Definition split_phase (dlmax : Q) : M (gset Z) :=
  m <- get_mesh ; for_each (edges m) (split_step dlmax) ∅.
Definition collapse_phase (dlmin : Q) : M (gset Z) :=
  m <- get_mesh ; for_each (edges m) (collapse_step dlmin) ∅.
Definition swap_phase (bnd : gset Z) : M (gset Z) :=
  m <- get_mesh ; for_each (edges m) (swap_step bnd) ∅.

(** [{key: f(key) for key in keys}]. *)
Definition dict_of {A} (keys : list Z) (f : Z → py A) : py (gmap Z A) :=
  py_for keys (λ d key, a <~ f key ; inr (<[key := a]> d)) ∅.

(** The block under [if smooth:]; it returns the new value of [boundary]. *)
Definition smooth_step : M (gset Z) :=
  m <- get_mesh ;
  let bnd : gset Z := list_to_set (vertices_on_boundary m) in
  vs <- lift (dict_of (vertices m) (vertex_coordinates m)) ;
  fs <- lift (dict_of (faces m) (face_vertices m)) ;
  adjacency <- lift (dict_of (vertices m) (vertex_faces m)) ;
  _ <- emit (EvSmooth bnd 1) ;
  vs' <- lift (smooth_area vs fs adjacency bnd 1) ;
  _ <- for_each (vertices m)
         (λ (_ : unit) key,
            m <- get_mesh ;
            c <- lift (py_getitem vs' key) ;
            put_mesh (set_vertex (λ vt, <[key := c]> vt) m)) tt ;
  ret bnd.

(** The phase selected by [count]; returns the new value of [count]. *)
Definition run_phase (dlmin dlmax : Q) (bnd : gset Z) (count : Z) : M Z :=
  if bool_decide (count = 1) then _ <- split_phase dlmax ; ret count
  else if bool_decide (count = 2) then _ <- collapse_phase dlmin ; ret count
  else if bool_decide (count = 3) then _ <- swap_phase bnd ; ret count
  else ret 0.

(** The body of [for k in xrange(kmax)] down to the end of the phases. *)
Definition round_phases (fac : Q) (k : Z) (l : locals) : M locals :=
  _ <- emit (EvRound k) ;
  let '(dlmin, dlmax) := slack p fac k in
  let count := count l + 1 in
  m <- get_mesh ;
  let num_vertices_1 :=
    if bool_decide (k `mod` 20 = 0) then Some (number_of_vertices m)
    else num_vertices_1 l in
  count <- run_phase dlmin dlmax (boundary l) count ;
  ret (mkLocals (boundary l) count num_vertices_1).

(** [if (k - 10) % 20 == 0: ...]: true when the loop is to [break]. *)
Definition convergence_check (k : Z) (num_vertices_1 : option Z) : M bool :=
  if bool_decide ((k - 10) `mod` 20 = 0) then
    m <- get_mesh ;
    let num_vertices_2 := number_of_vertices m in
    n1 <- lift (from_option inr (inl UnboundLocalError) num_vertices_1) ;
    lift (converged p k n1 num_vertices_2)
  else ret false.

(** [if callback: callback(mesh, k, callback_args)]. *)
Definition run_callback (k : Z) : M unit :=
  match callback p with
  | Some cb =>
      m <- get_mesh ;
      _ <- emit (EvCallback m k (callback_args p)) ;
      m' <- lift (cb m k (callback_args p)) ;
      put_mesh m'
  | None => ret tt
  end.

(** One pass through the body of [for k in xrange(kmax)]. *)
Definition round (fac : Q) (k : Z) (l : locals) : M (ctl * locals) :=
  l <- round_phases fac k l ;
  stop <- convergence_check k (num_vertices_1 l) ;
  if (stop : bool) then _ <- emit (EvBreak k) ; ret (Break, l) else
  l <-
    (if smooth p then
       bnd <- smooth_step ; ret (mkLocals bnd (count l) (num_vertices_1 l))
     else ret l) ;
  _ <- run_callback k ;
  ret (Continue, l).

(** The round loop with its [break]. *)
Fixpoint rounds (fac : Q) (ks : list Z) (l : locals) : M locals :=
  match ks with
  | [] => ret l
  | k :: ks' =>
      '(c, l') <- round fac k l ;
      match c with
      | Break => ret l'
      | Continue => rounds fac ks' l'
      end
  end.

(** [fac = (max(edge_lengths) / 2.0) / target]. *)
Definition ramp_factor (edge_lengths : list Q) : py Q :=
  mx <~ py_max edge_lengths ;
  let target_start := (mx / 2)%Q in
  py_div target_start (target p).

Definition trimesh_optimise_topology : M unit :=
  m <- get_mesh ;
  edge_lengths <- lift (py_map (λ '(u, v), edge_length m u v) (edges m)) ;
  fac <- lift (ramp_factor edge_lengths) ;
  let bnd : gset Z := list_to_set (vertices_on_boundary m) in
  _ <- rounds fac (py_range (kmax p)) (mkLocals bnd 0 None) ;
  ret tt.

End Optimiser.

(* ===================================================================== *)
(** * Mesh operations used by the subdivision schemes                      *)
(* ===================================================================== *)

(** Modelled from the spec: deep copy of the whole mesh (the class [Mesh] is
    outside the reviewed sources). Meshes are values here, so the copy is
    the mesh itself and later updates of the copy leave the original alone. *)
Definition copy (m : Mesh) : Mesh := m.

(** Modelled from the spec: add a free vertex at given coordinates; the
    identifier is the next integer of the vertex counter. *)
Definition add_vertex (c : xyz) (m : Mesh) : Mesh * Z :=
  let key := max_int_key m + 1 in
  (mkMesh (<[key := c]> (vertex m)) (face m)
          (<[key := default ∅ (halfedge m !! key)]> (halfedge m))
          key (max_int_fkey m),
   key).

(** [pairwise(vertices + vertices[0:1])]. *)
Definition cycle_pairs (vs : list Z) : list (Z * Z) :=
  zip vs (tail (vs ++ take 1 vs)).

(** Modelled from the spec: add a face from an ordered vertex list; the
    identifier is the next integer of the face counter, every half-edge of
    the cycle points to the new face and a missing twin is entered without a
    face. *)
Definition add_face (vs : list Z) (m : Mesh) : Mesh * Z :=
  let fkey := max_int_fkey m + 1 in
  let m1 := mkMesh (vertex m) (<[fkey := vs]> (face m)) (halfedge m)
                   (max_int_key m) fkey in
  (foldl (λ m '(u, v),
            let m := halfedge_set u v (Some fkey) m in
            match halfedge_get m v u with
            | inr _ => m
            | inl _ => halfedge_set v u None m
            end) m1 (cycle_pairs vs),
   fkey).

(** [del mesh.face[fkey]]. *)
Definition del_face (fkey : Z) (m : Mesh) : py Mesh :=
  match face m !! fkey with
  | Some _ => inr (set_face (delete fkey) m)
  | None => inl KeyError
  end.

(** Modelled from the spec: the half-edges of a face, in cycle order. *)
Definition face_halfedges (m : Mesh) (fkey : Z) : py (list (Z * Z)) :=
  vs <~ face_vertices m fkey ; inr (cycle_pairs vs).

Definition Qsum (l : list Q) : Q := foldr Qplus 0%Q l.

(** Modelled from the spec: arithmetic mean of a non-empty list of
    coordinates; the empty list fails fast. *)
Definition centroid_points (ps : list xyz) : py xyz :=
  match ps with
  | [] => inl ZeroDivisionError
  | _ =>
      let n := inject_Z (Z.of_nat (length ps)) in
      inr ((Qsum (ps.*1.*1) / n)%Q, (Qsum (ps.*1.*2) / n)%Q, (Qsum (ps.*2) / n)%Q)
  end.

(** Modelled from the spec: face centroid. *)
Definition face_centroid (m : Mesh) (fkey : Z) : py xyz :=
  vs <~ face_vertices m fkey ;
  ps <~ py_map (vertex_coordinates m) vs ;
  centroid_points ps.

Definition midpoint (a b : xyz) : xyz :=
  let '(ax, ay, az) := a in
  let '(bx, by_, bz) := b in
  (((ax + bx) / 2)%Q, ((ay + by_) / 2)%Q, ((az + bz) / 2)%Q).

(** [l.insert(l.index(v), w)]. *)
Fixpoint insert_before (v w : Z) (l : list Z) : py (list Z) :=
  match l with
  | [] => inl ValueError
  | y :: l' => if bool_decide (y = v) then inr (w :: y :: l')
               else r <~ insert_before v w l' ; inr (y :: r)
  end.

(** Rewire the face of a split half-edge: [w] goes in front of [v]. *)
Definition split_in_face (f : option Z) (v w : Z) (m : Mesh) : py Mesh :=
  match f with
  | None => inr m
  | Some fkey =>
      vs <~ py_getitem (face m) fkey ;
      vs' <~ insert_before v w vs ;
      inr (set_face (λ ft, <[fkey := vs']> ft) m)
  end.

(** Modelled from the spec: [split_edge(u, v, allow_boundary)] inserts a
    vertex subdividing the edge into two, rewiring incident faces, at the
    ADT's default split position (the midpoint); a no-op on a boundary edge
    when [allow_boundary] is false. Returns the new vertex, if any. *)
Definition split_edge (u v : Z) (allow_boundary : bool) (m : Mesh)
    : py (Mesh * option Z) :=
  fkey_uv <~ halfedge_get m u v ;
  fkey_vu <~ halfedge_get m v u ;
  if negb allow_boundary && (bool_decide (fkey_uv = None) || bool_decide (fkey_vu = None))
  then inr (m, None) else
  a <~ vertex_coordinates m u ;
  b <~ vertex_coordinates m v ;
  let '(m, w) := add_vertex (midpoint a b) m in
  let m := halfedge_set u w fkey_uv m in
  let m := halfedge_set w v fkey_uv m in
  let m := halfedge_del u v m in
  m <~ split_in_face fkey_uv v w m ;
  let m := halfedge_set v w fkey_vu m in
  let m := halfedge_set w u fkey_vu m in
  let m := halfedge_del v u m in
  m <~ split_in_face fkey_vu u w m ;
  inr (m, Some w).

(** Modelled from the spec: a mesh from a list of coordinates (numbered from
    0) and a list of faces. *)
Definition from_vertices_and_faces (vs : list xyz) (fs : list (list Z)) : Mesh :=
  let m := foldl (λ m c, (add_vertex c m).1) empty_mesh vs in
  foldl (λ m f, (add_face f m).1) m fs.

(* ===================================================================== *)
(** * Quad and Catmull-Clark subdivision                                   *)
(* ===================================================================== *)

(** [{i: j for i, j in pairs}] and [{j: i for i, j in pairs}]. *)
Definition descendant_of (pairs : list (Z * Z)) : gmap Z Z :=
  foldl (λ d '(i, j), <[i := j]> d) ∅ pairs.
Definition ancestor_of (pairs : list (Z * Z)) : gmap Z Z :=
  foldl (λ d '(i, j), <[j := i]> d) ∅ pairs.

(** The body of [for fkey in mesh.faces()] shared by the two schemes:
    one centre vertex, one quad per corner, the old face removed. *)
Definition quad_face (mesh : Mesh) (subd : Mesh) (fkey : Z) : py Mesh :=
  pairs <~ face_halfedges subd fkey ;
  let descendant := descendant_of pairs in
  let ancestor := ancestor_of pairs in
  c_xyz <~ face_centroid mesh fkey ;
  let '(subd, c) := add_vertex c_xyz subd in
  vs <~ face_vertices mesh fkey ;
  subd <~ py_for vs
            (λ subd key,
               a <~ py_getitem ancestor key ;
               d <~ py_getitem descendant key ;
               inr (add_face [a; key; d; c] subd).1) subd ;
  del_face fkey subd.

(** One pass of the body of [for _ in range(k)] in [mesh_subdivide_quad]. *)
Definition quad_level (mesh : Mesh) : py Mesh :=
  let subd := copy mesh in
  subd <~ py_for (halfedges subd)
            (λ subd '(u, v), r <~ split_edge u v true subd ; inr r.1) subd ;
  py_for (faces mesh) (quad_face mesh) subd.

Definition mesh_subdivide_quad (mesh : Mesh) (k : Z) : py Mesh :=
  py_for (py_range k) (λ mesh _, quad_level mesh) mesh.

(** State of the edge loop of Catmull-Clark. *)
Record cc_edges : Type := mkCCEdges {
  cc_subd : Mesh;
  cc_bkey_edgepoints : gmap Z (list Z);
  cc_edgepoints : list Z
}.

(** [d[key].append(w)]. *)
Definition dict_append (key w : Z) (d : gmap Z (list Z)) : py (gmap Z (list Z)) :=
  l <~ py_getitem d key ; inr (<[key := l ++ [w]]> d).

Definition cc_edge_step (bkeys : gset Z) (s : cc_edges) (e : Z * Z) : py cc_edges :=
  let '(u, v) := e in
  r <~ split_edge u v true (cc_subd s) ;
  w <~ from_option inr (inl TypeError) r.2 ;
  if bool_decide (u ∈ bkeys) && bool_decide (v ∈ bkeys) then
    b <~ dict_append u w (cc_bkey_edgepoints s) ;
    b <~ dict_append v w b ;
    inr (mkCCEdges r.1 b (cc_edgepoints s))
  else inr (mkCCEdges r.1 (cc_bkey_edgepoints s) (cc_edgepoints s ++ [w])).

Definition scale (a : Q) (c : xyz) : xyz :=
  ((c.1.1 * a)%Q, (c.1.2 * a)%Q, (c.2 * a)%Q).
Definition add3 (a b : xyz) : xyz :=
  ((a.1.1 + b.1.1)%Q, (a.1.2 + b.1.2)%Q, (a.2 + b.2)%Q).

(** [subd.vertex[key]['x'] = x] and likewise for [y], [z]. *)
Definition set_xyz (key : Z) (c : xyz) (m : Mesh) : py Mesh :=
  match vertex m !! key with
  | Some _ => inr (set_vertex (λ vt, <[key := c]> vt) m)
  | None => inl KeyError
  end.

(** Neighbours of a vertex: the keys of its row of the half-edge table. *)
Definition neighbours (m : Mesh) (key : Z) : py (list Z) :=
  row <~ py_getitem (halfedge m) key ; inr (map_to_list row).*1.

(** Move an edge point to the average of its neighbours. *)
Definition cc_move_edgepoint (key_xyz : gmap Z xyz) (subd : Mesh) (w : Z) : py Mesh :=
  nbrs <~ neighbours subd w ;
  ps <~ py_map (py_getitem key_xyz) nbrs ;
  c <~ centroid_points ps ;
  set_xyz w c subd.

(** Move an original vertex. *)
Definition cc_move_vertex (mesh : Mesh) (fixed bkeys : gset Z)
    (bkey_edgepoints : gmap Z (list Z)) (key_xyz : gmap Z xyz)
    (subd : Mesh) (key : Z) : py Mesh :=
  if bool_decide (key ∈ fixed) then inr subd else
  c <~ (if bool_decide (key ∈ bkeys) then
          l <~ py_getitem bkey_edgepoints key ;
          let nbrs := elements (list_to_set l : gset Z) in
          nbrs <~ py_map (py_getitem key_xyz) nbrs ;
          ce <~ centroid_points nbrs ;
          cv <~ py_getitem key_xyz key ;
          inr (add3 (scale (1 # 2) ce) (scale (1 # 2) cv))
        else
          fkeys <~ vertex_faces mesh key ;
          fnbrs <~ py_map (face_centroid mesh) fkeys ;
          nbrs <~ neighbours subd key ;
          nbrs <~ py_map (py_getitem key_xyz) nbrs ;
          let n := inject_Z (Z.of_nat (length nbrs)) in
          f <~ py_div 1 n ;
          e <~ py_div 2 n ;
          v <~ py_div (n - 3) n ;
          cf <~ centroid_points fnbrs ;
          ce <~ centroid_points nbrs ;
          cv <~ py_getitem key_xyz key ;
          inr (add3 (add3 (scale f cf) (scale e ce)) (scale v cv))) ;
  set_xyz key c subd.

(** One pass of the body of [for _ in range(k)] in
    [mesh_subdivide_catmullclark]. *)
Definition catmullclark_level (fixed : gset Z) (mesh : Mesh) : py Mesh :=
  let subd := copy mesh in
  let bkeys : gset Z := list_to_set (vertices_on_boundary subd) in
  let bkey_edgepoints : gmap Z (list Z) := gset_to_gmap [] bkeys in
  s <~ py_for (halfedges subd) (cc_edge_step bkeys)
         (mkCCEdges subd bkey_edgepoints []) ;
  subd <~ py_for (faces mesh) (quad_face mesh) (cc_subd s) ;
  let key_xyz := vertex subd in
  subd <~ py_for (cc_edgepoints s) (cc_move_edgepoint key_xyz) subd ;
  py_for (vertices mesh)
    (cc_move_vertex mesh fixed bkeys (cc_bkey_edgepoints s) key_xyz) subd.

Definition mesh_subdivide_catmullclark (mesh : Mesh) (k : Z)
    (fixed : option (list Z)) : py Mesh :=
  let fixed : gset Z := list_to_set (default [] fixed) in
  py_for (py_range k) (λ mesh _, catmullclark_level fixed mesh) mesh.

(* ===================================================================== *)
(** * The subdivision dispatcher                                           *)
(* ===================================================================== *)

(** The keyword arguments collected by [**options]: the two keywords the
    schemes know, each given or not, and whether any other keyword was
    passed. *)
Record options : Type := mkOptions {
  opt_k : option Z;
  opt_fixed : option (option (list Z));
  opt_other : bool
}.

Definition no_options : options := mkOptions None None false.

(** [mesh_subdivide_quad(mesh, **options)]: an unknown keyword is a
    [TypeError]. *)
Definition call_quad (mesh : Mesh) (o : options) : py Mesh :=
  if opt_other o || bool_decide (is_Some (opt_fixed o)) then inl TypeError
  else mesh_subdivide_quad mesh (default 1 (opt_k o)).

Definition call_catmullclark (mesh : Mesh) (o : options) : py Mesh :=
  if opt_other o then inl TypeError
  else mesh_subdivide_catmullclark mesh (default 1 (opt_k o))
         (default None (opt_fixed o)).

Section Dispatcher.
(** The schemes that no statement below looks into; they may do to the
    mesh object they are handed whatever they like. *)
Variable mesh_subdivide_tri : options → M Mesh.
Variable mesh_subdivide_corner : options → M Mesh.
Variable mesh_subdivide_doosabin : options → M Mesh.
Variable trimesh_subdivide_loop : options → M Mesh.

(** [mesh_subdivide(mesh, scheme, **options)]; [mesh] is the mesh of the
    world the computation runs in. *)
Definition mesh_subdivide (scheme : string) (o : options) : M Mesh :=
  if bool_decide (scheme = "tri") then mesh_subdivide_tri o
  else if bool_decide (scheme = "quad") then
    mesh <- get_mesh ; lift (call_quad mesh o)
  else if bool_decide (scheme = "corner") then mesh_subdivide_corner o
  else if bool_decide (scheme = "catmullclark") then
    mesh <- get_mesh ; lift (call_catmullclark mesh o)
  else if bool_decide (scheme = "doosabin") then mesh_subdivide_doosabin o
  else raise NotImplementedError.

End Dispatcher.

Definition recognised_schemes : list string :=
  ["tri"; "quad"; "corner"; "catmullclark"; "doosabin"].

(* ===================================================================== *)
(** * Corner subdivision                                                   *)
(* ===================================================================== *)

(** The body of [for key in mesh.face_vertices(fkey)] of the corner
    scheme: the triangle of the corner, and its ancestor appended to
    [center]. *)
Definition corner_step (ancestor descendant : gmap Z Z)
    (s : Mesh * list Z) (key : Z) : py (Mesh * list Z) :=
  a <~ py_getitem ancestor key ;
  d <~ py_getitem descendant key ;
  inr ((add_face [a; key; d] s.1).1, s.2 ++ [a]).

(** The body of [for fkey in mesh.faces()] of the corner scheme: one
    triangle per corner, the face of the edge points, the old face
    removed. *)
Definition corner_face (mesh : Mesh) (subd : Mesh) (fkey : Z) : py Mesh :=
  pairs <~ face_halfedges subd fkey ;
  let descendant := descendant_of pairs in
  let ancestor := ancestor_of pairs in
  vs <~ face_vertices mesh fkey ;
  s <~ py_for vs (corner_step ancestor descendant) (subd, []) ;
  let subd := (add_face s.2 s.1).1 in
  del_face fkey subd.

(** One pass of the body of [for _ in range(k)] in
    [mesh_subdivide_corner]. *)
Definition corner_level (mesh : Mesh) : py Mesh :=
  let subd := copy mesh in
  subd <~ py_for (halfedges subd)
            (λ subd '(u, v), r <~ split_edge u v true subd ; inr r.1) subd ;
  py_for (faces mesh) (corner_face mesh) subd.

Definition mesh_subdivide_corner (mesh : Mesh) (k : Z) : py Mesh :=
  py_for (py_range k) (λ mesh _, corner_level mesh) mesh.

(* ===================================================================== *)
(** * Loop subdivision                                                     *)
(* ===================================================================== *)

(** [d[(u, v)]] on a dictionary keyed by pairs. *)
Definition py_getitem_pair {A} (d : gmap (Z * Z) A) (k : Z * Z) : py A :=
  match d !! k with
  | Some a => inr a
  | None => inl KeyError
  end.

(** The value of one entry of [uv_w]:
    [subd.face[subd.halfedge[u][v]][v]]. A half-edge without a face makes
    the lookup in [subd.face] fail. *)
Definition loop_apex (subd : Mesh) (e : Z * Z) : py Z :=
  let '(u, v) := e in
  f <~ halfedge_get subd u v ;
  fkey <~ from_option inr (inl KeyError) f ;
  vs <~ py_getitem (face subd) fkey ;
  py_list_get vs v.

(** [{(u, v): ... for u in subd.halfedge for v in subd.halfedge[u]}]. *)
Definition loop_uv_w (subd : Mesh) : py (gmap (Z * Z) Z) :=
  py_for (directed_pairs subd)
    (λ d e, w <~ loop_apex subd e ; inr (<[e := w]> d)) ∅.

(** The sums of the coordinates of the neighbours, axis by axis (the
    comprehension over the transposed list of neighbours), together with
    its later use [nbrs[i] for i in range(3)]: without neighbours the list
    of sums is empty and the index fails. *)
Definition axis_sums (ps : list xyz) : py xyz :=
  match ps with
  | [] => inl IndexError
  | _ => inr (Qsum (ps.*1.*1), Qsum (ps.*1.*2), Qsum (ps.*2))
  end.

Section Loop.
(** [math.cos] and [math.pi]. *)
Variable cos : Q → Q.
Variable pi : Q.

(** The weight [a] of a vertex with [n] neighbours. *)
Definition loop_weight (n : Z) : py Q :=
  if bool_decide (n = 3) then inr (3 / 16)%Q else
  t <~ py_div (2 * pi) (inject_Z n) ;
  let c := (3 / 8 + (1 # 4) * cos t)%Q in
  py_div (5 / 8 - c * c) (inject_Z n).

(** The body of [for key in subd]: move a vertex towards its neighbours. *)
Definition loop_move_vertex (key_xyz : gmap Z xyz) (subd : Mesh) (key : Z) : py Mesh :=
  nbrs <~ neighbours subd key ;
  let n := Z.of_nat (length nbrs) in
  a <~ loop_weight n ;
  nbrs <~ py_map (py_getitem key_xyz) nbrs ;
  c <~ py_getitem key_xyz key ;
  s <~ axis_sums nbrs ;
  set_xyz key (add3 (scale (1 - inject_Z n * a) c) (scale a s)) subd.

(** The body of [for u, v in list(subd.edges())]: split the edge and place
    the new vertex. *)
Definition loop_split_edge (key_xyz : gmap Z xyz) (uv_w : gmap (Z * Z) Z)
    (s : Mesh * gmap (Z * Z) (option Z)) (e : Z * Z)
    : py (Mesh * gmap (Z * Z) (option Z)) :=
  let '(u, v) := e in
  r <~ split_edge u v true s.1 ;
  let w := r.2 in
  let edgepoints := <[(v, u) := w]> (<[(u, v) := w]> s.2) in
  v1 <~ py_getitem key_xyz u ;
  v2 <~ py_getitem key_xyz v ;
  l <~ py_getitem_pair uv_w (u, v) ;
  vl <~ py_getitem key_xyz l ;
  r' <~ py_getitem_pair uv_w (v, u) ;
  vr <~ py_getitem key_xyz r' ;
  w <~ from_option inr (inl KeyError) w ;
  subd <~ set_xyz w (add3 (scale (1 / 8) (scale 3 (add3 v1 v2)))
                          (scale (1 / 8) (add3 vl vr))) r.1 ;
  inr (subd, edgepoints).

(** [edgepoints[(u, v)]] as a vertex key. *)
Definition loop_edgepoint (edgepoints : gmap (Z * Z) (option Z)) (e : Z * Z) : py Z :=
  match edgepoints !! e with
  | Some (Some w) => inr w
  | Some None => inl TypeError
  | None => inl KeyError
  end.

(** The body of [for fkey, vertices in fkey_vertices.items()]. *)
Definition loop_face (edgepoints : gmap (Z * Z) (option Z))
    (subd : Mesh) (item : Z * list Z) : py Mesh :=
  let '(fkey, vertices) := item in
  match vertices with
  | [u; v; w] =>
      uv <~ loop_edgepoint edgepoints (u, v) ;
      vw <~ loop_edgepoint edgepoints (v, w) ;
      wu <~ loop_edgepoint edgepoints (w, u) ;
      let subd := (add_face [wu; u; uv] subd).1 in
      let subd := (add_face [uv; v; vw] subd).1 in
      let subd := (add_face [vw; w; wu] subd).1 in
      let subd := (add_face [uv; vw; wu] subd).1 in
      del_face fkey subd
  | _ => inl ValueError
  end.

(** One pass of the body of [for _ in range(k)]. *)
Definition loop_level (subd : Mesh) : py Mesh :=
  key_xyz <~ dict_of (vertices subd) (vertex_coordinates subd) ;
  fkey_vertices <~ dict_of (faces subd) (face_vertices subd) ;
  uv_w <~ loop_uv_w subd ;
  subd <~ py_for (vertices subd) (loop_move_vertex key_xyz) subd ;
  s <~ py_for (edges subd) (loop_split_edge key_xyz uv_w) (subd, ∅) ;
  py_for (map_to_list fkey_vertices) (loop_face s.2) s.1.

(** [trimesh_subdivide_loop(mesh, k, fixed)]; the set made of [fixed] is
    not used after it is built. *)
Definition trimesh_subdivide_loop (mesh : Mesh) (k : Z) (fixed : option (list Z))
    : py Mesh :=
  let fixed : gset Z := list_to_set (default [] fixed) in
  let subd := copy mesh in
  py_for (py_range k) (λ subd _, loop_level subd) subd.

End Loop.

(* ===================================================================== *)
(** * The JSON encoder and decoder of [compas.utilities.xfunc]             *)
(* ===================================================================== *)

(** [s.split(sep)] for a separator of one character. *)
Fixpoint split_on (sep : ascii) (s : string) : list string :=
  match s with
  | EmptyString => [EmptyString]
  | String c s' =>
      if bool_decide (c = sep) then EmptyString :: split_on sep s'
      else match split_on sep s' with
           | [] => [String c EmptyString]
           | x :: xs => String c x :: xs
           end
  end.

(** How often the character occurs in the string. *)
Fixpoint occurrences (c : ascii) (s : string) : nat :=
  match s with
  | EmptyString => 0
  | String c' s' => (if bool_decide (c' = c) then 1 else 0) + occurrences c s'
  end.

(** [d[key]] and [key in d] on a dictionary with string keys. *)
Fixpoint assoc {A} (key : string) (d : list (string * A)) : option A :=
  match d with
  | [] => None
  | (k, a) :: d' => if bool_decide (k = key) then Some a else assoc key d'
  end.

(** The exceptions of the encoder and the decoder. *)
Inductive codec_error : Type :=
| CodecKeyError
| CodecValueError
| CodecTypeError
| CodecAttributeError
| CodecImportError.

Section Codec.
(** The instances of the data structure classes (the class [Datastructure]
    and its subclasses are outside the reviewed sources), with the module
    and the name of the class of an instance, and the classes the decoder
    can import. *)
Variable obj : Type.
Variable cls : Type.

(** The Python values the encoder and the decoder see. *)
#[warnings="-register-all"] Inductive value : Type :=
| VNone
| VBool (b : bool)
| VNum (n : Z)
| VStr (s : string)
| VList (l : list value)
| VDict (d : list (string * value))
| VObject (o : obj)
| VArray (items : value)
| VOther (id : Z).

(** [o.__class__.__module__], [o.__class__.__name__] and [o.to_data()]. *)
Variable class_module : obj → string.
Variable class_name : obj → string.
Variable to_data : obj → value.
(** [getattr(__import__(module, fromlist=[attr]), attr)] and
    [cls.from_data(data)]. *)
Variable import_class : string → string → codec_error + cls.
Variable from_data : cls → value → codec_error + value.
(** Whether [import numpy] succeeds. *)
Variable numpy : bool.

(** [DataEncoder.default(o)] (its [print] left out); the default of
    [json.JSONEncoder] raises [TypeError]. *)
Definition encoder_default (o : value) : codec_error + value :=
  match o with
  | VObject x =>
      inr (VDict [("dtype", VStr (class_module x +:+ "/" +:+ class_name x));
                  ("value", to_data x)])
  | VArray items => if numpy then inr items else inl CodecTypeError
  | _ => inl CodecTypeError
  end.

(** [DataDecoder.object_hook(o)] for a decoded JSON object [o]. *)
Definition object_hook (o : list (string * value)) : codec_error + value :=
  match assoc "dtype" o with
  | None => inr (VDict o)
  | Some dtype =>
      match dtype with
      | VStr s =>
          match split_on "/"%char s with
          | [module_; attr] =>
              match import_class module_ attr with
              | inl e => inl e
              | inr c =>
                  match assoc "value" o with
                  | Some v => from_data c v
                  | None => inl CodecKeyError
                  end
              end
          | _ => inl CodecValueError
          end
      | _ => inl CodecAttributeError
      end
  end.

End Codec.

(* ===================================================================== *)
(** * A reference implementation of the collaborators                      *)
(* ===================================================================== *)

(** Square root of a rational: exact on squares of rationals, rounded down
    in the sixth decimal of the numerator otherwise. *)
Definition Qsqrt (q : Q) : Q :=
  let r := Qred q in
  Qred (Z.sqrt (Qnum r * Zpos (Qden r) * 10 ^ 12) # (Qden r * 10 ^ 6)).

Definition sub3 (a b : xyz) : xyz :=
  ((a.1.1 - b.1.1)%Q, (a.1.2 - b.1.2)%Q, (a.2 - b.2)%Q).
Definition cross3 (a b : xyz) : xyz :=
  ((a.1.2 * b.2 - a.2 * b.1.2)%Q,
   (a.2 * b.1.1 - a.1.1 * b.2)%Q,
   (a.1.1 * b.1.2 - a.1.2 * b.1.1)%Q).
Definition norm3 (a : xyz) : Q :=
  Qsqrt (a.1.1 * a.1.1 + a.1.2 * a.1.2 + a.2 * a.2)%Q.

(** Euclidean length of the segment between two vertices. *)
Definition euclidean_length (m : Mesh) (u v : Z) : py Q :=
  a <~ vertex_coordinates m u ;
  b <~ vertex_coordinates m v ;
  inr (norm3 (sub3 a b)).

(** Area and centroid of a triangle given by its three keys. *)
Definition triangle_area_centroid (vs : gmap Z xyz) (f : list Z) : py (Q * xyz) :=
  match f with
  | [i; j; k] =>
      a <~ py_getitem vs i ;
      b <~ py_getitem vs j ;
      c <~ py_getitem vs k ;
      ce <~ centroid_points [a; b; c] ;
      inr ((norm3 (cross3 (sub3 b a) (sub3 c a)) / 2)%Q, ce)
  | _ => inl ValueError
  end.

(** One pass of area-weighted smoothing of a triangle mesh: a key of
    [fixed] keeps its place, any other key goes to the area-weighted mean
    of the centroids of its faces. *)
Definition smooth_area_pass (vs : gmap Z xyz) (fs adjacency : gmap Z (list Z))
    (fixed : gset Z) : py (gmap Z xyz) :=
  py_for (map_to_list vs).*1
    (λ out key,
       if bool_decide (key ∈ fixed) then inr out else
       fkeys <~ py_getitem adjacency key ;
       acs <~ py_map (λ fkey, f <~ py_getitem fs fkey ; triangle_area_centroid vs f) fkeys ;
       let A := Qsum (acs.*1) in
       let s := foldr add3 (0, 0, 0)%Q ((λ ac, scale ac.1 ac.2) <$> acs) in
       if Qeq_bool A 0 then inr out
       else inr (<[key := scale (/ A) s]> out))
    vs.

Definition smooth_area_reference (vs : gmap Z xyz) (fs adjacency : gmap Z (list Z))
    (fixed : gset Z) (kmax : Z) : py (gmap Z xyz) :=
  py_for (py_range kmax) (λ vs _, smooth_area_pass vs fs adjacency fixed) vs.

(** Lengths are Euclidean, smoothing is area weighted, an edge is split at
    its midpoint, and the collapse and swap operators decline every request
    (the no-op their contract allows). *)
Definition reference_ops : Collaborators := {|
  edge_length := euclidean_length;
  trimesh_split_edge := λ m u v allow, r <~ split_edge u v allow m ; inr r.1;
  trimesh_collapse_edge := λ m _ _ _ _, inr m;
  trimesh_swap_edge := λ m _ _ _, inr m;
  smooth_area := smooth_area_reference
|}.

(** A right triangle with sides 3, 4 and 5. *)
Definition triangle345 : Mesh :=
  from_vertices_and_faces [(0, 0, 0); (3, 0, 0); (0, 4, 0)]%Q [[0; 1; 2]].

(** A 16 by 21 rectangle fanned into four triangles around the interior
    vertex 4 at (8, 6); its spokes have lengths 10 and 17. *)
Definition fan : Mesh :=
  from_vertices_and_faces
    [(0, 0, 0); (16, 0, 0); (16, 21, 0); (0, 21, 0); (8, 6, 0)]%Q
    [[0; 1; 4]; [1; 2; 4]; [2; 3; 4]; [3; 0; 4]].

(** Two triangles on the edge (0, 2). *)
Definition two_triangles : Mesh :=
  from_vertices_and_faces
    [(0, 0, 0); (1, 0, 0); (1, 1, 0); (0, 1, 0)]%Q
    [[0; 1; 2]; [2; 3; 0]].

(** Two triangles on the edge (0, 1) whose end points carry a fan of three
    more triangles each. *)
Definition two_fans : Mesh :=
  from_vertices_and_faces
    [(0, 0, 0); (2, 0, 0); (1, 1, 0); (1, -1, 0); (-1, -1, 0);
     (-2, 0, 0); (-1, 1, 0); (3, 1, 0); (4, 0, 0); (3, -1, 0)]%Q
    [[0; 1; 2]; [1; 0; 3]; [0; 4; 3]; [0; 5; 4]; [0; 6; 5];
     [1; 7; 2]; [1; 8; 7]; [1; 9; 8]].

(** A single square face. *)
Definition square : Mesh :=
  from_vertices_and_faces [(0, 0, 0); (1, 0, 0); (1, 1, 0); (0, 1, 0)]%Q [[0; 1; 2; 3]].

(** The square face and a fifth vertex that no face uses. *)
Definition square_and_spare : Mesh :=
  from_vertices_and_faces
    [(0, 0, 0); (1, 0, 0); (1, 1, 0); (0, 1, 0); (2, 2, 0)]%Q [[0; 1; 2; 3]].

Definition world_of (m : Mesh) : World := mkWorld m [].


(* ===================================================================== *)
(** * Reading a trace                                                      *)
(* ===================================================================== *)

(** The world a computation leaves behind, whether it returns or raises. *)
Definition final {A} (r : result A) : World :=
  match r with
  | Ok _ w => w
  | Raise _ w => w
  end.

(** The events a computation started in [w] has added to the trace. *)
Definition new_events {A} (w : World) (r : result A) : list event :=
  drop (length (w_log w)) (w_log (final r)).

Definition split_calls (l : list event) : list (Z * Z) :=
  omap (λ e, match e with EvSplit u v _ => Some (u, v) | _ => None end) l.
Definition collapse_calls (l : list event) : list (Z * Z) :=
  omap (λ e, match e with EvCollapse u v _ _ => Some (u, v) | _ => None end) l.
Definition swap_calls (l : list event) : list (Z * Z) :=
  omap (λ e, match e with EvSwap u v _ => Some (u, v) | _ => None end) l.

(** No operation of the list touches an end point of an earlier one (or a
    vertex of [seen]). *)
Fixpoint exclusive (seen : gset Z) (calls : list (Z * Z)) : Prop :=
  match calls with
  | [] => True
  | (u, v) :: calls' =>
      u ∉ seen ∧ v ∉ seen ∧ exclusive (seen ∪ {[u]} ∪ {[v]}) calls'
  end.



(** The rounds of a trace that were entered, and those that ended with the
    callback. *)
Definition rounds_entered (l : list event) : list Z :=
  omap (λ e, match e with EvRound k => Some k | _ => None end) l.





(** Configurations used in the examples. *)
Definition params_swap : params :=
  mkParams 1 100 (1 # 10) (1 # 100) false true false false None None None.
Definition params_negative_target : params :=
  mkParams (-1) 2 (1 # 10) (1 # 100) true false false false None None None.
Definition params_large_tol : params :=
  mkParams 1 2 2 (1 # 100) true false false false None None None.
Definition params_one_round : params :=
  mkParams 1 1 (1 # 10) (1 # 100) true false false false None None None.
Definition params_fixed_centre : params :=
  mkParams 12 2 (4 # 10) (1 # 100) false false false true (Some [4]) None None.

(* ===================================================================== *)
(** * Predicates and invariants used in the proofs                        *)
(* ===================================================================== *)






(** [mesh.halfedge[a][b]] as a partial function. *)
Definition he (m : Mesh) (a b : Z) : option (option Z) :=
  halfedge m !! a ≫= (.!! b).

(** The face of a half-edge, if it has one, contains the vertex [v]. *)
Definition face_has (m : Mesh) (f : option Z) (v : Z) : Prop :=
  match f with
  | Some fkey => v ∈ default [] (face m !! fkey)
  | None => True
  end.

#[global] Instance face_has_dec (m : Mesh) (f : option Z) (v : Z) :
  Decision (face_has m f v).
Proof. destruct f; simpl; apply _. Defined.

(** The invariant of the mesh data structure: every half-edge joins two
    distinct vertices of the vertex table and has its twin, the face of a
    half-edge exists and contains the vertex the half-edge points to, every
    face has a corner and only corners of the vertex table, and the key
    counters bound the keys in use. *)
Definition valid_mesh (m : Mesh) : Prop :=
  map_Forall (λ u row,
      u ∈ dom (vertex m) ∧
      map_Forall (λ v f,
          v ≠ u ∧ v ∈ dom (vertex m) ∧ is_Some (he m v u) ∧ face_has m f v) row)
    (halfedge m)
  ∧ map_Forall (λ key _, key ≤ max_int_key m) (vertex m)
  ∧ map_Forall (λ fkey vs,
      fkey ≤ max_int_fkey m ∧ vs ≠ [] ∧ Forall (λ x, x ∈ dom (vertex m)) vs) (face m).

#[global] Instance valid_mesh_dec (m : Mesh) : Decision (valid_mesh m).
Proof. unfold valid_mesh. apply _. Defined.

(** Every vertex has a neighbour (no vertex of degree 0). *)
Definition no_isolated_vertex (m : Mesh) : Prop :=
  map_Forall (λ key _, default ∅ (halfedge m !! key) ≠ ∅) (vertex m).

#[global] Instance no_isolated_vertex_dec (m : Mesh) : Decision (no_isolated_vertex m).
Proof. unfold no_isolated_vertex. apply _. Defined.

(** The sum of the degrees of the faces. *)
Definition face_degree_sum (m : Mesh) : Z :=
  Z.of_nat (sum_list (length <$> (map_to_list (face m)).*2)).

(** The effect of a face rewiring on everything but the touched face. *)
Definition faces_grow (w : Z) (m m' : Mesh) : Prop :=
  vertex m' = vertex m ∧ halfedge m' = halfedge m ∧
  max_int_key m' = max_int_key m ∧ max_int_fkey m' = max_int_fkey m ∧
  dom (face m') = dom (face m) ∧
  ∀ fk vs, face m !! fk = Some vs →
           ∃ vs', face m' !! fk = Some vs' ∧ vs ⊆ vs' ∧ vs' ⊆ w :: vs.

(** The half-edge table after [split_edge u v] with new vertex [w]. *)
Definition he_split (m : Mesh) (u v w : Z) (fuv fvu : option Z) (a b : Z)
    : option (option Z) :=
  if decide (a = v ∧ b = u) then None
  else if decide (a = w ∧ b = u) then Some fvu
  else if decide (a = v ∧ b = w) then Some fvu
  else if decide (a = u ∧ b = v) then None
  else if decide (a = w ∧ b = v) then Some fuv
  else if decide (a = u ∧ b = w) then Some fuv
  else he m a b.

(** A vertex of the vertex table with at least one neighbour. *)
Definition has_row (m : Mesh) (a : Z) : Prop :=
  a ∈ dom (vertex m) ∧ ∃ b, is_Some (he m a b).

(** What every mesh of the topology pass satisfies: the two counters bound
    the keys, and half-edges and faces only mention vertices of the table. *)
Definition topo_inv (m : Mesh) : Prop :=
  (∀ k, k ∈ dom (vertex m) → k ≤ max_int_key m) ∧
  (∀ a b, is_Some (he m a b) → a ∈ dom (vertex m) ∧ b ∈ dom (vertex m)) ∧
  (∀ fk vs x, face m !! fk = Some vs → x ∈ vs → x ∈ dom (vertex m)) ∧
  (∀ fk, fk ∈ dom (face m) → fk ≤ max_int_fkey m).

(** An edge that [split_edge] can split. *)
Definition ready (m : Mesh) (e : Z * Z) : Prop :=
  e.1 ≠ e.2 ∧
  ∃ fuv fvu, he m e.1 e.2 = Some fuv ∧ he m e.2 e.1 = Some fvu ∧
             face_has m fuv e.2 ∧ face_has m fvu e.1.

(** Two pairs that are different undirected edges. *)
Definition apart (e e' : Z * Z) : Prop := e' ≠ e ∧ e' ≠ (e.2, e.1).

(** No undirected edge occurs twice in the list. *)
Fixpoint all_apart (es : list (Z * Z)) : Prop :=
  match es with
  | [] => True
  | e :: es' => Forall (apart e) es' ∧ all_apart es'
  end.

(** The invariant of the edge loop: the faces are those of the input with
    edge points inserted, and every edge point recorded so far is a vertex
    with neighbours. *)
Definition edge_state (m0 : Mesh) (bkeys : gset Z) (s : cc_edges) : Prop :=
  topo_inv (cc_subd s) ∧
  (∀ a, has_row m0 a → has_row (cc_subd s) a) ∧
  max_int_fkey (cc_subd s) = max_int_fkey m0 ∧
  dom (face (cc_subd s)) = dom (face m0) ∧
  (∀ fk vs, face m0 !! fk = Some vs →
            ∃ vs', face (cc_subd s) !! fk = Some vs' ∧ vs ⊆ vs') ∧
  dom (cc_bkey_edgepoints s) = bkeys ∧
  (∀ w, w ∈ cc_edgepoints s → has_row (cc_subd s) w) ∧
  (∀ key l w, cc_bkey_edgepoints s !! key = Some l → w ∈ l →
              w ∈ dom (vertex (cc_subd s))).

(** The body of the edge loop of [mesh_subdivide_quad]. *)
Definition quad_edge_step (subd : Mesh) (e : Z * Z) : py Mesh :=
  let '(u, v) := e in r <~ split_edge u v true subd ; inr r.1.

(** What [add_face] does for one half-edge of the new cycle. *)
Definition add_face_step (fkey : Z) (m : Mesh) (e : Z * Z) : Mesh :=
  let '(u, v) := e in
  let m := halfedge_set u v (Some fkey) m in
  match halfedge_get m v u with
  | inr _ => m
  | inl _ => halfedge_set v u None m
  end.

(** The sum of the degrees of the listed faces. *)
Definition deg_sum (m0 : Mesh) (fkeys : list Z) : nat :=
  sum_list ((λ f, length (default [] (face m0 !! f))) <$> fkeys).

(** The state the edge loop of Catmull-Clark starts in. *)
Definition cc_start (m0 : Mesh) (bkeys : gset Z) : cc_edges :=
  mkCCEdges m0 (gset_to_gmap [] bkeys) [].

(** Only coordinates differ. *)
Definition same_topology (m m' : Mesh) : Prop :=
  halfedge m' = halfedge m ∧ face m' = face m ∧ dom (vertex m') = dom (vertex m).

(** A computation extends the trace by events that all satisfy [P],
    whether it returns or raises, and a value it returns satisfies [Q]. *)
Definition logs {A} (c : M A) (P : event → Prop) (Q : A → Prop) : Prop :=
  ∀ w, ∃ d, w_log (final (c w)) = w_log w ++ d ∧ Forall P d ∧
            ∀ a w', c w = Ok a w' → Q a.

(** What round [k] of a run with the arguments [p] may add to the trace
    after its [EvRound]: the operator of the phase that round [k] is due
    for, with the caller's flags; the smoothing helper for one pass; the
    callback with the round index and the caller's context; the break. *)
Definition in_round (p : params) (k : Z) (e : event) : Prop :=
  match e with
  | EvRound _ => False
  | EvSplit _ _ a => k `mod` 4 = 0 ∧ a = allow_boundary_split p
  | EvCollapse _ _ a f =>
      k `mod` 4 = 1 ∧ a = allow_boundary_collapse p ∧ f = fixed p
  | EvSwap _ _ a => k `mod` 4 = 2 ∧ a = allow_boundary_swap p
  | EvSmooth _ n => smooth p = true ∧ n = 1
  | EvCallback _ k' args =>
      is_Some (callback p) ∧ k' = k ∧ args = callback_args p
  | EvBreak k' =>
      k' = k ∧ (k - 10) `mod` 20 = 0 ∧
      (kmax_start p < inject_Z k)%Q ∧ (0 < divergence p)%Q
  end.

(** A trace made of the rounds [k], [k + 1], ... in order, each below
    [kmax]. *)
Inductive run_of_rounds (p : params) : Z → list event → Prop :=
| run_done (k : Z) : run_of_rounds p k []
| run_round (k : Z) (d rest : list event) :
    0 ≤ k < kmax p → Forall (in_round p k) d →
    run_of_rounds p (k + 1) rest →
    run_of_rounds p k (EvRound k :: d ++ rest).

(** The phases follow the round index: an edge is split only in a round
    [k] with [k mod 4 = 0], collapsed only with [k mod 4 = 1], swapped only
    with [k mod 4 = 2]; [k] is the round the trace is in, if any. *)
Fixpoint phase_schedule (k : option Z) (l : list event) : Prop :=
  match l with
  | [] => True
  | e :: l' =>
      match e with
      | EvRound k' => phase_schedule (Some k') l'
      | EvSplit _ _ _ => (∃ k0, k = Some k0 ∧ k0 `mod` 4 = 0) ∧ phase_schedule k l'
      | EvCollapse _ _ _ _ => (∃ k0, k = Some k0 ∧ k0 `mod` 4 = 1) ∧ phase_schedule k l'
      | EvSwap _ _ _ => (∃ k0, k = Some k0 ∧ k0 `mod` 4 = 2) ∧ phase_schedule k l'
      | _ => phase_schedule k l'
      end
  end.


(** Two rounds without smoothing on [triangle345], every edge too long. *)
Definition unsmoothed_start : locals :=
  mkLocals (list_to_set (vertices_on_boundary triangle345)) 0 None.
Definition unsmoothed_rounds : result locals :=
  @rounds reference_ops params_negative_target 1 [0; 1] unsmoothed_start
    (world_of triangle345).
Definition unsmoothed_locals : locals :=
  match unsmoothed_rounds with Ok l _ => l | Raise _ _ => unsmoothed_start end.

(** The first round of a smoothed run on [fan]. *)
Definition smoothed_start : locals :=
  mkLocals (list_to_set (vertices_on_boundary fan)) 0 None.
Definition smoothed_round : result (ctl * locals) :=
  @round reference_ops params_fixed_centre 1 0 smoothed_start (world_of fan).
Definition smoothed_locals : locals :=
  match smoothed_round with Ok r _ => r.2 | Raise _ _ => smoothed_start end.

(** The smoothing block on [fan]. *)
Definition fan_smoothed : result (gset Z) :=
  @smooth_step reference_ops (world_of fan).

(** The run of [triangle345] with a negative target. *)
Definition negative_target_run : result unit :=
  @trimesh_optimise_topology reference_ops params_negative_target (world_of triangle345).

(** The vertex counter is at or above every vertex key in use. *)
Definition keys_bounded (m : Mesh) : Prop :=
  map_Forall (λ key _, key ≤ max_int_key m) (vertex m).

#[global] Instance keys_bounded_dec (m : Mesh) : Decision (keys_bounded m).
Proof. unfold keys_bounded. apply _. Defined.

(** The mesh [m'] has the vertices of [m] where they were, and possibly
    more, all with keys above the counter of [m]. *)
Definition grown_from (m m' : Mesh) : Prop :=
  keys_bounded m' ∧ vertex m ⊆ vertex m' ∧ max_int_key m ≤ max_int_key m'.

(** Every face has at least three corners. *)
Definition faces_are_polygons (m : Mesh) : Prop :=
  map_Forall (λ _ vs, (3 ≤ length vs)%nat) (face m).

#[global] Instance faces_are_polygons_dec (m : Mesh) : Decision (faces_are_polygons m).
Proof. unfold faces_are_polygons. apply _. Defined.

(** A face of the corner scheme: a corner triangle, or the face of the
    edge points of a face of [m0], which has as many corners as that
    face. *)
Definition corner_cut_face (m0 : Mesh) (vs : list Z) : Prop :=
  length vs = 3%nat ∨ ∃ f0 vs0, face m0 !! f0 = Some vs0 ∧ length vs = length vs0.

(** Two meshes with the same faces, half-edges, vertex keys and key
    counters: they differ in the coordinates of their vertices at most. *)
Definition same_connectivity (m m' : Mesh) : Prop :=
  same_topology m m' ∧
  max_int_key m' = max_int_key m ∧ max_int_fkey m' = max_int_fkey m.

(** The face counter is at or above every face key in use. *)
Definition fkeys_bounded (m : Mesh) : Prop :=
  map_Forall (λ fkey _, fkey ≤ max_int_fkey m) (face m).

#[global] Instance fkeys_bounded_dec (m : Mesh) : Decision (fkeys_bounded m).
Proof. unfold fkeys_bounded. apply _. Defined.

(** Every face is a quad. *)
Definition all_quads (m : Mesh) : Prop :=
  map_Forall (λ _ vs, length vs = 4%nat) (face m).

#[global] Instance all_quads_dec (m : Mesh) : Decision (all_quads m).
Proof. unfold all_quads. apply _. Defined.

(** Every vertex has its row in the half-edge table (an empty one when it
    has no neighbour), as the vertices that [add_vertex] makes have. *)
Definition rows_complete (m : Mesh) : Prop :=
  map_Forall (λ key _, is_Some (halfedge m !! key)) (vertex m).

#[global] Instance rows_complete_dec (m : Mesh) : Decision (rows_complete m).
Proof. unfold rows_complete. apply _. Defined.

(** A vertex without neighbours that is not in the fixed set. *)
Definition free_isolated_vertex (m : Mesh) (fixed : gset Z) (key : Z) : Prop :=
  key ∈ dom (vertex m) ∧ key ∉ fixed ∧ halfedge m !! key = Some ∅.

(** The rows of the half-edge table of [m] are rows of [m']. *)
Definition rows_kept (m m' : Mesh) : Prop :=
  ∀ key, is_Some (halfedge m !! key) → is_Some (halfedge m' !! key).

(* ===================================================================== *)
(** * Facts about the monad                                                *)
(* ===================================================================== *)

Ltac unfold_monad :=
  unfold bind, lift, ret, raise, get_mesh, put_mesh, emit in *.

Lemma final_log_app {A} (w : World) (r : result A) (d : list event) :
  w_log (final r) = w_log w ++ d → new_events w r = d.
Proof.
  intros H. unfold new_events. rewrite H.
  by rewrite drop_app_length.
Qed.

Lemma exclusive_mono (s s' : gset Z) (calls : list (Z * Z)) :
  s ⊆ s' → exclusive s' calls → exclusive s calls.
Proof.
  revert s s'. induction calls as [|[u v] calls IH]; simpl; [done|].
  intros s s' Hs (Hu & Hv & He). split_and!; [set_solver..|].
  eapply IH; [|exact He]. set_solver.
Qed.

Lemma in_visited_false (vis : gset Z) (u v : Z) :
  in_visited vis u v = false ↔ u ∉ vis ∧ v ∉ vis.
Proof.
  unfold in_visited. rewrite orb_false_iff, !bool_decide_eq_false. done.
Qed.

Section OptimiserFacts.
Context {ops : Collaborators}.
Variable p : params.

(** What one pass through the body of the split loop can do. *)
Lemma split_step_cases (dlmax : Q) (vis : gset Z) (u v : Z) (w : World) :
  let r := split_step p dlmax vis (u, v) w in
  (w_log (final r) = w_log w ∧ ∀ vis' w', r = Ok vis' w' → vis' = vis ∧ w' = w)
  ∨ (u ∉ vis ∧ v ∉ vis ∧
     (∃ len, edge_length (w_mesh w) u v = inr len ∧
             Qle_bool len (lmax p + dlmax) = false) ∧
     w_log (final r) = w_log w ++ [EvSplit u v (allow_boundary_split p)] ∧
     ∀ vis' w', r = Ok vis' w' → vis' = vis ∪ {[u]} ∪ {[v]}).
Proof.
  simpl. unfold split_step.
  destruct (in_visited vis u v) eqn:Hvis.
  { left. unfold_monad. simpl. split; [done|]. by intros ?? [= <- <-]. }
  apply in_visited_false in Hvis as [Hu Hv].
  unfold_monad.
  destruct (edge_length (w_mesh w) u v) as [e|len] eqn:Hlen; simpl.
  { left. split; [done|]. intros ?? [=]. }
  destruct (Qle_bool len (lmax p + dlmax)) eqn:Hle; simpl.
  { left. split; [done|]. by intros ?? [= <- <-]. }
  right. split_and!; [done|done|by eexists|..].
  - by destruct (trimesh_split_edge _ _ _ _).
  - destruct (trimesh_split_edge _ _ _ _); simpl; [intros ?? [=]|].
    by intros ?? [= <- <-].
Qed.

(** What one pass through the body of the collapse loop can do. *)
Lemma collapse_step_cases (dlmin : Q) (vis : gset Z) (u v : Z) (w : World) :
  let r := collapse_step p dlmin vis (u, v) w in
  (w_log (final r) = w_log w ∧ ∀ vis' w', r = Ok vis' w' → vis' = vis ∧ w' = w)
  ∨ (u ∉ vis ∧ v ∉ vis ∧
     (∃ len, edge_length (w_mesh w) u v = inr len ∧
             Qle_bool (lmin p - dlmin) len = false) ∧
     w_log (final r) =
       w_log w ++ [EvCollapse u v (allow_boundary_collapse p) (fixed p)] ∧
     ∀ vis' w', r = Ok vis' w' → vis ∪ {[u]} ∪ {[v]} ⊆ vis').
Proof.
  simpl. unfold collapse_step.
  destruct (in_visited vis u v) eqn:Hvis.
  { left. unfold_monad. simpl. split; [done|]. by intros ?? [= <- <-]. }
  apply in_visited_false in Hvis as [Hu Hv].
  unfold_monad.
  destruct (edge_length (w_mesh w) u v) as [e|len] eqn:Hlen; simpl.
  { left. split; [done|]. intros ?? [=]. }
  destruct (Qle_bool (lmin p - dlmin) len) eqn:Hle; simpl.
  { left. split; [done|]. by intros ?? [= <- <-]. }
  right. split_and!; [done|done|by eexists|..].
  - destruct (trimesh_collapse_edge _ _ _ _ _) as [?|m']; simpl; [done|].
    by destruct (py_getitem (halfedge m') u).
  - destruct (trimesh_collapse_edge _ _ _ _ _) as [?|m']; simpl; [intros ?? [=]|].
    destruct (py_getitem (halfedge m') u); simpl; [intros ?? [=]|].
    intros ?? [= <- <-]. set_solver.
Qed.

Lemma split_loop_exclusive (dlmax : Q) (es : list (Z * Z)) (vis : gset Z) (w : World) :
  ∃ d, w_log (final (for_each es (split_step p dlmax) vis w)) = w_log w ++ d ∧
       exclusive vis (split_calls d) ∧ collapse_calls d = [] ∧ swap_calls d = [].
Proof.
  revert vis w. induction es as [|[u v] es IH]; intros vis w.
  { exists []. simpl. by rewrite app_nil_r. }
  cbn [for_each]. unfold bind at 1.
  pose proof (split_step_cases dlmax vis u v w) as H. cbv zeta in H.
  destruct (split_step p dlmax vis (u, v) w) as [vis' w'|e w'] eqn:Hstep;
    cbn [final] in H.
  - destruct H as [[Hlog Hok]|(Hu & Hv & _ & Hlog & Hok)].
    + destruct (Hok _ _ eq_refl) as [-> ->]. apply IH.
    + rewrite (Hok _ _ eq_refl).
      destruct (IH (vis ∪ {[u]} ∪ {[v]}) w') as (d & Hd & He & Hc & Hs).
      exists (EvSplit u v (allow_boundary_split p) :: d).
      rewrite Hd, Hlog, <- app_assoc. done.
  - cbn [final]. destruct H as [[Hlog Hok]|(Hu & Hv & _ & Hlog & Hok)].
    + exists []. by rewrite app_nil_r.
    + exists [EvSplit u v (allow_boundary_split p)]. done.
Qed.

Lemma collapse_loop_exclusive (dlmin : Q) (es : list (Z * Z)) (vis : gset Z) (w : World) :
  ∃ d, w_log (final (for_each es (collapse_step p dlmin) vis w)) = w_log w ++ d ∧
       exclusive vis (collapse_calls d) ∧ split_calls d = [] ∧ swap_calls d = [].
Proof.
  revert vis w. induction es as [|[u v] es IH]; intros vis w.
  { exists []. simpl. by rewrite app_nil_r. }
  cbn [for_each]. unfold bind at 1.
  pose proof (collapse_step_cases dlmin vis u v w) as H. cbv zeta in H.
  destruct (collapse_step p dlmin vis (u, v) w) as [vis' w'|e w'] eqn:Hstep;
    cbn [final] in H.
  - destruct H as [[Hlog Hok]|(Hu & Hv & _ & Hlog & Hok)].
    + destruct (Hok _ _ eq_refl) as [-> ->]. apply IH.
    + specialize (Hok _ _ eq_refl).
      destruct (IH vis' w') as (d & Hd & He & Hc & Hs).
      exists (EvCollapse u v (allow_boundary_collapse p) (fixed p) :: d).
      rewrite Hd, Hlog, <- app_assoc. split_and!; try done.
      simpl. split_and!; try done. by eapply exclusive_mono.
  - cbn [final]. destruct H as [[Hlog Hok]|(Hu & Hv & _ & Hlog & Hok)].
    + exists []. by rewrite app_nil_r.
    + exists [EvCollapse u v (allow_boundary_collapse p) (fixed p)]. done.
Qed.

(** C7. Within one split phase, and within one collapse phase, every
    operation the phase executes has both end points outside the set of
    end points of the operations the phase executed before it; the phase
    may return or be cut short by an exception. *)
Theorem phase_operations_exclusive (dlmin dlmax : Q) (w : World) :
  exclusive ∅ (split_calls (new_events w (split_phase p dlmax w))) ∧
  exclusive ∅ (collapse_calls (new_events w (collapse_phase p dlmin w))).
Proof.
  split.
  - unfold split_phase, bind, get_mesh.
    destruct (split_loop_exclusive dlmax (edges (w_mesh w)) ∅ w) as (d & Hd & He & _).
    by rewrite (final_log_app _ _ _ Hd).
  - unfold collapse_phase, bind, get_mesh.
    destruct (collapse_loop_exclusive dlmin (edges (w_mesh w)) ∅ w) as (d & Hd & He & _).
    by rewrite (final_log_app _ _ _ Hd).
Qed.

End OptimiserFacts.



Section SwapDecision.
Context {ops : Collaborators}.
Variable p : params.



End SwapDecision.

Lemma Qle_bool_false (a b : Q) : Qle_bool a b = false ↔ (b < a)%Q.
Proof.
  split.
  - intros H. apply Qnot_le_lt. intros Hle%Qle_bool_iff. congruence.
  - intros H. destruct (Qle_bool a b) eqn:E; [|done].
    apply Qle_bool_iff in E. by apply Qlt_not_le in H.
Qed.

Lemma Qltb_true (a b : Q) : Qltb a b = true ↔ (a < b)%Q.
Proof. unfold Qltb. rewrite negb_true_iff. apply Qle_bool_false. Qed.



Section Thresholds.
Context {ops : Collaborators}.
Variable p : params.




End Thresholds.

(* ===================================================================== *)
(** * The boundary set                                                     *)
(* ===================================================================== *)

Lemma vertices_on_boundary_halfedge (m m' : Mesh) :
  halfedge m' = halfedge m → vertices_on_boundary m' = vertices_on_boundary m.
Proof. intros H. unfold vertices_on_boundary, boundary_pairs. by rewrite H. Qed.

Section BoundarySet.
Context {ops : Collaborators}.
Variable p : params.

Lemma write_back_halfedge (vs' : gmap Z xyz) (keys : list Z) (w w' : World) :
  for_each keys
    (λ (_ : unit) key,
       m <- get_mesh ;
       c <- lift (py_getitem vs' key) ;
       put_mesh (set_vertex (λ vt, <[key := c]> vt) m)) tt w = Ok tt w' →
  halfedge (w_mesh w') = halfedge (w_mesh w).
Proof.
  revert w. induction keys as [|key keys IH]; intros w; cbn [for_each].
  { by intros [= <-]. }
  unfold bind at 1. unfold_monad.
  destruct (py_getitem vs' key) as [|c]; [done|]. cbv beta iota.
  intros H. by apply IH in H.
Qed.

Lemma smooth_step_boundary (w w' : World) (bnd : gset Z) :
  smooth_step w = Ok bnd w' →
  bnd = list_to_set (vertices_on_boundary (w_mesh w)) ∧
  halfedge (w_mesh w') = halfedge (w_mesh w).
Proof.
  unfold smooth_step. unfold bind at 1. unfold get_mesh at 1. cbv beta iota.
  unfold bind at 1. destruct (lift (dict_of _ _) w) as [vs w1|] eqn:H1; [|done].
  unfold bind at 1. destruct (lift (dict_of _ _) w1) as [fs w2|] eqn:H2; [|done].
  unfold bind at 1. destruct (lift (dict_of _ _) w2) as [adj w3|] eqn:H3; [|done].
  assert (∀ A (c : py A) (x : World) a y, lift c x = Ok a y → y = x) as Hlift.
  { intros A [e|a0] x a y; unfold lift, raise, ret; [done|]. by intros [= _ ->]. }
  apply Hlift in H1 as ->. apply Hlift in H2 as ->. apply Hlift in H3 as ->.
  unfold bind at 1. unfold emit at 1. cbv beta iota.
  unfold bind at 1.
  destruct (lift (smooth_area _ _ _ _ _) _) as [vs' w4|] eqn:H4; [|done].
  apply Hlift in H4 as ->.
  unfold bind at 1.
  destruct (for_each _ _ _ _) as [[] w5|] eqn:H5; [|done].
  apply write_back_halfedge in H5. cbn [w_mesh] in H5.
  unfold ret. by intros [= <- <-].
Qed.

(** After a round that ran to its end with smoothing enabled and without a
    callback, the boundary set the next round works with is the set of
    boundary vertices of the mesh. *)
Lemma boundary_set_fresh (fac : Q) (k : Z) (l l' : locals) (w w' : World) :
  smooth p = true → callback p = None →
  round p fac k l w = Ok (Continue, l') w' →
  boundary l' = list_to_set (vertices_on_boundary (w_mesh w')).
Proof.
  intros Hsmooth Hcb. unfold round.
  unfold bind at 1. destruct (round_phases p fac k l w) as [l1 w1|]; [|done].
  unfold bind at 1.
  destruct (convergence_check p k (num_vertices_1 l1) w1) as [stop w2|]; [|done].
  destruct stop; [by unfold_monad|].
  rewrite Hsmooth. unfold bind at 1. unfold bind at 1.
  destruct (smooth_step w2) as [bnd w3|] eqn:Hs; [|done].
  apply smooth_step_boundary in Hs as [-> Hh].
  unfold ret at 1. unfold run_callback. rewrite Hcb.
  unfold_monad. intros [= <- <-]. cbn [boundary].
  by rewrite (vertices_on_boundary_halfedge (w_mesh w2) (w_mesh w3) Hh).
Qed.

End BoundarySet.

(* ===================================================================== *)
(** * Early termination                                                    *)
(* ===================================================================== *)

Lemma inject_Z_nonzero (n : Z) : n ≠ 0 → Qeq_bool (inject_Z n) 0 = false.
Proof.
  intros Hn. destruct (Qeq_bool (inject_Z n) 0) eqn:E; [|done].
  apply Qeq_bool_iff in E. unfold Qeq in E. simpl in E. lia.
Qed.

Section EarlyTermination.
Context {ops : Collaborators}.
Variable p : params.




End EarlyTermination.

(* ===================================================================== *)
(** * Configuration                                                        *)
(* ===================================================================== *)

Lemma py_range_nonpos (n : Z) : n ≤ 0 → py_range n = [].
Proof. intros H. unfold py_range. by replace (Z.to_nat n) with 0%nat by lia. Qed.

Section Configuration.
Context {ops : Collaborators}.
Variable p : params.

(** C5, as the code has it. The optimiser does not check its
    configuration: a zero target makes the call fail with the mesh and
    the trace untouched (the division in the ramp factor, if not an
    earlier step, raises), and with kmax at most 0 no round runs and the
    mesh is left as it was. *)
Theorem zero_target_fails_before_mutation (w : World) :
  ((target p == 0)%Q → ∃ e, trimesh_optimise_topology p w = Raise e w) ∧
  (kmax p ≤ 0 → final (trimesh_optimise_topology p w) = w).
Proof.
  split.
  - intros Ht. unfold trimesh_optimise_topology.
    unfold_monad. cbv beta iota.
    destruct (py_map _ _) as [e|lens]; [by exists e|]. cbv beta iota.
    unfold ramp_factor. destruct (py_max lens) as [e|mx]; simpl; [by exists e|].
    unfold py_div. rewrite (proj2 (Qeq_bool_iff _ _) Ht). by eexists.
  - intros Hk. unfold trimesh_optimise_topology.
    rewrite py_range_nonpos by done.
    unfold_monad. cbv beta iota.
    destruct (py_map _ _) as [e|lens]; [done|]. cbv beta iota.
    destruct (ramp_factor p lens) as [e|fac]; [done|]. done.
Qed.

End Configuration.

(* ===================================================================== *)
(** * The callback                                                         *)
(* ===================================================================== *)















Section Callback.
Context {ops : Collaborators}.
Variable p : params.












End Callback.

(* ===================================================================== *)
(** * The dispatcher                                                       *)
(* ===================================================================== *)

Section DispatcherFacts.
Variable mesh_subdivide_tri : options → M Mesh.
Variable mesh_subdivide_corner : options → M Mesh.
Variable mesh_subdivide_doosabin : options → M Mesh.

Lemma mesh_subdivide_unrecognised (scheme : string) (o : options) :
  scheme ∉ recognised_schemes →
  mesh_subdivide mesh_subdivide_tri mesh_subdivide_corner mesh_subdivide_doosabin scheme o
  = raise NotImplementedError.
Proof.
  unfold recognised_schemes. rewrite !not_elem_of_cons.
  intros (? & ? & ? & ? & ? & _). unfold mesh_subdivide.
  rewrite !bool_decide_eq_false_2 by done. done.
Qed.

(** C9. For a scheme name the dispatcher does not recognise,
    [mesh_subdivide] raises at once: no scheme runs, the mesh it was
    handed and the trace are as before, and no mesh is returned. *)
Theorem unsupported_scheme_fails_fast (scheme : string) (o : options) (w : World) :
  scheme ∉ recognised_schemes →
  mesh_subdivide mesh_subdivide_tri mesh_subdivide_corner mesh_subdivide_doosabin scheme o w
  = Raise NotImplementedError w.
Proof. intros H. by rewrite mesh_subdivide_unrecognised. Qed.

(** C10. The names [mesh_subdivide] recognises are exactly 'tri', 'quad',
    'corner', 'catmullclark' and 'doosabin': each of them reaches its
    scheme, every other name raises [NotImplementedError], and so does
    'loop', whatever the mesh and the options. *)
Theorem recognised_schemes_exact (o : options) :
  let dispatch :=
    mesh_subdivide mesh_subdivide_tri mesh_subdivide_corner mesh_subdivide_doosabin in
  dispatch "tri" o = mesh_subdivide_tri o ∧
  dispatch "quad" o = (mesh <- get_mesh ; lift (call_quad mesh o)) ∧
  dispatch "corner" o = mesh_subdivide_corner o ∧
  dispatch "catmullclark" o = (mesh <- get_mesh ; lift (call_catmullclark mesh o)) ∧
  dispatch "doosabin" o = mesh_subdivide_doosabin o ∧
  (∀ scheme, scheme ∉ recognised_schemes →
             ∀ w, dispatch scheme o w = Raise NotImplementedError w) ∧
  (∀ w, dispatch "loop" o w = Raise NotImplementedError w).
Proof.
  cbv zeta. split_and!; try done.
  intros scheme H w. by rewrite mesh_subdivide_unrecognised.
Qed.

End DispatcherFacts.

(* ===================================================================== *)
(** * Runs of the optimiser on small meshes                                *)
(* ===================================================================== *)


(** A strict improvement: on [two_fans] the ends of the edge (0, 1) have
    corrected degree 8 and the third vertices 5; the swap is requested. *)
Example swap_requested :
  let bnd : gset Z := list_to_set (vertices_on_boundary two_fans) in
  let w := world_of two_fans in
  swap_calls (new_events w (@swap_step reference_ops params_swap bnd ∅ (0, 1) w))
  = [(0, 1)].
Proof. vm_compute. reflexivity. Qed.



(** C5, the counterexample. A negative target, a tolerance of 2 and a
    single round are all accepted: the calls return, and with the negative
    target an edge of the triangle has been split by then. *)
Lemma invalid_configuration_accepted :
  (∃ w', @trimesh_optimise_topology reference_ops params_negative_target
           (world_of triangle345) = Ok tt w' ∧
         split_calls (w_log w') = [(2, 1)] ∧
         number_of_vertices triangle345 = 3 ∧
         number_of_vertices (w_mesh w') = 4) ∧
  (∃ w', @trimesh_optimise_topology reference_ops params_large_tol
           (world_of triangle345) = Ok tt w') ∧
  (∃ w', @trimesh_optimise_topology reference_ops params_one_round
           (world_of triangle345) = Ok tt w').
Proof.
  split_and!.
  - eexists. split; [vm_compute; reflexivity|]. by vm_compute.
  - eexists. vm_compute. reflexivity.
  - eexists. vm_compute. reflexivity.
Qed.

Lemma zero_target_witness :
  let p := mkParams 0 100 (1 # 10) (1 # 100) false false false true None None None in
  (target p == 0)%Q ∧
  ∃ e, @trimesh_optimise_topology reference_ops p (world_of triangle345)
       = Raise e (world_of triangle345).
Proof.
  intros p. split; [reflexivity|].
  apply (proj1 (@zero_target_fails_before_mutation reference_ops p (world_of triangle345))).
  reflexivity.
Defined.




(** C3, the failing run. The interior vertex 4 of [fan] is in the fixed
    set; smoothing is called with the boundary vertices 0 to 3 as its fixed
    set, and vertex 4 leaves (8, 6, 0) in the first round. *)
Theorem fixed_interior_vertex_is_smoothed :
  fixed params_fixed_centre = Some [4] ∧
  vertex fan !! 4 = Some (8, 6, 0)%Q ∧
  ∃ w' x y z,
    @trimesh_optimise_topology reference_ops params_fixed_centre (world_of fan) = Ok tt w' ∧
    w_log w' = [EvRound 0; EvSmooth {[0; 1; 2; 3]} 1; EvRound 1; EvSmooth {[0; 1; 2; 3]} 1] ∧
    vertex (w_mesh w') !! 4 = Some (x, y, z) ∧ (6 < y)%Q.
Proof.
  split; [reflexivity|]. split; [vm_compute; reflexivity|].
  eexists _, _, _, _. split; [vm_compute; reflexivity|].
  split; [vm_compute; reflexivity|]. split; [vm_compute; reflexivity|].
  by vm_compute.
Qed.

Lemma unsupported_scheme_witness :
  "loop" ∉ recognised_schemes ∧
  mesh_subdivide (λ _, raise TypeError) (λ _, raise TypeError) (λ _, raise TypeError)
    "loop" no_options (world_of square)
  = Raise NotImplementedError (world_of square).
Proof.
  assert (H : "loop" ∉ recognised_schemes)
    by (apply (bool_decide_unpack _); vm_compute; reflexivity).
  split; [exact H|].
  apply (unsupported_scheme_fails_fast _ _ _ "loop" no_options (world_of square) H).
Defined.

Lemma recognised_schemes_witness :
  "butterfly" ∉ recognised_schemes ∧
  mesh_subdivide (λ _, raise TypeError) (λ _, raise TypeError) (λ _, raise TypeError)
    "butterfly" no_options (world_of square)
  = Raise NotImplementedError (world_of square).
Proof.
  assert (H : "butterfly" ∉ recognised_schemes)
    by (apply (bool_decide_unpack _); vm_compute; reflexivity).
  split; [exact H|].
  destruct (recognised_schemes_exact (λ _, raise TypeError) (λ _, raise TypeError)
              (λ _, raise TypeError) no_options) as (_ & _ & _ & _ & _ & Hn & _).
  apply (Hn "butterfly" H).
Defined.

(* ===================================================================== *)
(** * Well-formed meshes                                                   *)
(* ===================================================================== *)

Example square_valid : valid_mesh square.
Proof. apply (bool_decide_unpack _). vm_compute. reflexivity. Qed.

Example fan_valid : valid_mesh fan.
Proof. apply (bool_decide_unpack _). vm_compute. reflexivity. Qed.

(* ===================================================================== *)
(** * Quad and Catmull-Clark subdivision: counting                         *)
(* ===================================================================== *)

Lemma halfedge_get_he (m : Mesh) (a b : Z) (f : option Z) :
  halfedge_get m a b = inr f ↔ he m a b = Some f.
Proof.
  unfold halfedge_get, he, py_getitem.
  destruct (halfedge m !! a) as [row|]; simpl; [|naive_solver].
  destruct (row !! b); naive_solver.
Qed.

Lemma he_halfedge_set (u v : Z) (f : option Z) (m : Mesh) (a b : Z) :
  he (halfedge_set u v f m) a b
  = if decide (a = u ∧ b = v) then Some f else he m a b.
Proof.
  unfold he, halfedge_set. simpl.
  destruct (decide (a = u)) as [->|Ha].
  - rewrite lookup_insert_eq. simpl.
    destruct (decide (b = v)) as [->|Hb].
    + rewrite lookup_insert_eq. by rewrite decide_True.
    + rewrite lookup_insert_ne by done. rewrite decide_False by naive_solver.
      by destruct (halfedge m !! u).
  - rewrite lookup_insert_ne by done. by rewrite decide_False by naive_solver.
Qed.

Lemma he_halfedge_del (u v : Z) (m : Mesh) (a b : Z) :
  he (halfedge_del u v m) a b
  = if decide (a = u ∧ b = v) then None else he m a b.
Proof.
  unfold he, halfedge_del. simpl.
  destruct (halfedge m !! u) as [row|] eqn:Hrow.
  - destruct (decide (a = u)) as [->|Ha].
    + rewrite lookup_insert_eq. simpl.
      destruct (decide (b = v)) as [->|Hb].
      * rewrite lookup_delete_eq. by rewrite decide_True.
      * rewrite lookup_delete_ne by done. rewrite decide_False by naive_solver.
        by rewrite Hrow.
    + rewrite lookup_insert_ne by done. by rewrite decide_False by naive_solver.
  - case_decide as H; [|done]. destruct H as [-> ->]. by rewrite Hrow.
Qed.

Lemma he_add_vertex (c : xyz) (m : Mesh) (a b : Z) :
  he (add_vertex c m).1 a b = he m a b.
Proof.
  unfold he, add_vertex. simpl.
  destruct (decide (a = max_int_key m + 1)) as [->|Ha].
  - rewrite lookup_insert_eq. simpl. by destruct (halfedge m !! _).
  - by rewrite lookup_insert_ne.
Qed.

Lemma insert_before_spec (v w : Z) (vs : list Z) :
  v ∈ vs →
  ∃ vs', insert_before v w vs = inr vs' ∧ vs ⊆ vs' ∧ vs' ⊆ w :: vs.
Proof.
  induction vs as [|y vs IH]; [by intros ?%elem_of_nil|].
  intros Hv. simpl. case_bool_decide as Hy.
  - eexists. split; [done|]. split; set_solver.
  - apply elem_of_cons in Hv as [->|Hv]; [done|].
    destruct (IH Hv) as (vs' & -> & H1 & H2). simpl.
    eexists. split; [done|]. split; set_solver.
Qed.

Lemma split_in_face_spec (f : option Z) (v w : Z) (m : Mesh) :
  face_has m f v → ∃ m', split_in_face f v w m = inr m' ∧ faces_grow w m m'.
Proof.
  destruct f as [fkey|]; simpl.
  - intros Hv. unfold py_getitem.
    destruct (face m !! fkey) as [vs|] eqn:Hf; [|by apply elem_of_nil in Hv].
    simpl in *. destruct (insert_before_spec v w vs Hv) as (vs' & -> & H1 & H2).
    simpl. eexists. split; [done|]. unfold faces_grow. simpl.
    split_and!; try done.
    + rewrite dom_insert_L. apply elem_of_dom_2 in Hf. set_solver.
    + intros fk vs0 Hfk. destruct (decide (fk = fkey)) as [->|Hne].
      * rewrite lookup_insert_eq. simplify_eq. eauto.
      * rewrite lookup_insert_ne by done. exists vs0. split; [done|]. set_solver.
  - intros _. exists m. split; [done|]. unfold faces_grow.
    split_and!; try done. intros fk vs Hfk. exists vs. split; [done|]. set_solver.
Qed.

Lemma face_has_grow (w : Z) (m m' : Mesh) (f : option Z) (v : Z) :
  faces_grow w m m' → face_has m f v → face_has m' f v.
Proof.
  intros (_ & _ & _ & _ & _ & Hg). destruct f as [fkey|]; simpl; [|done].
  destruct (face m !! fkey) as [vs|] eqn:Hf; simpl; [|by intros ?%elem_of_nil].
  intros Hv. destruct (Hg _ _ Hf) as (vs' & -> & H1 & _). simpl. by apply H1.
Qed.

Lemma face_has_frame (m m' : Mesh) (f : option Z) (v : Z) :
  face m' = face m → face_has m f v → face_has m' f v.
Proof. intros H. unfold face_has. by rewrite H. Qed.

Lemma split_edge_spec (m : Mesh) (u v : Z) (fuv fvu : option Z) :
  he m u v = Some fuv → he m v u = Some fvu →
  u ∈ dom (vertex m) → v ∈ dom (vertex m) →
  face_has m fuv v → face_has m fvu u →
  let w := max_int_key m + 1 in
  ∃ m', split_edge u v true m = inr (m', Some w) ∧
        (∃ c, vertex m' = <[w := c]> (vertex m)) ∧
        max_int_key m' = w ∧ max_int_fkey m' = max_int_fkey m ∧
        dom (face m') = dom (face m) ∧
        (∀ fk vs, face m !! fk = Some vs →
                  ∃ vs', face m' !! fk = Some vs' ∧ vs ⊆ vs' ∧ vs' ⊆ w :: vs) ∧
        (∀ a b, he m' a b = he_split m u v w fuv fvu a b).
Proof.
  intros Huv Hvu Hu Hv Hfuv Hfvu w. unfold split_edge.
  rewrite (proj2 (halfedge_get_he m u v fuv) Huv).
  rewrite (proj2 (halfedge_get_he m v u fvu) Hvu). simpl.
  apply elem_of_dom in Hu as [cu Hcu]. apply elem_of_dom in Hv as [cv Hcv].
  unfold vertex_coordinates, py_getitem. rewrite Hcu, Hcv. simpl.
  fold w.
  set (m1 := {| vertex := <[w := midpoint cu cv]> (vertex m);
                face := face m;
                halfedge := <[w := default ∅ (halfedge m !! w)]> (halfedge m);
                max_int_key := w;
                max_int_fkey := max_int_fkey m |}).
  assert (Hm1 : m1 = (add_vertex (midpoint cu cv) m).1) by done.
  set (m4 := halfedge_del u v (halfedge_set w v fuv (halfedge_set u w fuv m1))).
  destruct (split_in_face_spec fuv v w m4) as (m5 & -> & Hg5).
  { by apply (face_has_frame m). }
  simpl.
  set (m8 := halfedge_del v u (halfedge_set w u fvu (halfedge_set v w fvu m5))).
  destruct (split_in_face_spec fvu u w m8) as (m9 & -> & Hg9).
  { apply (face_has_frame m5); [done|]. apply (face_has_grow w m4); [done|].
    by apply (face_has_frame m). }
  simpl. exists m9. split; [done|].
  destruct Hg5 as (Hv5 & Hh5 & Hk5 & Hf5 & Hd5 & Hs5).
  destruct Hg9 as (Hv9 & Hh9 & Hk9 & Hf9 & Hd9 & Hs9).
  split_and!.
  - exists (midpoint cu cv). rewrite Hv9. simpl. by rewrite Hv5.
  - rewrite Hk9. simpl. by rewrite Hk5.
  - rewrite Hf9. simpl. by rewrite Hf5.
  - rewrite Hd9. simpl. by rewrite Hd5.
  - intros fk vs Hfk.
    destruct (Hs5 fk vs Hfk) as (vs1 & Hfk1 & H1 & H2).
    destruct (Hs9 fk vs1 Hfk1) as (vs2 & Hfk2 & H3 & H4).
    exists vs2. split; [done|]. split; set_solver.
  - intros a b. unfold he at 1. rewrite Hh9. fold (he m8 a b).
    unfold m8. rewrite he_halfedge_del, !he_halfedge_set.
    unfold he at 1. rewrite Hh5. fold (he m4 a b).
    unfold m4. rewrite he_halfedge_del, !he_halfedge_set.
    rewrite Hm1, he_add_vertex. done.
Qed.

(** ** Invariants of the topology pass *)

Lemma valid_mesh_he (m : Mesh) :
  valid_mesh m →
  (∀ a b f, he m a b = Some f →
            a ≠ b ∧ a ∈ dom (vertex m) ∧ b ∈ dom (vertex m) ∧
            is_Some (he m b a) ∧ face_has m f b) ∧
  (∀ k, k ∈ dom (vertex m) → k ≤ max_int_key m) ∧
  (∀ fk vs, face m !! fk = Some vs →
            fk ≤ max_int_fkey m ∧ vs ≠ [] ∧ ∀ x, x ∈ vs → x ∈ dom (vertex m)).
Proof.
  intros (Hh & Hv & Hf). split_and!.
  - intros a b f Hab. unfold he in Hab.
    destruct (halfedge m !! a) as [row|] eqn:Hrow; [|done]. simpl in Hab.
    destruct (Hh a row Hrow) as [Ha Hr].
    destruct (Hr b f Hab) as (? & ? & ? & ?). done.
  - intros k [c Hk]%elem_of_dom. by apply (Hv k c Hk).
  - intros fk vs Hfk. destruct (Hf fk vs Hfk) as (? & ? & Hall).
    split_and!; [done..|]. intros x Hx. by apply (proj1 (Forall_forall _ _) Hall).
Qed.

Lemma valid_mesh_topo (m : Mesh) : valid_mesh m → topo_inv m.
Proof.
  intros (Hh & Hv & Hf)%valid_mesh_he. split_and!.
  - intros k Hk. by apply Hv.
  - intros a b [f Hab]. by destruct (Hh a b f Hab) as (? & ? & ? & ?).
  - intros fk vs x Hfk Hx. by eapply Hf.
  - intros fk [vs Hfk]%elem_of_dom. by eapply Hf.
Qed.


Lemma valid_mesh_ready (m : Mesh) (u v : Z) :
  valid_mesh m → is_Some (he m u v) → ready m (u, v).
Proof.
  intros (Hh & _)%valid_mesh_he [fuv Huv].
  destruct (Hh u v fuv Huv) as (Hne & _ & _ & [fvu Hvu] & Hfuv).
  destruct (Hh v u fvu Hvu) as (_ & _ & _ & _ & Hfvu).
  split; [done|]. exists fuv, fvu. done.
Qed.

Lemma split_step_inv (m : Mesh) (u v : Z) :
  topo_inv m → ready m (u, v) →
  let w := max_int_key m + 1 in
  ∃ m', split_edge u v true m = inr (m', Some w) ∧
        w ∉ dom (vertex m) ∧
        dom (vertex m') = {[w]} ∪ dom (vertex m) ∧
        topo_inv m' ∧
        max_int_fkey m' = max_int_fkey m ∧
        dom (face m') = dom (face m) ∧
        (∀ fk vs, face m !! fk = Some vs →
                  ∃ vs', face m' !! fk = Some vs' ∧ vs ⊆ vs') ∧
        (∀ a, has_row m a → has_row m' a) ∧
        has_row m' w ∧
        (∀ e, ready m e → apart (u, v) e → ready m' e).
Proof.
  intros (Hk & Hi & Hf & Hfk) (Hne & fuv & fvu & Huv & Hvu & Hfuv & Hfvu) w.
  simpl in *.
  destruct (Hi u v) as [Hu Hv]; [by rewrite Huv|].
  destruct (split_edge_spec m u v fuv fvu Huv Hvu Hu Hv Hfuv Hfvu)
    as (m' & Hs & [c Hvert] & Hmk & Hmf & Hdom & Hsup & Hhe).
  fold w in Hs, Hvert, Hmk, Hsup, Hhe.
  assert (Hlt : max_int_key m < w) by (unfold w; lia).
  clearbody w.
  assert (Hw : w ∉ dom (vertex m)).
  { intros Hw%Hk. lia. }
  assert (Hwu : w ≠ u) by (by intros <-).
  assert (Hwv : w ≠ v) by (by intros <-).
  assert (Hdv : dom (vertex m') = {[w]} ∪ dom (vertex m)).
  { by rewrite Hvert, dom_insert_L. }
  assert (Hin : ∀ x, x ∈ dom (vertex m) → x ∈ dom (vertex m')).
  { intros x Hx. rewrite Hdv. by apply elem_of_union_r. }
  assert (Hwin : w ∈ dom (vertex m')).
  { rewrite Hdv. by apply elem_of_union_l, elem_of_singleton. }
  exists m'. split; [done|]. split; [done|]. split; [done|].
  split_and!.
  - split_and!.
    + intros k. rewrite Hdv, Hmk.
      intros [->%elem_of_singleton|Hk']%elem_of_union; [lia|].
      apply Hk in Hk'. lia.
    + intros a b. rewrite Hhe. unfold he_split.
      repeat case_decide; try (by intros [? [=]]); destruct_and?; subst;
        try solve [intros _; split; auto].
      intros H'. apply Hi in H' as [??]. split; auto.
    + intros fk vs' x Hfk' Hx.
      assert (fk ∈ dom (face m)) as [vs Hvs]%elem_of_dom.
      { rewrite <- Hdom. by apply elem_of_dom. }
      destruct (Hsup fk vs Hvs) as (vs'' & Hfk'' & _ & Hsub).
      rewrite Hfk' in Hfk''. injection Hfk'' as <-.
      apply Hsub in Hx. apply elem_of_cons in Hx as [->|Hx]; [done|].
      apply Hin. by eapply Hf.
    + intros fk. rewrite Hdom, Hmf. apply Hfk.
  - done.
  - done.
  - intros fk vs Hvs. destruct (Hsup fk vs Hvs) as (vs' & ? & ? & _). eauto.
  - intros a [Ha [b Hb]]. split; [by apply Hin|].
    destruct (decide (a = u)) as [->|Hau].
    { exists w. rewrite Hhe. unfold he_split.
      rewrite decide_False by (intros [??]; congruence).
      rewrite decide_False by (intros [??]; congruence).
      rewrite decide_False by (intros [??]; congruence).
      rewrite decide_False by (intros [??]; congruence).
      rewrite decide_False by (intros [??]; congruence).
      by rewrite decide_True. }
    destruct (decide (a = v)) as [->|Hav].
    { exists w. rewrite Hhe. unfold he_split.
      rewrite decide_False by (intros [??]; congruence).
      rewrite decide_False by (intros [??]; congruence).
      by rewrite decide_True. }
    assert (a ≠ w) by (by intros ->).
    exists b. rewrite Hhe. unfold he_split.
    rewrite !decide_False by (intros [??]; congruence). done.
  - split; [done|]. exists u. rewrite Hhe. unfold he_split.
    rewrite decide_False by (intros [??]; congruence).
    by rewrite decide_True.
  - intros [x y] (Hxy & f1 & f2 & H1 & H2 & Hf1 & Hf2) [Ha1 Ha2]. simpl in *.
    destruct (Hi x y) as [Hx Hy]; [by rewrite H1|].
    assert (x ≠ w) by (by intros ->). assert (y ≠ w) by (by intros ->).
    split; [done|]. exists f1, f2. simpl. split_and!.
    + rewrite Hhe. unfold he_split.
      rewrite !decide_False by (intros [??]; congruence). done.
    + rewrite Hhe. unfold he_split.
      rewrite !decide_False by (intros [??]; congruence). done.
    + destruct f1 as [fk|]; simpl in *; [|done].
      destruct (face m !! fk) as [vs|] eqn:Hvs; simpl in *; [|by apply elem_of_nil in Hf1].
      destruct (Hsup fk vs Hvs) as (vs' & -> & Hsub & _). simpl. by apply Hsub.
    + destruct f2 as [fk|]; simpl in *; [|done].
      destruct (face m !! fk) as [vs|] eqn:Hvs; simpl in *; [|by apply elem_of_nil in Hf2].
      destruct (Hsup fk vs Hvs) as (vs' & -> & Hsub & _). simpl. by apply Hsub.
Qed.

Lemma elem_of_directed_pairs (m : Mesh) (a b : Z) :
  (a, b) ∈ directed_pairs m ↔ is_Some (he m a b).
Proof.
  unfold directed_pairs, he. rewrite list_elem_of_bind. split.
  - intros ([u row] & H1 & H2%elem_of_map_to_list).
    apply list_elem_of_bind in H1 as ([v f] & H3 & H4%elem_of_map_to_list).
    apply list_elem_of_singleton in H3. injection H3 as -> ->.
    rewrite H2. simpl. by rewrite H4.
  - destruct (halfedge m !! a) as [row|] eqn:Hrow; simpl; [|by intros [? [=]]].
    intros [f Hf]. exists (a, row). split; [|by apply elem_of_map_to_list].
    apply list_elem_of_bind. exists (b, f).
    split; [by apply list_elem_of_singleton|by apply elem_of_map_to_list].
Qed.

Lemma unique_edges_spec (l : list (Z * Z)) (seen : gset (Z * Z)) :
  (∀ e, e ∈ unique_edges l seen → e ∈ l ∧ e ∉ seen ∧ (e.2, e.1) ∉ seen) ∧
  all_apart (unique_edges l seen) ∧
  (∀ a b, (a, b) ∈ l →
          (a, b) ∈ seen ∨ (b, a) ∈ seen ∨
          (a, b) ∈ unique_edges l seen ∨ (b, a) ∈ unique_edges l seen).
Proof.
  revert seen. induction l as [|[u v] l IH]; intros seen; simpl.
  { split_and!; [by intros ? ?%elem_of_nil|done|by intros ?? ?%elem_of_nil]. }
  case_bool_decide as Hs.
  - destruct (IH seen) as (H1 & H2 & H3). split_and!.
    + intros e He. destruct (H1 e He) as (? & ? & ?).
      split_and!; [by apply elem_of_cons; right|done..].
    + done.
    + intros a b [[= -> ->]|Hab]%elem_of_cons; [|by apply H3].
      destruct Hs; auto.
  - destruct (IH ({[(u, v)]} ∪ {[(v, u)]} ∪ seen)) as (H1 & H2 & H3).
    assert (Hs1 : (u, v) ∉ seen) by tauto. assert (Hs2 : (v, u) ∉ seen) by tauto.
    split_and!.
    + intros e [->|He]%elem_of_cons.
      * split_and!; [by apply elem_of_cons; left|done..].
      * destruct (H1 e He) as (? & ? & ?).
        split_and!; [by apply elem_of_cons; right|set_solver..].
    + split; [|done]. apply Forall_forall. intros [x y] He.
      destruct (H1 _ He) as (_ & Hn1 & Hn2). simpl in *. split.
      * intros [= -> ->]. set_solver.
      * intros [= -> ->]. set_solver.
    + intros a b [[= -> ->]|Hab]%elem_of_cons.
      * right. right. left. by apply elem_of_cons; left.
      * destruct (H3 a b Hab) as [H|[H|[H|H]]].
        -- apply elem_of_union in H as [H|H]; [|by left].
           apply elem_of_union in H as [H|H]; apply elem_of_singleton in H;
             injection H as -> ->.
           ++ right. right. left. by apply elem_of_cons; left.
           ++ right. right. right. by apply elem_of_cons; left.
        -- apply elem_of_union in H as [H|H]; [|by right; left].
           apply elem_of_union in H as [H|H]; apply elem_of_singleton in H;
             injection H as -> ->.
           ++ right. right. right. by apply elem_of_cons; left.
           ++ right. right. left. by apply elem_of_cons; left.
        -- right. right. left. by apply elem_of_cons; right.
        -- right. right. right. by apply elem_of_cons; right.
Qed.

Lemma halfedges_spec (m : Mesh) :
  valid_mesh m →
  Forall (ready m) (halfedges m) ∧ all_apart (halfedges m) ∧
  (∀ a b, is_Some (he m a b) → (a, b) ∈ halfedges m ∨ (b, a) ∈ halfedges m).
Proof.
  intros Hvalid. unfold halfedges, edges.
  destruct (unique_edges_spec (directed_pairs m) ∅) as (H1 & H2 & H3).
  split_and!.
  - apply Forall_forall. intros [u v] He.
    apply valid_mesh_ready; [done|].
    apply elem_of_directed_pairs. by apply H1.
  - done.
  - intros a b Hab%elem_of_directed_pairs.
    destruct (H3 a b Hab) as [H|[H|[H|H]]]; [set_solver..|by left|by right].
Qed.

(** ** The edge loop of Catmull-Clark (and of the quad scheme) *)

Lemma dict_append_spec (key w : Z) (d : gmap Z (list Z)) :
  key ∈ dom d →
  ∃ l, d !! key = Some l ∧ dict_append key w d = inr (<[key := l ++ [w]]> d).
Proof.
  intros [l Hl]%elem_of_dom. exists l. split; [done|].
  unfold dict_append, py_getitem. by rewrite Hl.
Qed.

Lemma cc_edge_step_spec (m0 : Mesh) (bkeys : gset Z) (s : cc_edges) (u v : Z) :
  edge_state m0 bkeys s → ready (cc_subd s) (u, v) →
  ∃ s', cc_edge_step bkeys s (u, v) = inr s' ∧
        edge_state m0 bkeys s' ∧
        split_edge u v true (cc_subd s) = inr (cc_subd s', Some (max_int_key (cc_subd s) + 1)) ∧
        size (vertex (cc_subd s')) = S (size (vertex (cc_subd s))) ∧
        (∀ e, ready (cc_subd s) e → apart (u, v) e → ready (cc_subd s') e) ∧
        (∀ key l, cc_bkey_edgepoints s !! key = Some l →
                  ∃ l', cc_bkey_edgepoints s' !! key = Some l' ∧ (l ≠ [] → l' ≠ [])) ∧
        (u ∈ bkeys → v ∈ bkeys →
         ∃ lu lv, cc_bkey_edgepoints s' !! u = Some lu ∧ lu ≠ [] ∧
                  cc_bkey_edgepoints s' !! v = Some lv ∧ lv ≠ []).
Proof.
  intros (Ht & Hr0 & Hmf & Hfd & Hfs & Hbd & Hep & Hbp) Hready.
  destruct (split_step_inv (cc_subd s) u v Ht Hready)
    as (m' & Hs & Hw & Hdv & Ht' & Hmf' & Hfd' & Hfs' & Hrows & Hroww & Hrd).
  set (w := max_int_key (cc_subd s) + 1) in *.
  assert (Hsize : size (vertex m') = S (size (vertex (cc_subd s)))).
  { rewrite <- !size_dom, Hdv.
    rewrite size_union by (apply disjoint_singleton_l; done).
    by rewrite size_singleton. }
  assert (Hin : ∀ x, x ∈ dom (vertex (cc_subd s)) → x ∈ dom (vertex m')).
  { intros x Hx. rewrite Hdv. by apply elem_of_union_r. }
  assert (Hfs2 : ∀ fk vs, face m0 !! fk = Some vs →
                          ∃ vs', face m' !! fk = Some vs' ∧ vs ⊆ vs').
  { intros fk vs Hfk. destruct (Hfs fk vs Hfk) as (vs1 & H1 & Hsub1).
    destruct (Hfs' fk vs1 H1) as (vs2 & H2 & Hsub2).
    exists vs2. split; [done|]. by etrans. }
  unfold cc_edge_step. rewrite Hs. simpl.
  destruct (bool_decide (u ∈ bkeys) && bool_decide (v ∈ bkeys)) eqn:Hb.
  - apply andb_true_iff in Hb as [Hub%bool_decide_eq_true Hvb%bool_decide_eq_true].
    destruct (dict_append_spec u w (cc_bkey_edgepoints s)) as (lu & Hlu & ->).
    { by rewrite Hbd. }
    simpl.
    destruct (dict_append_spec v w (<[u := lu ++ [w]]> (cc_bkey_edgepoints s)))
      as (lv & Hlv & ->).
    { rewrite dom_insert_L, Hbd. by apply elem_of_union_r. }
    simpl. eexists. split; [done|]. simpl.
    assert (Hlook : ∀ key l, <[v := lv ++ [w]]> (<[u := lu ++ [w]]> (cc_bkey_edgepoints s))
                               !! key = Some l →
                             l = lv ++ [w] ∨ l = lu ++ [w] ∨
                             cc_bkey_edgepoints s !! key = Some l).
    { intros key l. destruct (decide (key = v)) as [->|Hkv].
      { rewrite lookup_insert_eq. intros [= <-]. by left. }
      rewrite lookup_insert_ne by done.
      destruct (decide (key = u)) as [->|Hku].
      { rewrite lookup_insert_eq. intros [= <-]. right. by left. }
      rewrite lookup_insert_ne by done. auto. }
    assert (Hlv' : lv = lu ++ [w] ∨ cc_bkey_edgepoints s !! v = Some lv).
    { destruct (decide (v = u)) as [->|Hvu].
      - rewrite lookup_insert_eq in Hlv. injection Hlv as <-. by left.
      - rewrite lookup_insert_ne in Hlv by done. by right. }
    split_and!.
    + unfold edge_state. simpl. split_and!; try done.
      * intros a Ha. by apply Hrows, Hr0.
      * congruence.
      * congruence.
      * rewrite !dom_insert_L, Hbd.
        apply set_eq. intros x. rewrite !elem_of_union, !elem_of_singleton.
        naive_solver.
      * intros x Hx. by apply Hrows, Hep.
      * intros key l x Hl Hx.
        assert (∀ l0, cc_bkey_edgepoints s !! u = Some l0 ∨ cc_bkey_edgepoints s !! v = Some l0 →
                      x ∈ l0 ++ [w] → x ∈ dom (vertex m')) as Happ.
        { intros l0 Hl0 [Hx0|Hx0%list_elem_of_singleton]%elem_of_app.
          - apply Hin. destruct Hl0; by eapply Hbp.
          - subst x. rewrite Hdv. by apply elem_of_union_l, elem_of_singleton. }
        destruct (Hlook key l Hl) as [->|[->|Hl0]].
        -- destruct Hlv' as [->|Hlv'].
           ++ apply elem_of_app in Hx as [Hx|Hx%list_elem_of_singleton].
              ** by apply (Happ lu); [left|].
              ** subst x. rewrite Hdv. by apply elem_of_union_l, elem_of_singleton.
           ++ by apply (Happ lv); [right|].
        -- by apply (Happ lu); [left|].
        -- apply Hin. by eapply Hbp.
    + done.
    + done.
    + done.
    + intros key l Hl. destruct (decide (key = v)) as [->|Hkv].
      { rewrite lookup_insert_eq. eexists. split; [done|].
        intros _. by destruct lv. }
      rewrite lookup_insert_ne by done.
      destruct (decide (key = u)) as [->|Hku].
      { rewrite lookup_insert_eq. eexists. split; [done|].
        intros _. by destruct lu. }
      rewrite lookup_insert_ne by done. eauto.
    + intros _ _. destruct (decide (u = v)) as [->|Huv].
      * rewrite lookup_insert_eq. exists (lv ++ [w]), (lv ++ [w]).
        split_and!; try done; by destruct lv.
      * rewrite lookup_insert_ne by done. rewrite !lookup_insert_eq.
        exists (lu ++ [w]), (lv ++ [w]).
        split_and!; try done; [by destruct lu|by destruct lv].
  - eexists. split; [done|]. simpl. split_and!.
    + unfold edge_state. simpl. split_and!; try done.
      * intros a Ha. by apply Hrows, Hr0.
      * congruence.
      * congruence.
      * intros x [Hx|Hx%list_elem_of_singleton]%elem_of_app; [by apply Hrows, Hep|].
        by subst x.
      * intros key l x Hl Hx. apply Hin. by eapply Hbp.
    + done.
    + done.
    + done.
    + intros key l Hl. eauto.
    + intros Hub Hvb. exfalso.
      apply andb_false_iff in Hb as [Hb|Hb]; apply bool_decide_eq_false in Hb; done.
Qed.

Lemma cc_edge_loop (m0 : Mesh) (bkeys : gset Z) (es : list (Z * Z)) (s : cc_edges) :
  edge_state m0 bkeys s → Forall (ready (cc_subd s)) es → all_apart es →
  ∃ s', py_for es (cc_edge_step bkeys) s = inr s' ∧
        edge_state m0 bkeys s' ∧
        py_for es quad_edge_step (cc_subd s) = inr (cc_subd s') ∧
        size (vertex (cc_subd s')) = (size (vertex (cc_subd s)) + length es)%nat ∧
        (∀ key l, cc_bkey_edgepoints s !! key = Some l →
                  ∃ l', cc_bkey_edgepoints s' !! key = Some l' ∧ (l ≠ [] → l' ≠ [])) ∧
        (∀ u v, (u, v) ∈ es → u ∈ bkeys → v ∈ bkeys →
                ∃ lu lv, cc_bkey_edgepoints s' !! u = Some lu ∧ lu ≠ [] ∧
                         cc_bkey_edgepoints s' !! v = Some lv ∧ lv ≠ []).
Proof.
  revert s. induction es as [|[u v] es IH]; intros s Hs Hready Hapart.
  { exists s.
    split_and!; [done|done|done|simpl; lia|eauto|by intros ?? ?%elem_of_nil]. }
  apply Forall_cons in Hready as [Hr1 Hr2]. destruct Hapart as [Ha1 Ha2].
  destruct (cc_edge_step_spec m0 bkeys s u v Hs Hr1)
    as (s1 & Hstep & Hs1 & Hsplit & Hsize & Hrd & Hmono & Hnew).
  destruct (IH s1 Hs1) as (s' & Hloop & Hs' & Hq & Hsize' & Hmono' & Hnew').
  { apply Forall_forall. intros e He. apply Hrd.
    - by apply (proj1 (Forall_forall _ _) Hr2).
    - by apply (proj1 (Forall_forall _ _) Ha1). }
  { done. }
  exists s'. split_and!.
  - cbn [py_for]. rewrite Hstep. done.
  - done.
  - cbn [py_for quad_edge_step]. rewrite Hsplit. done.
  - rewrite Hsize', Hsize. simpl. lia.
  - intros key l Hl. destruct (Hmono key l Hl) as (l1 & Hl1 & Hne1).
    destruct (Hmono' key l1 Hl1) as (l2 & Hl2 & Hne2). exists l2. split; [done|]. auto.
  - intros a b [[= -> ->]|Hab]%elem_of_cons Hab1 Hab2; [|by apply Hnew'].
    destruct (Hnew Hab1 Hab2) as (lu & lv & Hlu & Hnu & Hlv & Hnv).
    destruct (Hmono' u lu Hlu) as (lu' & ? & ?).
    destruct (Hmono' v lv Hlv) as (lv' & ? & ?).
    exists lu', lv'. split_and!; auto.
Qed.

(** ** Adding vertices and faces *)

Lemma add_vertex_spec (c : xyz) (m : Mesh) :
  topo_inv m →
  let m' := (add_vertex c m).1 in
  let key := max_int_key m + 1 in
  (add_vertex c m).2 = key ∧
  key ∉ dom (vertex m) ∧
  vertex m' = <[key := c]> (vertex m) ∧
  face m' = face m ∧ max_int_fkey m' = max_int_fkey m ∧
  topo_inv m' ∧
  (∀ a, has_row m a → has_row m' a).
Proof.
  intros (Hk & Hi & Hf & Hfk). cbv zeta.
  assert (Hfresh : max_int_key m + 1 ∉ dom (vertex m)).
  { intros H%Hk. lia. }
  assert (Hv : vertex (add_vertex c m).1 = <[max_int_key m + 1 := c]> (vertex m)) by done.
  assert (Hin : ∀ x, x ∈ dom (vertex m) → x ∈ dom (vertex (add_vertex c m).1)).
  { intros x Hx. rewrite Hv, dom_insert_L. by apply elem_of_union_r. }
  split_and!; try done.
  - unfold topo_inv. split_and!.
    + intros k. rewrite Hv, dom_insert_L. simpl.
      intros [->%elem_of_singleton|H%Hk]%elem_of_union; lia.
    + intros a b. rewrite he_add_vertex. intros [??]%Hi. auto.
    + intros fk vs x Hvs Hx. apply Hin. by eapply Hf.
    + done.
  - intros a [Ha [b Hb]]. split; [by apply Hin|].
    exists b. by rewrite he_add_vertex.
Qed.

Lemma add_face_step_spec (fkey : Z) (m : Mesh) (u v : Z) :
  let m' := add_face_step fkey m (u, v) in
  vertex m' = vertex m ∧ face m' = face m ∧
  max_int_key m' = max_int_key m ∧ max_int_fkey m' = max_int_fkey m ∧
  (∀ a b, is_Some (he m a b) → is_Some (he m' a b)) ∧
  (∀ a b, is_Some (he m' a b) →
          is_Some (he m a b) ∨ (a = u ∧ b = v) ∨ (a = v ∧ b = u)).
Proof.
  simpl. destruct (halfedge_get (halfedge_set u v (Some fkey) m) v u) eqn:Hg.
  - split_and!; try done.
    + intros a b Hab. rewrite !he_halfedge_set. by repeat case_decide.
    + intros a b. rewrite !he_halfedge_set. repeat case_decide; auto.
  - split_and!; try done.
    + intros a b Hab. rewrite !he_halfedge_set. by repeat case_decide.
    + intros a b. rewrite !he_halfedge_set. repeat case_decide; auto.
Qed.

Lemma add_face_steps_spec (fkey : Z) (ps : list (Z * Z)) (m : Mesh) :
  let m' := foldl (add_face_step fkey) m ps in
  vertex m' = vertex m ∧ face m' = face m ∧
  max_int_key m' = max_int_key m ∧ max_int_fkey m' = max_int_fkey m ∧
  (∀ a b, is_Some (he m a b) → is_Some (he m' a b)) ∧
  (∀ a b, is_Some (he m' a b) →
          is_Some (he m a b) ∨ (a, b) ∈ ps ∨ (b, a) ∈ ps).
Proof.
  revert m. induction ps as [|[u v] ps IH]; intros m.
  { simpl. split_and!; auto. }
  cbn [foldl].
  destruct (add_face_step_spec fkey m u v) as (H1 & H2 & H3 & H4 & H5 & H6).
  destruct (IH (add_face_step fkey m (u, v))) as (G1 & G2 & G3 & G4 & G5 & G6).
  cbv zeta in *. split_and!; try congruence.
  - auto.
  - intros a b Hab. destruct (G6 a b Hab) as [H|[H|H]].
    + destruct (H6 a b H) as [?|[[-> ->]|[-> ->]]]; [by left|..].
      * right. left. by apply elem_of_cons; left.
      * right. right. by apply elem_of_cons; left.
    + right. left. by apply elem_of_cons; right.
    + right. right. by apply elem_of_cons; right.
Qed.

Lemma add_face_unfold (vs : list Z) (m : Mesh) :
  (add_face vs m).1 =
  foldl (add_face_step (max_int_fkey m + 1))
    (mkMesh (vertex m) (<[max_int_fkey m + 1 := vs]> (face m)) (halfedge m)
       (max_int_key m) (max_int_fkey m + 1))
    (cycle_pairs vs).
Proof.
  reflexivity.
Qed.

Lemma elem_of_cycle_pairs (vs : list Z) (a b : Z) :
  (a, b) ∈ cycle_pairs vs → a ∈ vs ∧ b ∈ vs.
Proof.
  unfold cycle_pairs. intros H. split.
  - by apply elem_of_zip_l in H.
  - apply elem_of_zip_r in H. destruct vs as [|x vs]; [done|]. simpl in H.
    apply elem_of_app in H as [H|H%list_elem_of_singleton].
    + by apply elem_of_cons; right.
    + subst. by apply elem_of_cons; left.
Qed.

Lemma add_face_spec (vs : list Z) (m : Mesh) :
  topo_inv m → (∀ x, x ∈ vs → x ∈ dom (vertex m)) →
  let m' := (add_face vs m).1 in
  let fkey := max_int_fkey m + 1 in
  fkey ∉ dom (face m) ∧
  vertex m' = vertex m ∧
  face m' = <[fkey := vs]> (face m) ∧
  max_int_fkey m' = fkey ∧
  topo_inv m' ∧
  (∀ a, has_row m a → has_row m' a).
Proof.
  intros (Hk & Hi & Hf & Hfk) Hvs. cbv zeta. rewrite add_face_unfold.
  set (m1 := mkMesh _ _ _ _ _).
  destruct (add_face_steps_spec (max_int_fkey m + 1) (cycle_pairs vs) m1)
    as (H1 & H2 & H3 & H4 & H5 & H6).
  cbv zeta in *. set (m' := foldl _ _ _) in *.
  assert (Hfresh : max_int_fkey m + 1 ∉ dom (face m)).
  { intros H%Hfk. lia. }
  split_and!; try done.
  - unfold topo_inv. rewrite H1, H2, H3, H4. simpl. split_and!.
    + done.
    + intros a b Hab. destruct (H6 a b Hab) as [H|[H|H]].
      * by apply Hi.
      * apply elem_of_cycle_pairs in H as [??]. auto.
      * apply elem_of_cycle_pairs in H as [??]. auto.
    + intros fk vs' x. destruct (decide (fk = max_int_fkey m + 1)) as [->|Hne].
      * rewrite lookup_insert_eq. intros [= <-]. apply Hvs.
      * rewrite lookup_insert_ne by done. apply Hf.
    + intros fk. rewrite dom_insert_L.
      intros [->%elem_of_singleton|H%Hfk]%elem_of_union; lia.
  - intros a [Ha [b Hb]]. split; [by rewrite H1|]. exists b. by apply H5.
Qed.

(** ** The ancestor and descendant dictionaries *)

Lemma descendant_of_spec (ps : list (Z * Z)) (k : Z) :
  k ∈ ps.*1 → ∃ j, descendant_of ps !! k = Some j ∧ (k, j) ∈ ps.
Proof.
  unfold descendant_of.
  assert (∀ d : gmap Z Z,
            (∀ j, foldl (λ d '(i, j), <[i := j]> d) d ps !! k = Some j →
                  (k, j) ∈ ps ∨ d !! k = Some j) ∧
            (k ∈ ps.*1 ∨ is_Some (d !! k) →
             is_Some (foldl (λ d '(i, j), <[i := j]> d) d ps !! k))) as H.
  { induction ps as [|[i j0] ps IH]; intros d; simpl.
    { split; [auto|]. intros [?%elem_of_nil|?]; done. }
    destruct (IH (<[i := j0]> d)) as [IH1 IH2]. split.
    - intros j Hj. destruct (IH1 j Hj) as [H|H].
      + left. by apply elem_of_cons; right.
      + destruct (decide (i = k)) as [->|Hne].
        * rewrite lookup_insert_eq in H. injection H as ->.
          left. by apply elem_of_cons; left.
        * rewrite lookup_insert_ne in H by done. by right.
    - intros Hk. apply IH2. destruct (decide (i = k)) as [->|Hne].
      + right. by rewrite lookup_insert_eq.
      + rewrite lookup_insert_ne by done.
        destruct Hk as [Hk|Hk]; [|by right].
        apply elem_of_cons in Hk as [Hk|Hk]; [done|by left]. }
  intros Hk. destruct (H ∅) as [H1 H2].
  destruct H2 as [j Hj]; [by left|]. exists j. split; [done|].
  destruct (H1 j Hj) as [?|?]; [done|by rewrite lookup_empty in *].
Qed.

Lemma ancestor_of_spec (ps : list (Z * Z)) (k : Z) :
  k ∈ ps.*2 → ∃ i, ancestor_of ps !! k = Some i ∧ (i, k) ∈ ps.
Proof.
  unfold ancestor_of.
  assert (∀ d : gmap Z Z,
            (∀ i, foldl (λ d '(i, j), <[j := i]> d) d ps !! k = Some i →
                  (i, k) ∈ ps ∨ d !! k = Some i) ∧
            (k ∈ ps.*2 ∨ is_Some (d !! k) →
             is_Some (foldl (λ d '(i, j), <[j := i]> d) d ps !! k))) as H.
  { induction ps as [|[i0 j] ps IH]; intros d; simpl.
    { split; [auto|]. intros [?%elem_of_nil|?]; done. }
    destruct (IH (<[j := i0]> d)) as [IH1 IH2]. split.
    - intros i Hi. destruct (IH1 i Hi) as [H|H].
      + left. by apply elem_of_cons; right.
      + destruct (decide (j = k)) as [->|Hne].
        * rewrite lookup_insert_eq in H. injection H as ->.
          left. by apply elem_of_cons; left.
        * rewrite lookup_insert_ne in H by done. by right.
    - intros Hk. apply IH2. destruct (decide (j = k)) as [->|Hne].
      + right. by rewrite lookup_insert_eq.
      + rewrite lookup_insert_ne by done.
        destruct Hk as [Hk|Hk]; [|by right].
        apply elem_of_cons in Hk as [Hk|Hk]; [done|by left]. }
  intros Hk. destruct (H ∅) as [H1 H2].
  destruct H2 as [i Hi]; [by left|]. exists i. split; [done|].
  destruct (H1 i Hi) as [?|?]; [done|by rewrite lookup_empty in *].
Qed.

Lemma cycle_pairs_fst (vs : list Z) : (cycle_pairs vs).*1 = vs.
Proof.
  unfold cycle_pairs. apply fst_zip.
  destruct vs as [|x vs]; simpl; [done|]. rewrite length_app. simpl. lia.
Qed.

Lemma cycle_pairs_snd (vs : list Z) (k : Z) : k ∈ vs → k ∈ (cycle_pairs vs).*2.
Proof.
  unfold cycle_pairs. intros Hk. rewrite snd_zip.
  - destruct vs as [|x vs]; [done|]. simpl.
    apply elem_of_cons in Hk as [->|Hk]; apply elem_of_app; [right|by left].
    by apply list_elem_of_singleton.
  - destruct vs as [|x vs]; simpl; [done|]. rewrite length_app. simpl. lia.
Qed.

(** ** The face loop *)

Lemma py_map_ok {A B} (f : A → py B) (xs : list A) :
  (∀ x, x ∈ xs → ∃ y, f x = inr y) →
  ∃ ys, py_map f xs = inr ys ∧ length ys = length xs.
Proof.
  induction xs as [|x xs IH]; intros H; simpl.
  { by exists []. }
  destruct (H x) as [y ->]; [by apply elem_of_cons; left|].
  destruct IH as (ys & -> & Hlen).
  { intros x' Hx'. apply H. by apply elem_of_cons; right. }
  simpl. exists (y :: ys). split; [done|]. simpl. by rewrite Hlen.
Qed.

Lemma centroid_points_ok (ps : list xyz) :
  ps ≠ [] → ∃ c, centroid_points ps = inr c.
Proof. destruct ps; [done|]. intros _. by eexists. Qed.

Lemma py_getitem_ok {A} (d : gmap Z A) (k : Z) :
  k ∈ dom d → ∃ a, py_getitem d k = inr a ∧ d !! k = Some a.
Proof.
  intros [a Ha]%elem_of_dom. exists a. unfold py_getitem. by rewrite Ha.
Qed.

Lemma face_centroid_ok (m : Mesh) (fkey : Z) (vs : list Z) :
  face m !! fkey = Some vs → vs ≠ [] → (∀ x, x ∈ vs → x ∈ dom (vertex m)) →
  ∃ c, face_centroid m fkey = inr c.
Proof.
  intros Hf Hne Hin. unfold face_centroid, face_vertices, py_getitem at 1.
  rewrite Hf. simpl.
  destruct (py_map_ok (vertex_coordinates m) vs) as (ps & -> & Hlen).
  { intros x Hx. destruct (py_getitem_ok (vertex m) x (Hin x Hx)) as (a & ? & _).
    by exists a. }
  simpl. apply centroid_points_ok. intros ->. by destruct vs.
Qed.

Lemma quad_corners_spec (anc desc : gmap Z Z) (c : Z) (vs0 : list Z) (subd : Mesh) :
  topo_inv subd → c ∈ dom (vertex subd) →
  (∀ key, key ∈ vs0 →
          key ∈ dom (vertex subd) ∧
          ∃ a d, anc !! key = Some a ∧ desc !! key = Some d ∧
                 a ∈ dom (vertex subd) ∧ d ∈ dom (vertex subd)) →
  ∃ subd',
    py_for vs0
      (λ subd key,
         a <~ py_getitem anc key ;
         d <~ py_getitem desc key ;
         inr (add_face [a; key; d; c] subd).1) subd = inr subd' ∧
    topo_inv subd' ∧ vertex subd' = vertex subd ∧
    max_int_fkey subd ≤ max_int_fkey subd' ∧
    size (face subd') = (size (face subd) + length vs0)%nat ∧
    (∀ f, f ≤ max_int_fkey subd → face subd' !! f = face subd !! f) ∧
    (∀ f vs, face subd' !! f = Some vs → max_int_fkey subd < f → length vs = 4%nat) ∧
    (∀ a, has_row subd a → has_row subd' a).
Proof.
  revert subd. induction vs0 as [|key vs0 IH]; intros subd Ht Hc Hkeys.
  { exists subd. cbn [py_for].
    split_and!; [done|done|done|lia|simpl; lia|done| |done].
    intros f vs Hf Hlt. destruct Ht as (_ & _ & _ & Hfk).
    apply elem_of_dom_2, Hfk in Hf. lia. }
  destruct (Hkeys key) as (Hkey & a & d & Ha & Hd & Hain & Hdin);
    [by apply elem_of_cons; left|].
  cbn [py_for]. unfold py_getitem at 1 2. rewrite Ha, Hd. cbn [py_bind].
  destruct (add_face_spec [a; key; d; c] subd Ht)
    as (Hfresh & Hv & Hf & Hmf & Ht1 & Hrows).
  { intros x Hx. repeat (apply elem_of_cons in Hx as [->|Hx]; [done|]).
    by apply elem_of_nil in Hx. }
  set (subd1 := (add_face [a; key; d; c] subd).1) in *.
  destruct (IH subd1 Ht1) as (subd' & -> & Ht' & Hv' & Hmf' & Hsz' & Hold' & Hnew' & Hrows').
  { by rewrite Hv. }
  { intros k Hk. rewrite Hv. apply Hkeys. by apply elem_of_cons; right. }
  exists subd'. split_and!; try done.
  - congruence.
  - lia.
  - rewrite Hsz', Hf, map_size_insert_None by (by apply not_elem_of_dom).
    simpl. lia.
  - intros f Hle. rewrite Hold' by lia. rewrite Hf.
    apply lookup_insert_ne. lia.
  - intros f vs Hfvs Hlt.
    destruct (decide (f ≤ max_int_fkey subd1)) as [Hle|Hgt].
    + rewrite Hold' in Hfvs by done. rewrite Hf in Hfvs.
      assert (f = max_int_fkey subd + 1) as -> by lia.
      rewrite lookup_insert_eq in Hfvs. by injection Hfvs as <-.
    + eapply Hnew'; [done|lia].
  - auto.
Qed.

Lemma quad_face_spec (m0 subd : Mesh) (fkey : Z) (vs0 vs' : list Z) :
  valid_mesh m0 → topo_inv subd → fkey ≤ max_int_fkey subd →
  face m0 !! fkey = Some vs0 → face subd !! fkey = Some vs' → vs0 ⊆ vs' →
  ∃ subd', quad_face m0 subd fkey = inr subd' ∧ topo_inv subd' ∧
           size (vertex subd') = S (size (vertex subd)) ∧
           max_int_fkey subd ≤ max_int_fkey subd' ∧
           (size (face subd') + 1 = size (face subd) + length vs0)%nat ∧
           face subd' !! fkey = None ∧
           (∀ f, f ≠ fkey → f ≤ max_int_fkey subd → face subd' !! f = face subd !! f) ∧
           (∀ f vs, face subd' !! f = Some vs → max_int_fkey subd < f →
                    length vs = 4%nat) ∧
           (∀ a, has_row subd a → has_row subd' a) ∧
           dom (vertex subd) ⊆ dom (vertex subd').
Proof.
  intros Hvalid Ht Hle Hf0 Hf' Hsub.
  destruct (valid_mesh_he m0 Hvalid) as (_ & _ & Hfaces).
  destruct (Hfaces fkey vs0 Hf0) as (_ & Hne & Hin0).
  destruct (face_centroid_ok m0 fkey vs0 Hf0 Hne Hin0) as [cxyz Hcen].
  unfold quad_face, face_halfedges, face_vertices, py_getitem at 1.
  rewrite Hf'. cbn [py_bind]. rewrite Hcen. cbn [py_bind].
  destruct (add_vertex_spec cxyz subd Ht) as (Hkey & Hfresh & Hv1 & Hf1 & Hmf1 & Ht1 & Hrows1).
  destruct (add_vertex cxyz subd) as [subd1 c] eqn:Hadd. cbn [fst snd] in *. subst c.
  unfold py_getitem at 1. rewrite Hf0. cbn [py_bind].
  assert (Hin1 : ∀ x, x ∈ dom (vertex subd) → x ∈ dom (vertex subd1)).
  { intros x Hx. rewrite Hv1, dom_insert_L. by apply elem_of_union_r. }
  assert (Hvs' : ∀ x, x ∈ vs' → x ∈ dom (vertex subd)).
  { intros x Hx. destruct Ht as (_ & _ & Hff & _). by eapply Hff. }
  destruct (quad_corners_spec (ancestor_of (cycle_pairs vs'))
              (descendant_of (cycle_pairs vs')) (max_int_key subd + 1) vs0 subd1 Ht1)
    as (subd2 & -> & Ht2 & Hv2 & Hmf2 & Hsz2 & Hold2 & Hnew2 & Hrows2).
  { rewrite Hv1, dom_insert_L. by apply elem_of_union_l, elem_of_singleton. }
  { intros key Hkey%Hsub. split; [by apply Hin1, Hvs'|].
    destruct (ancestor_of_spec (cycle_pairs vs') key) as (a & Ha & Hap).
    { by apply cycle_pairs_snd. }
    destruct (descendant_of_spec (cycle_pairs vs') key) as (d & Hd & Hdp).
    { by rewrite cycle_pairs_fst. }
    exists a, d. split_and!; [done|done|..].
    - apply Hin1, Hvs'. by apply elem_of_cycle_pairs in Hap as [??].
    - apply Hin1, Hvs'. by apply elem_of_cycle_pairs in Hdp as [??]. }
  cbn [py_bind].
  assert (Hfk2 : face subd2 !! fkey = Some vs').
  { rewrite Hold2 by lia. by rewrite Hf1. }
  unfold del_face. rewrite Hfk2.
  eexists. split; [done|]. simpl.
  split_and!.
  - destruct Ht2 as (H1 & H2 & H3 & H4). unfold topo_inv. simpl. split_and!; try done.
    + intros fk vs x Hfk Hx. apply lookup_delete_Some in Hfk as [_ Hfk]. by eapply H3.
    + intros fk Hfk. apply H4. rewrite dom_delete_L in Hfk. set_solver.
  - rewrite Hv2, Hv1. apply map_size_insert_None. by apply not_elem_of_dom.
  - lia.
  - rewrite map_size_delete_Some by (by eexists). rewrite Hsz2, Hf1.
    assert (size (face subd) ≠ 0%nat).
    { apply map_size_non_empty_iff. intros H. by rewrite H, lookup_empty in Hf'. }
    lia.
  - apply lookup_delete_eq.
  - intros f Hfne Hfle. rewrite lookup_delete_ne by done.
    rewrite Hold2 by lia. by rewrite Hf1.
  - intros f vs Hfvs Hlt. apply lookup_delete_Some in Hfvs as [_ Hfvs].
    eapply Hnew2; [done|lia].
  - intros a Ha. destruct (Hrows2 a (Hrows1 a Ha)) as [H1 H2]. split; done.
  - intros x Hx. rewrite Hv2. by apply Hin1.
Qed.

Lemma quad_face_loop (m0 : Mesh) (rest : list Z) (subd : Mesh) :
  valid_mesh m0 → NoDup rest → topo_inv subd →
  max_int_fkey m0 ≤ max_int_fkey subd →
  (∀ f, f ∈ rest → ∃ vs0 vs', face m0 !! f = Some vs0 ∧
                               face subd !! f = Some vs' ∧ vs0 ⊆ vs') →
  (∀ f vs, face subd !! f = Some vs →
           f ∈ rest ∨ (max_int_fkey m0 < f ∧ length vs = 4%nat)) →
  ∃ subd', py_for rest (quad_face m0) subd = inr subd' ∧ topo_inv subd' ∧
           size (vertex subd') = (size (vertex subd) + length rest)%nat ∧
           (size (face subd') + length rest = size (face subd) + deg_sum m0 rest)%nat ∧
           (∀ f vs, face subd' !! f = Some vs → length vs = 4%nat) ∧
           (∀ a, has_row subd a → has_row subd' a) ∧
           dom (vertex subd) ⊆ dom (vertex subd').
Proof.
  intros Hvalid. revert subd.
  induction rest as [|fkey rest IH]; intros subd Hnd Ht Hmax Hpre Hquads.
  { exists subd. cbn [py_for].
    split_and!; [done|done|simpl; lia|unfold deg_sum; simpl; lia| |done|done].
    intros f vs Hf. destruct (Hquads f vs Hf) as [?%elem_of_nil|[_ ?]]; done. }
  apply NoDup_cons in Hnd as [Hnotin Hnd].
  destruct (Hpre fkey) as (vs0 & vs' & Hf0 & Hf' & Hsub); [by apply elem_of_cons; left|].
  destruct (valid_mesh_he m0 Hvalid) as (_ & _ & Hfaces).
  assert (Hbound : ∀ f, f ∈ fkey :: rest → f ≤ max_int_fkey m0).
  { intros f Hf. destruct (Hpre f Hf) as (v0 & _ & Hv0 & _). by eapply Hfaces. }
  destruct (quad_face_spec m0 subd fkey vs0 vs' Hvalid Ht)
    as (subd1 & Hstep & Ht1 & Hsz1 & Hmf1 & Hfsz1 & Hgone & Hold1 & Hnew1 & Hrows1 & Hdom1);
    [|done..|].
  { assert (fkey ≤ max_int_fkey m0) by (apply Hbound; by apply elem_of_cons; left). lia. }
  destruct (IH subd1 Hnd Ht1) as (subd' & Hloop & Ht' & Hsz' & Hfsz' & Hq' & Hrows' & Hdom').
  { lia. }
  { intros f Hf. destruct (Hpre f) as (v0 & v' & H0 & H' & Hs); [by apply elem_of_cons; right|].
    exists v0, v'. split_and!; [done| |done].
    rewrite Hold1; [done|by intros ->|].
    assert (f ≤ max_int_fkey m0) by (apply Hbound; by apply elem_of_cons; right). lia. }
  { intros f vs Hf. destruct (decide (f = fkey)) as [->|Hne]; [congruence|].
    destruct (decide (f ≤ max_int_fkey subd)) as [Hle|Hgt].
    - rewrite Hold1 in Hf by done. destruct (Hquads f vs Hf) as [Hin|?]; [|by right].
      apply elem_of_cons in Hin as [?|?]; [done|by left].
    - right. split; [lia|]. eapply Hnew1; [done|lia]. }
  exists subd'. split_and!.
  - cbn [py_for]. rewrite Hstep. done.
  - done.
  - rewrite Hsz', Hsz1. simpl. lia.
  - unfold deg_sum in *. cbn [fmap list_fmap sum_list length]. rewrite Hf0. simpl.
    simpl in Hfsz'. lia.
  - done.
  - auto.
  - by etrans.
Qed.

Lemma deg_sum_faces (m0 : Mesh) : Z.of_nat (deg_sum m0 (faces m0)) = face_degree_sum m0.
Proof.
  unfold deg_sum, face_degree_sum, faces. f_equal. f_equal.
  assert (∀ l : list (Z * list Z),
            (∀ f vs, (f, vs) ∈ l → face m0 !! f = Some vs) →
            (λ f, length (default [] (face m0 !! f))) <$> l.*1 = length <$> l.*2) as H.
  { induction l as [|[f vs] l IH]; intros Hl; simpl; [done|].
    rewrite (Hl f vs) by (by apply elem_of_cons; left). simpl. f_equal.
    apply IH. intros f' vs' H'. apply Hl. by apply elem_of_cons; right. }
  apply H. intros f vs. apply elem_of_map_to_list.
Qed.

(** ** The topology pass *)

Lemma edge_state_start (m0 : Mesh) (bkeys : gset Z) :
  valid_mesh m0 → edge_state m0 bkeys (cc_start m0 bkeys).
Proof.
  intros Hvalid.
  unfold edge_state, cc_start. simpl. split_and!; try done.
  - by apply valid_mesh_topo.
  - intros fk vs Hfk. by exists vs.
  - apply dom_gset_to_gmap.
  - by intros w ?%elem_of_nil.
  - intros key l w [_ <-]%lookup_gset_to_gmap_Some ?%elem_of_nil. done.
Qed.

Lemma elem_of_faces (m : Mesh) (f : Z) : f ∈ faces m ↔ f ∈ dom (face m).
Proof.
  unfold faces. rewrite list_elem_of_fmap, elem_of_dom. split.
  - intros ([f' vs] & -> & H%elem_of_map_to_list). by exists vs.
  - intros [vs H]. exists (f, vs). split; [done|]. by apply elem_of_map_to_list.
Qed.

Lemma topology_pass (m0 : Mesh) (bkeys : gset Z) :
  valid_mesh m0 →
  ∃ s subd,
    py_for (halfedges m0) (cc_edge_step bkeys) (cc_start m0 bkeys) = inr s ∧
    py_for (halfedges m0) quad_edge_step m0 = inr (cc_subd s) ∧
    py_for (faces m0) (quad_face m0) (cc_subd s) = inr subd ∧
    topo_inv subd ∧
    number_of_vertices subd
      = number_of_vertices m0 + number_of_edges m0 + number_of_faces m0 ∧
    number_of_faces subd = face_degree_sum m0 ∧
    (∀ f vs, face subd !! f = Some vs → length vs = 4%nat) ∧
    (∀ a, has_row m0 a → has_row subd a) ∧
    (∀ w, w ∈ cc_edgepoints s → has_row subd w) ∧
    dom (cc_bkey_edgepoints s) = bkeys ∧
    (∀ key l w, cc_bkey_edgepoints s !! key = Some l → w ∈ l →
                w ∈ dom (vertex subd)) ∧
    (∀ u v, is_Some (he m0 u v) → u ∈ bkeys → v ∈ bkeys →
            ∃ lu, cc_bkey_edgepoints s !! u = Some lu ∧ lu ≠ []).
Proof.
  intros Hvalid.
  destruct (halfedges_spec m0 Hvalid) as (Hready & Hapart & Hcover).
  destruct (cc_edge_loop m0 bkeys (halfedges m0) (cc_start m0 bkeys))
    as (s & Hloop & Hs & Hq & Hsz & _ & Hnew);
    [by apply edge_state_start|done|done|].
  destruct Hs as (Ht & Hr0 & Hmf & Hfd & Hfs & Hbd & Hep & Hbp).
  destruct (quad_face_loop m0 (faces m0) (cc_subd s) Hvalid)
    as (subd & Hfl & Ht' & Hsz' & Hfsz' & Hquads & Hrows & Hdom).
  { apply NoDup_fst_map_to_list. }
  { done. }
  { lia. }
  { intros f [vs0 Hf0]%elem_of_faces%elem_of_dom.
    destruct (Hfs f vs0 Hf0) as (vs' & ? & ?). eauto. }
  { intros f vs Hf. left. apply elem_of_faces. rewrite <- Hfd. by apply elem_of_dom_2 in Hf. }
  exists s, subd. split_and!; try done.
  - unfold number_of_vertices, number_of_edges, number_of_faces.
    rewrite Hsz', Hsz. simpl.
    assert (length (faces m0) = size (face m0)) as ->.
    { unfold faces. by rewrite length_fmap, length_map_to_list. }
    unfold halfedges. lia.
  - rewrite <- deg_sum_faces. unfold number_of_faces.
    assert (length (faces m0) = size (face (cc_subd s))) as Hlen.
    { unfold faces. rewrite length_fmap, length_map_to_list.
      by rewrite <- !size_dom, Hfd. }
    lia.
  - intros a Ha. by apply Hrows, Hr0.
  - intros w Hw. by apply Hrows, Hep.
  - intros key l w Hl Hw. apply Hdom. by eapply Hbp.
  - intros u v Huv Hu Hv. destruct (Hcover u v Huv) as [H|H].
    + destruct (Hnew u v H Hu Hv) as (lu & lv & ? & ? & _). eauto.
    + destruct (Hnew v u H Hv Hu) as (lv & lu & _ & _ & ? & ?). eauto.
Qed.

(** ** The relocation passes of Catmull-Clark *)

Lemma set_xyz_ok (mT m : Mesh) (key : Z) (c : xyz) :
  same_topology mT m → key ∈ dom (vertex mT) →
  ∃ m', set_xyz key c m = inr m' ∧ same_topology mT m'.
Proof.
  intros (Hh & Hf & Hd) Hkey. unfold set_xyz.
  rewrite <- Hd in Hkey. apply elem_of_dom in Hkey as [c0 Hc0]. rewrite Hc0.
  eexists. split; [done|]. unfold same_topology. simpl. split_and!; [done..|].
  rewrite dom_insert_L, <- Hd. apply elem_of_dom_2 in Hc0. set_solver.
Qed.

Lemma neighbours_ok (mT m : Mesh) (key : Z) :
  same_topology mT m → topo_inv mT → has_row mT key →
  ∃ nbrs, neighbours m key = inr nbrs ∧ nbrs ≠ [] ∧
          ∀ b, b ∈ nbrs → b ∈ dom (vertex mT).
Proof.
  intros (Hh & _ & _) (_ & Hi & _ & _) [_ [b [f Hb]]].
  unfold neighbours, py_getitem. rewrite Hh. unfold he in *.
  destruct (halfedge mT !! key) as [row|] eqn:Hrow; [|done]. simpl in *.
  eexists. split; [done|]. split.
  - intros Hnil. apply fmap_nil_inv, map_to_list_empty_iff in Hnil.
    by rewrite Hnil, lookup_empty in Hb.
  - intros x ([x' f'] & -> & Hx%elem_of_map_to_list)%list_elem_of_fmap. simpl.
    apply (Hi key x'). rewrite Hrow. simpl. by rewrite Hx.
Qed.

Lemma key_xyz_points (key_xyz : gmap Z xyz) (D : gset Z) (xs : list Z) :
  dom key_xyz = D → xs ≠ [] → (∀ x, x ∈ xs → x ∈ D) →
  ∃ ps, py_map (py_getitem key_xyz) xs = inr ps ∧ ps ≠ [] ∧ length ps = length xs.
Proof.
  intros Hd Hne Hin.
  destruct (py_map_ok (py_getitem key_xyz) xs) as (ps & Hps & Hlen).
  { intros x Hx. destruct (py_getitem_ok key_xyz x) as (a & ? & _); [|by exists a].
    rewrite Hd. by apply Hin. }
  exists ps. split_and!; [done| |done]. intros ->. by destruct xs.
Qed.

Lemma cc_move_edgepoint_ok (mT m : Mesh) (key_xyz : gmap Z xyz) (w : Z) :
  same_topology mT m → topo_inv mT → dom key_xyz = dom (vertex mT) →
  has_row mT w →
  ∃ m', cc_move_edgepoint key_xyz m w = inr m' ∧ same_topology mT m'.
Proof.
  intros Hsame Ht Hd Hrow. unfold cc_move_edgepoint.
  destruct (neighbours_ok mT m w Hsame Ht Hrow) as (nbrs & -> & Hne & Hin).
  cbn [py_bind].
  destruct (key_xyz_points key_xyz _ nbrs Hd Hne Hin) as (ps & -> & Hpne & _).
  cbn [py_bind].
  destruct (centroid_points_ok ps Hpne) as [c ->]. cbn [py_bind].
  apply set_xyz_ok; [done|]. by destruct Hrow.
Qed.

Lemma cc_move_edgepoints_ok (mT m : Mesh) (key_xyz : gmap Z xyz) (ws : list Z) :
  same_topology mT m → topo_inv mT → dom key_xyz = dom (vertex mT) →
  (∀ w, w ∈ ws → has_row mT w) →
  ∃ m', py_for ws (cc_move_edgepoint key_xyz) m = inr m' ∧ same_topology mT m'.
Proof.
  intros Hsame Ht Hd. revert m Hsame.
  induction ws as [|w ws IH]; intros m Hsame Hrows; cbn [py_for].
  { by exists m. }
  destruct (cc_move_edgepoint_ok mT m key_xyz w Hsame Ht Hd) as (m1 & -> & Hsame1).
  { apply Hrows. by apply elem_of_cons; left. }
  cbn [py_bind]. apply IH; [done|]. intros w' Hw'. apply Hrows. by apply elem_of_cons; right.
Qed.

Lemma elem_of_boundary (m : Mesh) (key : Z) :
  key ∈ (list_to_set (vertices_on_boundary m) : gset Z) ↔
  ∃ a b, he m a b = Some None ∧ (key = a ∨ key = b).
Proof.
  unfold vertices_on_boundary. rewrite list_to_set_elements_L, elem_of_list_to_set.
  unfold boundary_pairs, he. rewrite list_elem_of_bind. split.
  - intros ([u row] & H1 & H2%elem_of_map_to_list).
    apply list_elem_of_bind in H1 as ([v f] & H3 & H4%elem_of_map_to_list).
    destruct f as [fk|]; [by apply elem_of_nil in H3|].
    exists u, v. rewrite H2. simpl. split; [done|].
    apply elem_of_cons in H3 as [->|H3]; [by left|].
    apply list_elem_of_singleton in H3. by right.
  - intros (a & b & Hab & Hkey).
    destruct (halfedge m !! a) as [row|] eqn:Hrow; [|done]. simpl in Hab.
    exists (a, row). split; [|by apply elem_of_map_to_list].
    apply list_elem_of_bind. exists (b, None).
    split; [|by apply elem_of_map_to_list].
    destruct Hkey as [->| ->]; [by apply elem_of_cons; left|].
    apply elem_of_cons; right. by apply list_elem_of_singleton.
Qed.

Lemma vertex_faces_ok (m0 : Mesh) (key : Z) :
  valid_mesh m0 → has_row m0 key →
  key ∉ (list_to_set (vertices_on_boundary m0) : gset Z) →
  ∃ fkeys, vertex_faces m0 key = inr fkeys ∧ fkeys ≠ [] ∧
           ∀ fkey, fkey ∈ fkeys → ∃ c, face_centroid m0 fkey = inr c.
Proof.
  intros Hvalid Hkey Hnb.
  destruct (valid_mesh_he m0 Hvalid) as (Hh & Hv & Hf).
  destruct Hkey as [_ [b [f Hb]]].
  unfold vertex_faces, py_getitem. unfold he in Hb, Hh.
  destruct (halfedge m0 !! key) as [row|] eqn:Hrow; [|done]. simpl in *.
  assert (Hsome : ∀ b f, row !! b = Some f → ∃ fk, f = Some fk).
  { intros b' [fk|] Hb'; [by eexists|]. exfalso. apply Hnb.
    apply elem_of_boundary. exists key, b'. split; [|by left].
    unfold he. by rewrite Hrow; simpl. }
  eexists. split; [done|]. split.
  - destruct (Hsome b f Hb) as [fk ->]. intros Hnil.
    assert (fk ∈ omap id (map_to_list row).*2) as Hin.
    { apply list_elem_of_omap. exists (Some fk). split; [|done].
      apply list_elem_of_fmap. exists (b, Some fk). split; [done|].
      by apply elem_of_map_to_list. }
    rewrite Hnil in Hin. by apply elem_of_nil in Hin.
  - intros fkey (o & Ho & Hid)%list_elem_of_omap. simpl in Hid. subst o.
    apply list_elem_of_fmap in Ho as ([b' f'] & Hf' & Hb'%elem_of_map_to_list).
    simpl in Hf'. subst f'.
    destruct (Hh key b' (Some fkey)) as (_ & _ & _ & _ & Hhas).
    { by rewrite Hrow; simpl. }
    simpl in Hhas.
    destruct (face m0 !! fkey) as [vs|] eqn:Hvs; [|by apply elem_of_nil in Hhas].
    destruct (Hf fkey vs Hvs) as (_ & Hne & Hin).
    by eapply face_centroid_ok.
Qed.

Lemma py_div_ok (a : Q) (n : nat) :
  n ≠ 0%nat → ∃ q, py_div a (inject_Z (Z.of_nat n)) = inr q.
Proof.
  intros Hn. unfold py_div. rewrite inject_Z_nonzero by lia. by eexists.
Qed.

Lemma cc_move_vertex_ok (m0 mT m : Mesh) (fixed : gset Z)
    (bkey_edgepoints : gmap Z (list Z)) (key_xyz : gmap Z xyz) (key : Z) :
  valid_mesh m0 → same_topology mT m → topo_inv mT →
  dom key_xyz = dom (vertex mT) →
  has_row m0 key → has_row mT key →
  dom bkey_edgepoints = list_to_set (vertices_on_boundary m0) →
  (∀ k l w, bkey_edgepoints !! k = Some l → w ∈ l → w ∈ dom (vertex mT)) →
  (∀ u v, is_Some (he m0 u v) →
          u ∈ (list_to_set (vertices_on_boundary m0) : gset Z) →
          v ∈ (list_to_set (vertices_on_boundary m0) : gset Z) →
          ∃ lu, bkey_edgepoints !! u = Some lu ∧ lu ≠ []) →
  ∃ m', cc_move_vertex m0 fixed (list_to_set (vertices_on_boundary m0))
          bkey_edgepoints key_xyz m key = inr m' ∧
        same_topology mT m'.
Proof.
  intros Hvalid Hsame Ht Hd Hkey Hrow Hbd Hbp Hbne. unfold cc_move_vertex.
  case_bool_decide as Hfixed; [by exists m|].
  assert (Hxyz : ∃ cv, py_getitem key_xyz key = inr cv).
  { destruct (py_getitem_ok key_xyz key) as (cv & ? & _); [|by exists cv].
    rewrite Hd. by destruct Hrow. }
  destruct Hxyz as [cv Hcv].
  case_bool_decide as Hb.
  - assert (∃ l, bkey_edgepoints !! key = Some l ∧ l ≠ []) as (l & Hl & Hlne).
    { pose proof Hb as Hb'. apply elem_of_boundary in Hb' as (a & b & Hab & Hk).
      destruct (valid_mesh_he m0 Hvalid) as (Hh & _ & _).
      destruct (Hh a b None Hab) as (_ & _ & _ & Hba & _).
      assert (Ha : a ∈ (list_to_set (vertices_on_boundary m0) : gset Z)).
      { apply elem_of_boundary. exists a, b. auto. }
      assert (Hbb : b ∈ (list_to_set (vertices_on_boundary m0) : gset Z)).
      { apply elem_of_boundary. exists a, b. auto. }
      destruct Hk as [->| ->].
      - apply (Hbne a b); [by rewrite Hab|done..].
      - apply (Hbne b a); done. }
    unfold py_getitem at 1. rewrite Hl. cbn [py_bind].
    destruct (key_xyz_points key_xyz _ (elements (list_to_set l : gset Z)) Hd)
      as (ps & -> & Hpne & _).
    { intros Hnil. apply elements_empty_inv in Hnil.
      destruct l as [|x l']; [done|].
      assert (x ∈ (list_to_set (x :: l') : gset Z)) as Hx by set_solver.
      rewrite Hnil in Hx. set_solver. }
    { intros x Hx%elem_of_elements%elem_of_list_to_set. by eapply Hbp. }
    cbn [py_bind]. destruct (centroid_points_ok ps Hpne) as [ce ->].
    cbn [py_bind]. rewrite Hcv. cbn [py_bind].
    apply set_xyz_ok; [done|]. by destruct Hrow.
  - destruct (vertex_faces_ok m0 key Hvalid Hkey Hb) as (fkeys & -> & Hfne & Hfc).
    cbn [py_bind].
    destruct (py_map_ok (face_centroid m0) fkeys Hfc) as (fnbrs & -> & Hflen).
    cbn [py_bind].
    destruct (neighbours_ok mT m key Hsame Ht Hrow) as (nbrs & -> & Hne & Hin).
    cbn [py_bind].
    destruct (key_xyz_points key_xyz _ nbrs Hd Hne Hin) as (ps & -> & Hpne & Hplen).
    cbn [py_bind].
    assert (Hlen : length ps ≠ 0%nat) by (by destruct ps).
    destruct (py_div_ok 1 (length ps) Hlen) as [f ->]. cbn [py_bind].
    destruct (py_div_ok 2 (length ps) Hlen) as [e ->]. cbn [py_bind].
    destruct (py_div_ok (inject_Z (Z.of_nat (length ps)) - 3) (length ps) Hlen) as [v ->].
    cbn [py_bind].
    destruct (centroid_points_ok fnbrs) as [cf ->].
    { intros ->. by destruct fkeys. }
    cbn [py_bind]. destruct (centroid_points_ok ps Hpne) as [ce ->].
    cbn [py_bind]. rewrite Hcv. cbn [py_bind].
    apply set_xyz_ok; [done|]. by destruct Hrow.
Qed.


Lemma elem_of_vertices (m : Mesh) (key : Z) : key ∈ vertices m ↔ key ∈ dom (vertex m).
Proof.
  unfold vertices. rewrite list_elem_of_fmap, elem_of_dom. split.
  - intros ([k c] & -> & H%elem_of_map_to_list). by exists c.
  - intros [c H]. exists (key, c). split; [done|]. by apply elem_of_map_to_list.
Qed.



(** An isolated vertex is no obstacle to the quad scheme, while the vertex
    stencil of Catmull-Clark divides by its degree. *)
Example isolated_vertex :
  valid_mesh square_and_spare ∧ ¬ no_isolated_vertex square_and_spare ∧
  (∃ subd, mesh_subdivide_quad square_and_spare 1 = inr subd ∧
           number_of_vertices subd = 5 + 4 + 1 ∧ number_of_faces subd = 4) ∧
  mesh_subdivide_catmullclark square_and_spare 1 None = inl ZeroDivisionError.
Proof.
  split; [apply (bool_decide_unpack _); vm_compute; reflexivity|].
  split; [apply (bool_decide_unpack _); vm_compute; reflexivity|].
  split; [|vm_compute; reflexivity].
  eexists. split; [vm_compute; reflexivity|]. split; vm_compute; reflexivity.
Qed.


(* ===================================================================== *)
(** * The trace of a whole run                                             *)
(* ===================================================================== *)

Lemma logs_weaken {A} (c : M A) (P P' : event → Prop) (Q Q' : A → Prop) :
  logs c P Q → (∀ e, P e → P' e) → (∀ a, Q a → Q' a) → logs c P' Q'.
Proof.
  intros Hc HP HQ w. destruct (Hc w) as (d & Hd & HPd & HQa).
  exists d. split_and!; [done| |by eauto]. eapply Forall_impl; eauto.
Qed.

Lemma logs_ret {A} (a : A) (P : event → Prop) (Q : A → Prop) :
  Q a → logs (ret a) P Q.
Proof.
  intros HQ w. exists []. rewrite app_nil_r.
  split_and!; [done|done|]. by intros ?? [= <- <-].
Qed.

Lemma logs_raise {A} (e : exn) (P : event → Prop) (Q : A → Prop) :
  logs (raise e) P Q.
Proof. intros w. exists []. rewrite app_nil_r. by split_and!. Qed.

Lemma logs_lift {A} (c : py A) (P : event → Prop) (Q : A → Prop) :
  (∀ a, c = inr a → Q a) → logs (lift c) P Q.
Proof. destruct c; intros H; [apply logs_raise|apply logs_ret; auto]. Qed.

Lemma logs_get_mesh (P : event → Prop) : logs get_mesh P (λ _, True).
Proof. intros w. exists []. rewrite app_nil_r. by split_and!. Qed.

Lemma logs_put_mesh (m : Mesh) (P : event → Prop) : logs (put_mesh m) P (λ _, True).
Proof. intros w. exists []. simpl. rewrite app_nil_r. by split_and!. Qed.

Lemma logs_emit (e : event) (P : event → Prop) :
  P e → logs (emit e) P (λ _, True).
Proof. intros He w. exists [e]. simpl. split_and!; [done|by constructor|done]. Qed.

Lemma logs_bind {A B} (c : M A) (k : A → M B) (P : event → Prop)
    (Q1 : A → Prop) (Q2 : B → Prop) :
  logs c P Q1 → (∀ a, Q1 a → logs (k a) P Q2) → logs (bind c k) P Q2.
Proof.
  intros Hc Hk w. unfold bind.
  destruct (Hc w) as (d1 & Hd1 & HP1 & HQ1).
  destruct (c w) as [a w1|e w1] eqn:Hcw; simpl in Hd1.
  - destruct (Hk a (HQ1 a w1 eq_refl) w1) as (d2 & Hd2 & HP2 & HQ2).
    exists (d1 ++ d2). rewrite Hd2, Hd1, <- app_assoc.
    split_and!; [done| |done]. by apply Forall_app.
  - exists d1. by split_and!.
Qed.

Lemma logs_for_each {A S} (xs : list A) (body : S → A → M S) (s : S)
    (P : event → Prop) :
  (∀ s x, logs (body s x) P (λ _, True)) →
  logs (for_each xs body s) P (λ _, True).
Proof.
  intros Hb. revert s. induction xs as [|x xs IH]; intros s; cbn [for_each].
  - by apply logs_ret.
  - eapply logs_bind; [apply Hb|]. intros s' _. apply IH.
Qed.

Ltac logging :=
  repeat match goal with
  | |- logs (ret _) _ (λ _, True) => by apply logs_ret
  | |- logs (raise _) _ _ => apply logs_raise
  | |- logs (lift _) _ (λ _, True) => by apply logs_lift
  | |- logs get_mesh _ _ => apply logs_get_mesh
  | |- logs (put_mesh _) _ _ => apply logs_put_mesh
  | |- logs (emit _) _ _ => apply logs_emit
  | |- logs (bind _ _) _ _ => eapply (logs_bind _ _ _ (λ _, True)); [|intros ? _]
  | |- logs (for_each _ _ _) _ _ => apply logs_for_each; intros ? ?
  | |- logs (if ?b then _ else _) _ _ => destruct b
  | |- logs (match ?x with _ => _ end) _ _ => destruct x
  end.

Lemma mod4_next (k : Z) :
  (k + 1) `mod` 4 = if bool_decide (k `mod` 4 = 3) then 0 else k `mod` 4 + 1.
Proof. case_bool_decide; Z.div_mod_to_equations; lia. Qed.

Lemma converged_true (p : params) (k n1 n2 : Z) :
  converged p k n1 n2 = inr true →
  (kmax_start p < inject_Z k)%Q ∧ (0 < divergence p)%Q.
Proof.
  unfold converged. destruct (py_div _ _) as [|r]; [done|]. cbn [py_bind].
  destruct (Qltb (Qabs (1 - r)) (divergence p)) eqn:E1; [|done].
  destruct (Qltb (kmax_start p) (inject_Z k)) eqn:E2; [|done]. intros _.
  split; [by apply Qltb_true|].
  eapply Qle_lt_trans; [apply Qabs_nonneg|]. apply Qltb_true. exact E1.
Qed.

Section RunTrace.
Context {ops : Collaborators}.
Variable p : params.

Lemma split_step_logs (k : Z) dl vis e :
  k `mod` 4 = 0 → logs (split_step p dl vis e) (in_round p k) (λ _, True).
Proof.
  intros Hk. unfold split_step. destruct e as [u v]. logging. done.
Qed.

Lemma collapse_step_logs (k : Z) dl vis e :
  k `mod` 4 = 1 → logs (collapse_step p dl vis e) (in_round p k) (λ _, True).
Proof.
  intros Hk. unfold collapse_step. destruct e as [u v]. logging. done.
Qed.

Lemma swap_step_logs (k : Z) bnd vis e :
  k `mod` 4 = 2 → logs (swap_step p bnd vis e) (in_round p k) (λ _, True).
Proof.
  intros Hk. unfold swap_step. destruct e as [u v]. logging. done.
Qed.

Lemma run_phase_logs (k : Z) dlmin dlmax bnd :
  logs (run_phase p dlmin dlmax bnd (k `mod` 4 + 1)) (in_round p k)
    (λ c, c = (k + 1) `mod` 4).
Proof.
  unfold run_phase, split_phase, collapse_phase, swap_phase.
  rewrite mod4_next.
  pose proof (Z.mod_pos_bound k 4 ltac:(lia)) as Hb.
  repeat case_bool_decide; try lia.
  - eapply logs_bind with (Q1 := λ _, True).
    + logging. apply split_step_logs. lia.
    + intros _ _. apply logs_ret. lia.
  - eapply logs_bind with (Q1 := λ _, True).
    + logging. apply collapse_step_logs. lia.
    + intros _ _. apply logs_ret. lia.
  - eapply logs_bind with (Q1 := λ _, True).
    + logging. apply swap_step_logs. lia.
    + intros _ _. apply logs_ret. lia.
  - by apply logs_ret.
Qed.

Lemma smooth_step_logs (k : Z) :
  smooth p = true → logs smooth_step (in_round p k) (λ _, True).
Proof.
  intros Hs. unfold smooth_step. logging. done.
Qed.

Lemma run_callback_logs (k : Z) :
  logs (run_callback p k) (in_round p k) (λ _, True).
Proof.
  unfold run_callback. destruct (callback p) as [cb|] eqn:Hcb; [|by apply logs_ret].
  logging. simpl. by rewrite Hcb.
Qed.

Lemma convergence_check_logs (k : Z) (n : option Z) :
  logs (convergence_check p k n) (in_round p k)
    (λ stop, stop = true →
             (k - 10) `mod` 20 = 0 ∧ (kmax_start p < inject_Z k)%Q ∧
             (0 < divergence p)%Q).
Proof.
  unfold convergence_check. case_bool_decide as Hk; [|by apply logs_ret].
  eapply logs_bind; [apply logs_get_mesh|]. intros m _.
  eapply logs_bind with (Q1 := λ _, True); [by apply logs_lift|]. intros n1 _.
  apply logs_lift. intros stop Hc ->. split; [done|].
  by apply converged_true in Hc.
Qed.

Lemma round_rest_logs (k : Z) (l1 : locals) :
  logs (stop <- convergence_check p k (num_vertices_1 l1) ;
        if (stop : bool) then _ <- emit (EvBreak k) ; ret (Break, l1) else
        l <- (if smooth p then
                bnd <- smooth_step ; ret (mkLocals bnd (count l1) (num_vertices_1 l1))
              else ret l1) ;
        _ <- run_callback p k ;
        ret (Continue, l))
    (in_round p k) (λ r, count r.2 = count l1).
Proof.
  eapply logs_bind; [apply convergence_check_logs|]. intros [] Hstop.
  - destruct (Hstop eq_refl) as (? & ? & ?).
    eapply logs_bind with (Q1 := λ _, True); [by apply logs_emit|].
    intros _ _. by apply logs_ret.
  - eapply logs_bind with (Q1 := λ l, count l = count l1).
    + destruct (smooth p) eqn:Hs; [|by apply logs_ret].
      eapply logs_bind with (Q1 := λ _, True); [by apply smooth_step_logs|].
      intros bnd _. by apply logs_ret.
    + intros l Hl.
      eapply logs_bind with (Q1 := λ _, True); [apply run_callback_logs|].
      intros _ _. by apply logs_ret.
Qed.

(** One round: its [EvRound] comes first, the rest is what a round may
    do, and [count] follows the round index. *)
Lemma round_trace (fac : Q) (k : Z) (l : locals) (w : World) :
  count l = k `mod` 4 →
  ∃ d, w_log (final (round p fac k l w)) = w_log w ++ EvRound k :: d ∧
       Forall (in_round p k) d ∧
       ∀ c l' w', round p fac k l w = Ok (c, l') w' → count l' = (k + 1) `mod` 4.
Proof.
  intros Hc.
  set (w0 := mkWorld (w_mesh w) (w_log w ++ [EvRound k])).
  assert (Hlogs : logs
    (l1 <- (let '(dlmin, dlmax) := slack p fac k in
            m <- get_mesh ;
            let num_vertices_1 :=
              if bool_decide (k `mod` 20 = 0) then Some (number_of_vertices m)
              else num_vertices_1 l in
            count <- run_phase p dlmin dlmax (boundary l) (count l + 1) ;
            ret (mkLocals (boundary l) count num_vertices_1)) ;
     stop <- convergence_check p k (num_vertices_1 l1) ;
     if (stop : bool) then _ <- emit (EvBreak k) ; ret (Break, l1) else
     l <- (if smooth p then
             bnd <- smooth_step ; ret (mkLocals bnd (count l1) (num_vertices_1 l1))
           else ret l1) ;
     _ <- run_callback p k ;
     ret (Continue, l))
    (in_round p k) (λ r, count r.2 = (k + 1) `mod` 4)).
  { eapply logs_bind with (Q1 := λ l1, count l1 = (k + 1) `mod` 4).
    - destruct (slack p fac k) as [dlmin dlmax].
      eapply logs_bind; [apply logs_get_mesh|]. intros m _.
      eapply logs_bind; [rewrite Hc; apply run_phase_logs|].
      intros c ->. by apply logs_ret.
    - intros l1 Hl1. eapply logs_weaken; [apply round_rest_logs|done|].
      intros r Hr. by rewrite Hr. }
  destruct (Hlogs w0) as (d & Hd & HP & HQ).
  assert (Heq : round p fac k l w = (l1 <- (let '(dlmin, dlmax) := slack p fac k in
            m <- get_mesh ;
            let num_vertices_1 :=
              if bool_decide (k `mod` 20 = 0) then Some (number_of_vertices m)
              else num_vertices_1 l in
            count <- run_phase p dlmin dlmax (boundary l) (count l + 1) ;
            ret (mkLocals (boundary l) count num_vertices_1)) ;
     stop <- convergence_check p k (num_vertices_1 l1) ;
     if (stop : bool) then _ <- emit (EvBreak k) ; ret (Break, l1) else
     l <- (if smooth p then
             bnd <- smooth_step ; ret (mkLocals bnd (count l1) (num_vertices_1 l1))
           else ret l1) ;
     _ <- run_callback p k ;
     ret (Continue, l)) w0).
  { unfold round, round_phases. destruct (slack p fac k) as [dlmin dlmax].
    reflexivity. }
  exists d. rewrite Heq. split_and!.
  - rewrite Hd. simpl. by rewrite <- app_assoc.
  - done.
  - intros c l' w' H. by apply (HQ (c, l') w').
Qed.

Lemma rounds_trace (fac : Q) (n a : nat) (l : locals) (w : World) :
  count l = Z.of_nat a `mod` 4 → (a + n ≤ Z.to_nat (kmax p))%nat →
  ∃ d, w_log (final (rounds p fac (Z.of_nat <$> seq a n) l w)) = w_log w ++ d ∧
       run_of_rounds p (Z.of_nat a) d.
Proof.
  revert a l w. induction n as [|n IH]; intros a l w Hc Hn.
  { exists []. simpl. rewrite app_nil_r. split; [done|constructor]. }
  cbn [seq fmap list_fmap rounds]. unfold bind at 1.
  destruct (round_trace fac (Z.of_nat a) l w Hc) as (d & Hd & HP & HQ).
  destruct (round p fac (Z.of_nat a) l w) as [[c l'] w'|e w'] eqn:Hr.
  - specialize (HQ c l' w' eq_refl). cbn [final] in Hd.
    destruct c.
    + destruct (IH (S a) l' w') as (d' & Hd' & Hrun).
      { rewrite HQ. f_equal. lia. }
      { lia. }
      exists (EvRound (Z.of_nat a) :: d ++ d'). split.
      * rewrite Hd', Hd. by rewrite <- app_assoc.
      * constructor; [lia|done|]. by replace (Z.of_nat a + 1) with (Z.of_nat (S a)) by lia.
    + exists (EvRound (Z.of_nat a) :: d ++ []). split.
      * rewrite app_nil_r. done.
      * constructor; [lia|done|constructor].
  - exists (EvRound (Z.of_nat a) :: d ++ []). split.
    + rewrite app_nil_r. done.
    + constructor; [lia|done|constructor].
Qed.

(** The events of a whole call are those of rounds 0, 1, 2, ... in order,
    whether the call returns or raises. *)
Lemma run_trace (w : World) :
  run_of_rounds p 0 (new_events w (trimesh_optimise_topology p w)).
Proof.
  unfold trimesh_optimise_topology.
  unfold bind at 1. unfold get_mesh at 1. cbv beta iota.
  unfold bind at 1.
  destruct (lift (py_map _ _) w) as [lens w1|e w1] eqn:H1.
  2:{ assert (w1 = w) as ->.
      { revert H1. unfold lift. destruct (py_map _ _); [|done]. by intros [= _ <-]. }
      unfold new_events. simpl. rewrite drop_all. constructor. }
  assert (w1 = w) as ->.
  { revert H1. unfold lift. destruct (py_map _ _); [done|]. by intros [= _ <-]. }
  unfold bind at 1.
  destruct (lift (ramp_factor p lens) w) as [fac w1|e w1] eqn:H2.
  2:{ assert (w1 = w) as ->.
      { revert H2. unfold lift. destruct (ramp_factor _ _); [|done]. by intros [= _ <-]. }
      unfold new_events. simpl. rewrite drop_all. constructor. }
  assert (w1 = w) as ->.
  { revert H2. unfold lift. destruct (ramp_factor _ _); [done|]. by intros [= _ <-]. }
  destruct (rounds_trace fac (Z.to_nat (kmax p)) 0
              (mkLocals (list_to_set (vertices_on_boundary (w_mesh w))) 0 None) w)
    as (d & Hd & Hrun); [done|lia|].
  change (Z.of_nat <$> seq 0 (Z.to_nat (kmax p))) with (py_range (kmax p)) in Hd.
  unfold bind at 1.
  destruct (rounds p fac (py_range (kmax p)) _ w) as [l' w'|e w'];
    cbn [final] in Hd; unfold new_events; cbn [final ret]; rewrite Hd, drop_app_length; done.
Qed.

End RunTrace.

Lemma in_round_schedule (p : params) (k : Z) (d rest : list event) :
  Forall (in_round p k) d → (∀ s, phase_schedule s rest) →
  phase_schedule (Some k) (d ++ rest).
Proof.
  intros Hd Hrest. induction Hd as [|e d He Hd IH]; [apply Hrest|].
  destruct e; simpl in *; try done.
  - destruct He as [? _]. split; [by exists k|done].
  - destruct He as [? _]. split; [by exists k|done].
  - destruct He as [? _]. split; [by exists k|done].
Qed.

Lemma run_of_rounds_schedule (p : params) (k : Z) (d : list event) :
  run_of_rounds p k d → ∀ s, phase_schedule s d.
Proof.
  induction 1 as [|k d rest Hk Hd Hrest IH]; intros s; [done|].
  simpl. by apply (in_round_schedule p).
Qed.



Lemma run_of_rounds_break (p : params) (k0 : Z) (d : list event) (k : Z) :
  run_of_rounds p k0 d → EvBreak k ∈ d →
  0 ≤ k < kmax p ∧ (k - 10) `mod` 20 = 0 ∧
  (kmax_start p < inject_Z k)%Q ∧ (0 < divergence p)%Q.
Proof.
  induction 1 as [|k0 d rest Hk Hd Hrest IH]; [by intros ?%elem_of_nil|].
  intros [[=]|Hin]%elem_of_cons.
  apply elem_of_app in Hin as [Hin|Hin]; [|by apply IH].
  apply (proj1 (Forall_forall _ _) Hd) in Hin. simpl in Hin.
  destruct Hin as (-> & ? & ? & ?). done.
Qed.

Lemma kmax_start_lt (p : params) (k : Z) :
  (kmax_start p < inject_Z k)%Q → kmax p < 2 * k.
Proof. unfold kmax_start, Qlt. simpl. lia. Qed.

Section RunFacts.
Context {ops : Collaborators}.
Variable p : params.

(** The three phases follow the round index: whatever the mesh and the
    arguments, and whether the call returns or raises, an edge is split
    only in a round k with k mod 4 = 0, collapsed only in a round with
    k mod 4 = 1 and swapped only in a round with k mod 4 = 2; a round with
    k mod 4 = 3 calls no operator. *)
Theorem phases_follow_round_index (w : World) :
  phase_schedule None (new_events w (trimesh_optimise_topology p w)).
Proof. eapply run_of_rounds_schedule, run_trace. Qed.


(** A run does not end early when the divergence is not positive, when
    kmax is at most 10 or when kmax lies between 20 and 30: it breaks only
    in a round k below kmax with (k - 10) mod 20 = 0 and k > kmax / 2, and
    only on a test against a positive divergence. *)
Theorem no_early_termination (w : World) (k : Z) :
  (divergence p <= 0)%Q ∨ kmax p ≤ 10 ∨ 20 ≤ kmax p ≤ 30 →
  EvBreak k ∉ new_events w (trimesh_optimise_topology p w).
Proof.
  intros Hp Hin.
  destruct (run_of_rounds_break p 0 _ k (run_trace p w) Hin) as (Hk & Hmod & Hhalf & Hdiv).
  apply kmax_start_lt in Hhalf.
  destruct Hp as [Hp|Hp].
  - by apply Qle_not_lt in Hp.
  - Z.div_mod_to_equations. lia.
Qed.

(** Without smoothing the boundary set is never recomputed: the rounds
    keep the set they are started with (the boundary vertices of the input
    mesh), whatever the operators do to the mesh. *)
Theorem boundary_kept_without_smoothing
    (fac : Q) (ks : list Z) (l l' : locals) (w w' : World) :
  smooth p = false →
  rounds p fac ks l w = Ok l' w' → boundary l' = boundary l.
Proof.
  intros Hs. revert l w. induction ks as [|k ks IH]; intros l w; cbn [rounds].
  { by intros [= <- <-]. }
  unfold bind at 1.
  destruct (round p fac k l w) as [[c l1] w1|] eqn:Hr; [|done].
  assert (boundary l1 = boundary l) as Hb.
  { revert Hr. unfold round, round_phases. rewrite Hs.
    destruct (slack p fac k) as [dlmin dlmax].
    unfold bind at 1. unfold bind at 1. unfold emit at 1. cbv beta iota.
    unfold bind at 1. unfold get_mesh at 1. cbv beta iota.
    unfold bind at 1. destruct (run_phase _ _ _ _ _ _) as [c1 w2|]; [|done].
    unfold ret at 1. cbv beta iota.
    unfold bind at 1. destruct (convergence_check _ _ _ _) as [[] w3|]; [| |done].
    - unfold_monad. by intros [= <- <- <-].
    - unfold bind at 1. unfold ret at 1. cbv beta iota.
      unfold bind at 1. destruct (run_callback p k w3); [|done].
      unfold ret. by intros [= <- <- <-]. }
  destruct c.
  - intros H. rewrite <- Hb. by eapply IH.
  - intros [= <- <-]. done.
Qed.

(** An edge with a missing face on either side is never handed to the
    swap operator, whatever [allow_boundary_swap] says: the pass leaves the
    mesh, the trace and the visited set as they are. *)
Theorem boundary_edge_never_swapped
    (bnd visited : gset Z) (u v : Z) (f1 f2 : option Z) (w : World) :
  halfedge_get (w_mesh w) u v = inr f1 →
  halfedge_get (w_mesh w) v u = inr f2 →
  f1 = None ∨ f2 = None →
  swap_step p bnd visited (u, v) w = Ok visited w.
Proof.
  intros H1 H2 Hf. unfold swap_step.
  destruct (in_visited visited u v); [done|].
  unfold bind at 1. unfold get_mesh at 1. cbv beta iota.
  unfold bind at 1. rewrite H1. unfold lift at 1, ret at 1. cbv beta iota.
  unfold bind at 1. rewrite H2. unfold lift at 1, ret at 1. cbv beta iota.
  destruct Hf as [-> | ->]; [done|]. by destruct f1.
Qed.

(** On a mesh without edges the call raises [ValueError] (the maximum of
    an empty list of lengths) and leaves the mesh and the trace alone. *)
Theorem no_edges_raises (w : World) :
  edges (w_mesh w) = [] →
  trimesh_optimise_topology p w = Raise ValueError w.
Proof.
  intros He. unfold trimesh_optimise_topology.
  unfold bind at 1. unfold get_mesh at 1. cbv beta iota. by rewrite He.
Qed.

Lemma write_back_spec (vs' : gmap Z xyz) (keys : list Z) (w w' : World) :
  for_each keys
    (λ (_ : unit) key,
       m <- get_mesh ;
       c <- lift (py_getitem vs' key) ;
       put_mesh (set_vertex (λ vt, <[key := c]> vt) m)) tt w = Ok tt w' →
  face (w_mesh w') = face (w_mesh w) ∧
  max_int_key (w_mesh w') = max_int_key (w_mesh w) ∧
  max_int_fkey (w_mesh w') = max_int_fkey (w_mesh w) ∧
  w_log w' = w_log w ∧
  (∀ key, key ∈ keys → is_Some (vs' !! key)) ∧
  (∀ key, vertex (w_mesh w') !! key
          = if decide (key ∈ keys) then vs' !! key else vertex (w_mesh w) !! key).
Proof.
  revert w. induction keys as [|key keys IH]; intros w; cbn [for_each].
  { intros [= <-]. split_and!; try done. by intros ? ?%elem_of_nil. }
  unfold bind at 1. unfold_monad.
  destruct (py_getitem vs' key) as [|c] eqn:Hc; [done|]. cbv beta iota.
  unfold py_getitem in Hc. destruct (vs' !! key) as [c'|] eqn:Hv; [|done].
  injection Hc as ->.
  intros H. apply IH in H.
  cbn [w_mesh w_log set_vertex vertex face max_int_key max_int_fkey] in H.
  destruct H as (H1 & H2 & H3 & H4 & H5 & H6).
  split_and!; try done.
  - intros key' [->|Hin]%elem_of_cons; [by rewrite Hv|by apply H5].
  - intros key'. rewrite H6.
    destruct (decide (key' = key)) as [->|Hne].
    + rewrite (decide_True (P := key ∈ key :: keys)) by (by apply elem_of_cons; left).
      case_decide; [done|]. by rewrite lookup_insert_eq.
    + rewrite lookup_insert_ne by done.
      destruct (decide (key' ∈ keys)) as [Hin|Hnin].
      * by rewrite decide_True by (by apply elem_of_cons; right).
      * rewrite decide_False; [done|]. by intros [?|?]%elem_of_cons.
Qed.

(** The smoothing block calls the helper once, for one pass, with the
    boundary vertices of the mesh as the fixed set, and then writes
    coordinates only: the faces, the half-edges, the key counters and the
    set of vertex keys are as before. *)
Theorem smoothing_moves_vertices_only (w w' : World) (bnd : gset Z) :
  smooth_step w = Ok bnd w' →
  bnd = list_to_set (vertices_on_boundary (w_mesh w)) ∧
  new_events w (Ok bnd w') = [EvSmooth bnd 1] ∧
  face (w_mesh w') = face (w_mesh w) ∧
  halfedge (w_mesh w') = halfedge (w_mesh w) ∧
  dom (vertex (w_mesh w')) = dom (vertex (w_mesh w)) ∧
  max_int_key (w_mesh w') = max_int_key (w_mesh w) ∧
  max_int_fkey (w_mesh w') = max_int_fkey (w_mesh w).
Proof.
  intros H. destruct (smooth_step_boundary w w' bnd H) as [Hb Hh].
  revert H. unfold smooth_step.
  unfold bind at 1. unfold get_mesh at 1. cbv beta iota.
  assert (∀ A (c : py A) (x : World) a y, lift c x = Ok a y → y = x) as Hlift.
  { intros A [e|a0] x a y; unfold lift, raise, ret; [done|]. by intros [= _ ->]. }
  unfold bind at 1. destruct (lift (dict_of _ _) w) as [vs w1|] eqn:H1; [|done].
  unfold bind at 1. destruct (lift (dict_of _ _) w1) as [fs w2|] eqn:H2; [|done].
  unfold bind at 1. destruct (lift (dict_of _ _) w2) as [adj w3|] eqn:H3; [|done].
  apply Hlift in H1 as ->. apply Hlift in H2 as ->. apply Hlift in H3 as ->.
  unfold bind at 1. unfold emit at 1. cbv beta iota.
  unfold bind at 1.
  destruct (lift (smooth_area _ _ _ _ _) _) as [vs' w4|] eqn:H4; [|done].
  apply Hlift in H4 as ->.
  unfold bind at 1.
  destruct (for_each _ _ _ _) as [[] w5|] eqn:H5; [|done].
  apply write_back_spec in H5. cbn [w_mesh w_log] in H5.
  destruct H5 as (G1 & G2 & G3 & G4 & G5 & G6).
  unfold ret. intros [= <- <-].
  split_and!; try done.
  - unfold new_events. cbn [final]. rewrite G4, drop_app_length. done.
  - apply set_eq. intros key. rewrite !elem_of_dom, G6.
    case_decide as Hin; [|done].
    split; [intros _|intros _; by apply G5].
    apply elem_of_vertices in Hin. by apply elem_of_dom.
Qed.

End RunFacts.

(* ===================================================================== *)
(** * Runs that show the facts above at work                               *)
(* ===================================================================== *)

Lemma no_early_termination_witness :
  kmax params_one_round ≤ 10 ∧
  EvBreak 10 ∉ new_events (world_of triangle345)
                 (@trimesh_optimise_topology reference_ops params_one_round
                    (world_of triangle345)).
Proof.
  split; [by vm_compute|].
  apply (@no_early_termination reference_ops params_one_round (world_of triangle345) 10).
  right. left. by vm_compute.
Defined.

Lemma boundary_kept_without_smoothing_witness :
  smooth params_negative_target = false ∧
  unsmoothed_rounds = Ok unsmoothed_locals (final unsmoothed_rounds) ∧
  split_calls (w_log (final unsmoothed_rounds)) = [(2, 1)] ∧
  boundary unsmoothed_locals = boundary unsmoothed_start ∧
  boundary unsmoothed_start = {[0; 1; 2]} ∧
  list_to_set (vertices_on_boundary (w_mesh (final unsmoothed_rounds)))
  = ({[0; 1; 2; 3]} : gset Z).
Proof.
  split; [reflexivity|]. split; [vm_compute; reflexivity|].
  split; [vm_compute; reflexivity|].
  split; [|split; vm_compute; reflexivity].
  apply (@boundary_kept_without_smoothing reference_ops params_negative_target
           1 [0; 1] unsmoothed_start unsmoothed_locals
           (world_of triangle345) (final unsmoothed_rounds)).
  - reflexivity.
  - vm_compute. reflexivity.
Defined.

Lemma boundary_set_fresh_witness :
  smooth params_fixed_centre = true ∧ callback params_fixed_centre = None ∧
  smoothed_round = Ok (Continue, smoothed_locals) (final smoothed_round) ∧
  boundary smoothed_locals
  = list_to_set (vertices_on_boundary (w_mesh (final smoothed_round))).
Proof.
  split; [reflexivity|]. split; [reflexivity|]. split; [vm_compute; reflexivity|].
  apply (@boundary_set_fresh reference_ops params_fixed_centre 1 0
           smoothed_start smoothed_locals (world_of fan) (final smoothed_round)).
  - reflexivity.
  - reflexivity.
  - vm_compute. reflexivity.
Defined.

Lemma boundary_edge_never_swapped_witness :
  allow_boundary_swap params_swap = true ∧
  halfedge_get two_triangles 0 1 = inr (Some 0) ∧
  halfedge_get two_triangles 1 0 = inr None ∧
  @swap_step reference_ops params_swap ∅ ∅ (0, 1) (world_of two_triangles)
  = Ok ∅ (world_of two_triangles).
Proof.
  split; [reflexivity|]. split; [vm_compute; reflexivity|].
  split; [vm_compute; reflexivity|].
  apply (@boundary_edge_never_swapped reference_ops params_swap ∅ ∅ 0 1
           (Some 0) None (world_of two_triangles)).
  - vm_compute. reflexivity.
  - vm_compute. reflexivity.
  - right. reflexivity.
Defined.

Lemma no_edges_raises_witness :
  edges empty_mesh = [] ∧
  @trimesh_optimise_topology reference_ops (default_params 1) (world_of empty_mesh)
  = Raise ValueError (world_of empty_mesh).
Proof.
  split; [vm_compute; reflexivity|].
  apply (@no_edges_raises reference_ops (default_params 1) (world_of empty_mesh)).
  vm_compute. reflexivity.
Defined.

Lemma smoothing_moves_vertices_only_witness :
  @smooth_step reference_ops (world_of fan) = Ok {[0; 1; 2; 3]} (final fan_smoothed) ∧
  face (w_mesh (final fan_smoothed)) = face (w_mesh (world_of fan)) ∧
  halfedge (w_mesh (final fan_smoothed)) = halfedge (w_mesh (world_of fan)) ∧
  new_events (world_of fan) (Ok ({[0; 1; 2; 3]} : gset Z) (final fan_smoothed))
  = [EvSmooth {[0; 1; 2; 3]} 1].
Proof.
  assert (H : @smooth_step reference_ops (world_of fan)
              = Ok {[0; 1; 2; 3]} (final fan_smoothed))
    by (vm_compute; reflexivity).
  split; [exact H|].
  destruct (@smoothing_moves_vertices_only reference_ops (world_of fan)
              (final fan_smoothed) {[0; 1; 2; 3]} H) as (_ & He & Hf & Hh & _).
  split; [exact Hf|]. split; [exact Hh|exact He].
Defined.

(* ===================================================================== *)
(** * The number of rounds                                                 *)
(* ===================================================================== *)

Lemma rounds_entered_app (d1 d2 : list event) :
  rounds_entered (d1 ++ d2) = rounds_entered d1 ++ rounds_entered d2.
Proof. unfold rounds_entered. apply omap_app. Qed.

Lemma in_round_not_entered (p : params) (k : Z) (d : list event) :
  Forall (in_round p k) d → rounds_entered d = [].
Proof.
  induction 1 as [|e d He Hd IH]; [done|].
  destruct e; simpl in *; done.
Qed.

Lemma run_of_rounds_entered (p : params) (k0 : Z) (d : list event) :
  run_of_rounds p k0 d → 0 ≤ k0 →
  ∃ n : nat, k0 + Z.of_nat n ≤ Z.max k0 (kmax p) ∧
             rounds_entered d = Z.of_nat <$> seq (Z.to_nat k0) n.
Proof.
  induction 1 as [k0|k0 d rest Hk Hd Hrest IH]; intros H0.
  { exists 0%nat. split; [lia|done]. }
  destruct IH as (n & Hn & IH); [lia|]. exists (S n). split; [lia|].
  change (EvRound k0 :: d ++ rest) with ([EvRound k0] ++ d ++ rest).
  rewrite !rounds_entered_app, (in_round_not_entered p k0 d Hd), IH.
  cbn [rounds_entered omap list_omap app seq fmap list_fmap].
  rewrite Z2Nat.id by lia.
  replace (Z.to_nat (k0 + 1)) with (S (Z.to_nat k0)) by lia. done.
Qed.

Section RunLength.
Context {ops : Collaborators}.
Variable p : params.

Lemma round_break_logged (fac : Q) (k : Z) (l l' : locals) (w w' : World) :
  round p fac k l w = Ok (Break, l') w' → last (w_log w') = Some (EvBreak k).
Proof.
  unfold round. unfold bind at 1.
  destruct (round_phases p fac k l w) as [l1 w1|]; [|done].
  unfold bind at 1.
  destruct (convergence_check p k (num_vertices_1 l1) w1) as [[] w2|]; [| |done].
  - unfold_monad. intros [= <- <-]. simpl. apply last_snoc.
  - unfold bind at 1.
    destruct (if smooth p then _ else _) as [l2 w3|]; [|done].
    unfold bind at 1. destruct (run_callback p k w3); [|done].
    unfold ret. intros [=].
Qed.

Lemma rounds_all_entered (fac : Q) (n a : nat) (l l' : locals) (w w' : World) :
  count l = Z.of_nat a `mod` 4 →
  rounds p fac (Z.of_nat <$> seq a n) l w = Ok l' w' →
  ∃ d, w_log w' = w_log w ++ d ∧
       ((∃ k, EvBreak k ∈ d) ∨ rounds_entered d = Z.of_nat <$> seq a n).
Proof.
  revert a l w. induction n as [|n IH]; intros a l w Hc.
  { intros [= <- <-]. exists []. rewrite app_nil_r. split; [done|by right]. }
  cbn [seq fmap list_fmap rounds]. unfold bind at 1.
  destruct (round_trace p fac (Z.of_nat a) l w Hc) as (d & Hd & HP & HQ).
  destruct (round p fac (Z.of_nat a) l w) as [[c l1] w1|e w1] eqn:Hr; [|done].
  specialize (HQ c l1 w1 eq_refl). cbn [final] in Hd.
  destruct c.
  - intros H. destruct (IH (S a) l1 w1) as (d' & Hd' & Hcase); [|exact H|].
    { rewrite HQ. f_equal. lia. }
    exists (EvRound (Z.of_nat a) :: d ++ d'). split.
    { rewrite Hd', Hd. by rewrite <- app_assoc. }
    destruct Hcase as [[k Hk]|Hall].
    + left. exists k. apply elem_of_cons. right. apply elem_of_app. by right.
    + right. change (EvRound (Z.of_nat a) :: d ++ d')
        with ([EvRound (Z.of_nat a)] ++ d ++ d').
      rewrite !rounds_entered_app, (in_round_not_entered p _ d HP), Hall. done.
  - intros [= <- <-]. exists (EvRound (Z.of_nat a) :: d). split; [done|].
    left. exists (Z.of_nat a).
    pose proof (round_break_logged _ _ _ _ _ _ Hr) as Hlast.
    rewrite Hd in Hlast. rewrite last_app in Hlast.
    assert (last (EvRound (Z.of_nat a) :: d) = Some (EvBreak (Z.of_nat a))) as Hl.
    { destruct (last (EvRound (Z.of_nat a) :: d)) eqn:E; [done|].
      by apply last_None in E. }
    by apply last_Some_elem_of in Hl.
Qed.

(** The rounds of a run are entered in order from round 0, at most kmax of
    them, whether the call returns or raises; and a call that returns
    without a break has entered all kmax rounds. *)
Theorem rounds_run_in_order (w : World) :
  let r := trimesh_optimise_topology p w in
  (∃ n, 0 ≤ n ≤ Z.max 0 (kmax p) ∧ rounds_entered (new_events w r) = py_range n) ∧
  (∀ w', r = Ok tt w' → (∀ k, EvBreak k ∉ new_events w r) →
         rounds_entered (new_events w r) = py_range (kmax p)).
Proof.
  cbv zeta. split.
  - destruct (run_of_rounds_entered p 0 _ (run_trace p w)) as (n & Hn & Hr); [lia|].
    exists (Z.of_nat n). split; [lia|]. rewrite Hr. unfold py_range.
    by rewrite Nat2Z.id.
  - intros w' Hret Hno.
    assert (∃ d, w_log w' = w_log w ++ d ∧
                 ((∃ k, EvBreak k ∈ d) ∨ rounds_entered d = py_range (kmax p)))
      as (d & Hd & Hcase).
    { revert Hret. unfold trimesh_optimise_topology. unfold_monad. cbv beta iota.
      destruct (py_map _ _) as [|lens]; [done|]. cbv beta iota.
      destruct (ramp_factor p lens) as [|fac]; [done|]. cbv beta iota.
      destruct (rounds p fac _ _ w) as [l1 w1|] eqn:Hr; [|done].
      intros [= <-].
      exact (rounds_all_entered fac (Z.to_nat (kmax p)) 0
               (mkLocals (list_to_set (vertices_on_boundary (w_mesh w))) 0 None)
               l1 w w1 eq_refl Hr). }
    rewrite Hret in *. unfold new_events in *. cbn [final] in *.
    rewrite Hd, drop_app_length in *.
    destruct Hcase as [[k Hk]|Hall]; [by destruct (Hno k)|done].
Qed.

End RunLength.

Lemma rounds_run_in_order_witness :
  @trimesh_optimise_topology reference_ops params_negative_target (world_of triangle345)
  = Ok tt (final negative_target_run) ∧
  rounds_entered (new_events (world_of triangle345)
                    (@trimesh_optimise_topology reference_ops params_negative_target
                       (world_of triangle345)))
  = py_range (kmax params_negative_target).
Proof.
  assert (H : @trimesh_optimise_topology reference_ops params_negative_target
                (world_of triangle345) = Ok tt (final negative_target_run))
    by (vm_compute; reflexivity).
  split; [exact H|].
  apply (proj2 (@rounds_run_in_order reference_ops params_negative_target
                  (world_of triangle345)) (final negative_target_run) H).
  intros k Hk. rewrite H in Hk. vm_compute in Hk.
  repeat (apply elem_of_cons in Hk as [Hk|Hk]; [discriminate Hk|]).
  by apply elem_of_nil in Hk.
Defined.

(* ===================================================================== *)
(** * Subdivision: the vertices of the input                               *)
(* ===================================================================== *)

Lemma py_for_nil_range {S} (k : Z) (body : S → Z → py S) (s : S) :
  k ≤ 0 → py_for (py_range k) body s = inr s.
Proof. intros Hk. by rewrite py_range_nonpos. Qed.

Lemma grown_from_refl (m : Mesh) : keys_bounded m → grown_from m m.
Proof. intros H. split_and!; [done|done|lia]. Qed.

Lemma grown_from_trans (m1 m2 m3 : Mesh) :
  grown_from m1 m2 → grown_from m2 m3 → grown_from m1 m3.
Proof.
  intros (_ & H1 & H2) (H3 & H4 & H5). split_and!; [done|by etrans|lia].
Qed.

Lemma grown_from_frame (m m' : Mesh) :
  vertex m' = vertex m → max_int_key m' = max_int_key m →
  keys_bounded m → grown_from m m'.
Proof.
  intros Hv Hk Hb. unfold grown_from, keys_bounded. rewrite Hv, Hk.
  split_and!; [done|done|lia].
Qed.

Lemma add_vertex_grows (c : xyz) (m : Mesh) :
  keys_bounded m →
  grown_from m (add_vertex c m).1 ∧
  (add_vertex c m).2 = max_int_key m + 1 ∧
  max_int_key (add_vertex c m).1 = max_int_key m + 1 ∧
  vertex (add_vertex c m).1 = <[max_int_key m + 1 := c]> (vertex m).
Proof.
  intros Hb. split_and!; try done. unfold grown_from. simpl. split_and!.
  - apply map_Forall_insert_2; [simpl; lia|].
    eapply map_Forall_impl; [exact Hb|]. simpl. intros. lia.
  - apply insert_subseteq. apply eq_None_not_Some. intros [c' Hc'].
    specialize (Hb _ _ Hc'). simpl in Hb. lia.
  - lia.
Qed.

Lemma split_in_face_frame (f : option Z) (v w : Z) (m m' : Mesh) :
  split_in_face f v w m = inr m' →
  vertex m' = vertex m ∧ max_int_key m' = max_int_key m.
Proof.
  destruct f as [fkey|]; simpl; [|by intros [= <-]].
  destruct (py_getitem _ _) as [|vs]; [done|]. simpl.
  destruct (insert_before _ _ _) as [|vs']; [done|]. simpl.
  by intros [= <-].
Qed.

Lemma split_edge_grows (u v : Z) (a : bool) (m m' : Mesh) (r : option Z) :
  split_edge u v a m = inr (m', r) → keys_bounded m →
  grown_from m m' ∧ (∀ w, r = Some w → w = max_int_key m' ∧ max_int_key m < w) ∧
  (r = None → m' = m).
Proof.
  intros H Hb. revert H. unfold split_edge.
  destruct (halfedge_get m u v) as [|fuv]; [done|]. cbn [py_bind].
  destruct (halfedge_get m v u) as [|fvu]; [done|]. cbn [py_bind].
  destruct (negb a && _).
  { intros [= <- <-]. split_and!; [by apply grown_from_refl|done|done]. }
  destruct (vertex_coordinates m u) as [|cu]; [done|]. cbn [py_bind].
  destruct (vertex_coordinates m v) as [|cv]; [done|]. cbn [py_bind].
  destruct (add_vertex_grows (midpoint cu cv) m Hb) as (Hg & Hkey & Hmax & Hvert).
  destruct (add_vertex (midpoint cu cv) m) as [m1 w] eqn:Hadd. cbn [fst snd] in *.
  subst w.
  destruct (split_in_face fuv v _ _) as [|m5] eqn:H5; [done|]. cbn [py_bind].
  destruct (split_in_face fvu u _ _) as [|m9] eqn:H9; [done|]. cbn [py_bind].
  intros [= <- <-].
  apply split_in_face_frame in H5 as [Hv5 Hk5]. apply split_in_face_frame in H9 as [Hv9 Hk9].
  cbn [halfedge_set halfedge_del set_halfedge vertex max_int_key] in *.
  assert (Hv : vertex m9 = vertex m1) by congruence.
  assert (Hk : max_int_key m9 = max_int_key m1) by congruence.
  split_and!.
  - destruct Hg as (G1 & G2 & G3). unfold grown_from, keys_bounded.
    rewrite Hv, Hk. done.
  - intros w [= <-]. rewrite Hk, Hmax. lia.
  - done.
Qed.

Lemma add_face_frame (vs : list Z) (m : Mesh) :
  vertex (add_face vs m).1 = vertex m ∧
  max_int_key (add_face vs m).1 = max_int_key m.
Proof.
  rewrite add_face_unfold.
  destruct (add_face_steps_spec (max_int_fkey m + 1) (cycle_pairs vs)
              (mkMesh (vertex m) (<[max_int_fkey m + 1 := vs]> (face m)) (halfedge m)
                 (max_int_key m) (max_int_fkey m + 1))) as (H1 & _ & H3 & _).
  done.
Qed.

Lemma quad_face_grows (m0 subd subd' : Mesh) (fkey : Z) :
  quad_face m0 subd fkey = inr subd' → keys_bounded subd → grown_from subd subd'.
Proof.
  intros H Hb. revert H. unfold quad_face.
  destruct (face_halfedges subd fkey) as [|pairs]; [done|]. cbn [py_bind].
  destruct (face_centroid m0 fkey) as [|c]; [done|]. cbn [py_bind].
  destruct (add_vertex_grows c subd Hb) as (Hg & _ & _ & _).
  destruct (add_vertex c subd) as [subd1 key]. cbn [fst] in Hg.
  destruct (face_vertices m0 fkey) as [|vs]; [done|]. cbn [py_bind].
  assert (∀ vs s s',
            py_for vs
              (λ subd key0,
                 a <~ py_getitem (ancestor_of pairs) key0 ;
                 d <~ py_getitem (descendant_of pairs) key0 ;
                 inr (add_face [a; key0; d; key] subd).1) s = inr s' →
            vertex s' = vertex s ∧ max_int_key s' = max_int_key s) as Hloop.
  { clear. induction vs as [|k vs IH]; intros s s'; cbn [py_for].
    { by intros [= <-]. }
    destruct (py_getitem _ k) as [|a]; [done|]. cbn [py_bind].
    destruct (py_getitem _ k) as [|d]; [done|]. cbn [py_bind].
    intros H%IH. destruct (add_face_frame [a; k; d; key] s) as [H1 H2].
    destruct H as [-> ->]. done. }
  destruct (py_for vs _ subd1) as [|subd2] eqn:Hfor; [done|]. cbn [py_bind].
  apply Hloop in Hfor as [Hv Hk].
  unfold del_face. destruct (face subd2 !! fkey); [|done]. intros [= <-].
  eapply grown_from_trans; [exact Hg|].
  apply grown_from_frame; [done|done|]. by destruct Hg.
Qed.

Lemma py_for_grows {A} (xs : list A) (body : Mesh → A → py Mesh) (m m' : Mesh) :
  (∀ s x s', body s x = inr s' → keys_bounded s → grown_from s s') →
  py_for xs body m = inr m' → keys_bounded m → grown_from m m'.
Proof.
  intros Hbody. revert m. induction xs as [|x xs IH]; intros m; cbn [py_for].
  { intros [= <-]. apply grown_from_refl. }
  destruct (body m x) as [|m1] eqn:Hb; [done|]. cbn [py_bind].
  intros H Hm. pose proof (Hbody _ _ _ Hb Hm) as Hg.
  eapply grown_from_trans; [exact Hg|]. apply IH; [done|]. by destruct Hg.
Qed.

Lemma quad_level_grows (mesh subd : Mesh) :
  quad_level mesh = inr subd → keys_bounded mesh → grown_from mesh subd.
Proof.
  unfold quad_level, copy.
  destruct (py_for (halfedges mesh) _ mesh) as [|subd1] eqn:H1; [done|]. cbn [py_bind].
  intros H2 Hb.
  assert (grown_from mesh subd1) as Hg1.
  { eapply py_for_grows; [|exact H1|done].
    intros s [u v] s'. destruct (split_edge u v true s) as [|[s1 r]] eqn:Hs; [done|].
    cbn [py_bind fst]. intros [= <-] Hbs.
    by destruct (split_edge_grows u v true s s1 r Hs Hbs). }
  eapply grown_from_trans; [exact Hg1|].
  eapply py_for_grows; [|exact H2|by destruct Hg1].
  intros s f s'. apply quad_face_grows.
Qed.

(** Quad subdivision is interpolating: whatever the number of levels,
    every vertex of the input is a vertex of the result, with the same key
    and the same coordinates. *)
Theorem quad_keeps_vertices (mesh subd : Mesh) (k : Z) :
  keys_bounded mesh → mesh_subdivide_quad mesh k = inr subd →
  vertex mesh ⊆ vertex subd.
Proof.
  intros Hb H.
  assert (grown_from mesh subd) as (_ & Hsub & _); [|done].
  unfold mesh_subdivide_quad in H.
  eapply (py_for_grows (py_range k) (λ mesh _, quad_level mesh)); [|exact H|done].
  intros s _ s'. apply quad_level_grows.
Qed.

(** ** Catmull-Clark: fixed vertices *)

Lemma set_xyz_spec (key : Z) (c : xyz) (m m' : Mesh) :
  set_xyz key c m = inr m' →
  key ∈ dom (vertex m) ∧ vertex m' = <[key := c]> (vertex m) ∧
  max_int_key m' = max_int_key m.
Proof.
  unfold set_xyz. destruct (vertex m !! key) eqn:Hk; [|done].
  intros [= <-]. split; [by apply elem_of_dom|done].
Qed.

(** A mesh that differs from [m] in coordinates only, and not at the keys
    of [keep]. *)
Lemma set_xyz_bounded (key : Z) (c : xyz) (m m' : Mesh) :
  set_xyz key c m = inr m' → keys_bounded m → keys_bounded m'.
Proof.
  intros (Hin & Hv & Hk)%set_xyz_spec Hb. unfold keys_bounded. rewrite Hv, Hk.
  apply elem_of_dom in Hin as [c0 Hc0].
  apply map_Forall_insert_2; [by apply (Hb key c0)|done].
Qed.

Lemma cc_move_edgepoint_spec (key_xyz : gmap Z xyz) (m m' : Mesh) (w : Z) :
  cc_move_edgepoint key_xyz m w = inr m' →
  keys_bounded m → keys_bounded m' ∧
  max_int_key m' = max_int_key m ∧
  ∀ key, key ≠ w → vertex m' !! key = vertex m !! key.
Proof.
  unfold cc_move_edgepoint.
  destruct (neighbours m w) as [|nbrs]; [done|]. cbn [py_bind].
  destruct (py_map _ nbrs) as [|ps]; [done|]. cbn [py_bind].
  destruct (centroid_points ps) as [|c]; [done|]. cbn [py_bind].
  intros H Hb. split; [by eapply set_xyz_bounded|].
  apply set_xyz_spec in H as (_ & Hv & Hk). split; [done|].
  intros key Hne. rewrite Hv. by apply lookup_insert_ne.
Qed.

Lemma cc_move_vertex_spec (mesh : Mesh) (fixed bkeys : gset Z)
    (bkey_edgepoints : gmap Z (list Z)) (key_xyz : gmap Z xyz)
    (m m' : Mesh) (key0 : Z) :
  cc_move_vertex mesh fixed bkeys bkey_edgepoints key_xyz m key0 = inr m' →
  keys_bounded m → keys_bounded m' ∧
  max_int_key m' = max_int_key m ∧
  ∀ key, key ∈ fixed ∨ key ≠ key0 → vertex m' !! key = vertex m !! key.
Proof.
  unfold cc_move_vertex. case_bool_decide as Hf.
  { intros [= <-] Hb. done. }
  destruct (if bool_decide (key0 ∈ bkeys) then _ else _) as [|c]; [done|].
  cbn [py_bind]. intros H Hb. split; [by eapply set_xyz_bounded|].
  apply set_xyz_spec in H as (_ & Hv & Hk). split; [done|].
  intros key [Hin|Hne]; rewrite Hv; apply lookup_insert_ne; congruence.
Qed.

Lemma cc_edge_step_grows (bkeys : gset Z) (s s' : cc_edges) (e : Z * Z) (bound : Z) :
  cc_edge_step bkeys s e = inr s' → keys_bounded (cc_subd s) →
  bound ≤ max_int_key (cc_subd s) →
  (∀ w, w ∈ cc_edgepoints s → bound < w) →
  grown_from (cc_subd s) (cc_subd s') ∧
  (∀ w, w ∈ cc_edgepoints s' → bound < w).
Proof.
  destruct e as [u v]. unfold cc_edge_step.
  destruct (split_edge u v true (cc_subd s)) as [|[m1 r]] eqn:Hs; [done|].
  cbn [py_bind fst snd].
  destruct r as [w|]; [|done]. cbn [from_option py_bind].
  intros H Hb Hbound Heps.
  destruct (split_edge_grows u v true (cc_subd s) m1 (Some w) Hs Hb) as (Hg & Hw & _).
  destruct (Hw w eq_refl) as [_ Hlt].
  destruct (bool_decide (u ∈ bkeys) && bool_decide (v ∈ bkeys)).
  - destruct (dict_append u w _) as [|b1]; [done|]. cbn [py_bind] in H.
    destruct (dict_append v w b1) as [|b2]; [done|]. cbn [py_bind] in H.
    injection H as <-. done.
  - injection H as <-. cbn [cc_subd cc_edgepoints]. split; [done|].
    intros w' [Hin| ->%list_elem_of_singleton]%elem_of_app; [by apply Heps|lia].
Qed.

Lemma cc_edge_loop_grows (bkeys : gset Z) (es : list (Z * Z)) (s s' : cc_edges)
    (bound : Z) :
  py_for es (cc_edge_step bkeys) s = inr s' → keys_bounded (cc_subd s) →
  bound ≤ max_int_key (cc_subd s) →
  (∀ w, w ∈ cc_edgepoints s → bound < w) →
  grown_from (cc_subd s) (cc_subd s') ∧
  (∀ w, w ∈ cc_edgepoints s' → bound < w).
Proof.
  revert s. induction es as [|e es IH]; intros s; cbn [py_for].
  { intros [= <-] Hb _ Heps. split; [by apply grown_from_refl|done]. }
  destruct (cc_edge_step bkeys s e) as [|s1] eqn:Hstep; [done|]. cbn [py_bind].
  intros H Hb Hbound Heps.
  destruct (cc_edge_step_grows bkeys s s1 e bound Hstep Hb Hbound Heps) as [Hg1 Heps1].
  destruct (IH s1 H) as [Hg Heps']; [by destruct Hg1| |done|].
  { destruct Hg1 as (_ & _ & ?). lia. }
  split; [by eapply grown_from_trans|done].
Qed.

Lemma catmullclark_level_spec (fixed : gset Z) (mesh subd : Mesh) :
  catmullclark_level fixed mesh = inr subd → keys_bounded mesh →
  keys_bounded subd ∧ dom (vertex mesh) ⊆ dom (vertex subd) ∧
  ∀ key, key ∈ fixed → key ∈ dom (vertex mesh) →
         vertex subd !! key = vertex mesh !! key.
Proof.
  unfold catmullclark_level, copy. intros H Hb.
  destruct (py_for (halfedges mesh) _ _) as [|s] eqn:H1; [done|]. cbn [py_bind] in H.
  destruct (py_for (faces mesh) _ _) as [|subd1] eqn:H2; [done|]. cbn [py_bind] in H.
  destruct (py_for (cc_edgepoints s) _ _) as [|subd2] eqn:H3; [done|]. cbn [py_bind] in H.
  destruct (cc_edge_loop_grows _ _ _ _ (max_int_key mesh) H1) as [Hg1 Heps];
    [done|simpl; lia|by intros ? ?%elem_of_nil|].
  cbn [cc_subd] in Hg1.
  assert (grown_from (cc_subd s) subd1) as Hg2.
  { eapply py_for_grows; [|exact H2|by destruct Hg1].
    intros ? ? ?. apply quad_face_grows. }
  pose proof (grown_from_trans _ _ _ Hg1 Hg2) as (Hb1 & Hsub1 & Hmax1).
  (* edge points *)
  assert (∀ ws m m',
            py_for ws (cc_move_edgepoint (vertex subd1)) m = inr m' →
            keys_bounded m → keys_bounded m' ∧
            ∀ key, key ∉ ws → vertex m' !! key = vertex m !! key) as Hmove1.
  { clear. induction ws as [|w ws IH]; intros m m'; cbn [py_for].
    { by intros [= <-]. }
    destruct (cc_move_edgepoint _ m w) as [|m1] eqn:Hm; [done|]. cbn [py_bind].
    intros H Hb. destruct (cc_move_edgepoint_spec _ _ _ _ Hm Hb) as (Hb1 & _ & Hv1).
    destruct (IH _ _ H Hb1) as [Hb' Hv']. split; [done|].
    intros key Hkey. rewrite Hv' by set_solver. apply Hv1. set_solver. }
  destruct (Hmove1 _ _ _ H3 Hb1) as [Hb2 Hv2].
  (* original vertices *)
  assert (∀ keys m m',
            py_for keys
              (cc_move_vertex mesh fixed (list_to_set (vertices_on_boundary mesh))
                 (cc_bkey_edgepoints s) (vertex subd1)) m = inr m' →
            keys_bounded m → keys_bounded m' ∧
            (∀ key, key ∈ fixed ∨ key ∉ keys → vertex m' !! key = vertex m !! key) ∧
            dom (vertex m) ⊆ dom (vertex m')) as Hmove2.
  { clear. induction keys as [|k keys IH]; intros m m'; cbn [py_for].
    { by intros [= <-]. }
    destruct (cc_move_vertex _ _ _ _ _ m k) as [|m1] eqn:Hm; [done|]. cbn [py_bind].
    intros H Hb. destruct (cc_move_vertex_spec _ _ _ _ _ _ _ _ Hm Hb) as (Hb1 & _ & Hv1).
    destruct (IH _ _ H Hb1) as (Hb' & Hv' & Hd'). split; [done|]. split.
    - intros key Hkey. rewrite Hv' by set_solver. apply Hv1. set_solver.
    - etrans; [|exact Hd']. intros x Hx. apply elem_of_dom.
      destruct (decide (x = k)) as [->|Hne].
      + unfold cc_move_vertex in Hm. case_bool_decide; [by injection Hm as <-; apply elem_of_dom|].
        destruct (if bool_decide (k ∈ _) then _ else _) as [|c]; [done|].
        cbn [py_bind] in Hm. apply set_xyz_spec in Hm as (_ & -> & _).
        by rewrite lookup_insert_eq.
      + rewrite Hv1 by auto. by apply elem_of_dom. }
  destruct (Hmove2 _ _ _ H Hb2) as (Hb3 & Hv3 & Hd3).
  split; [done|]. split.
  - etrans; [|exact Hd3]. intros x Hx. apply elem_of_dom.
    assert (x ∉ cc_edgepoints s) as Hne.
    { intros Hin%Heps. apply elem_of_dom in Hx as [c Hc]. specialize (Hb _ _ Hc).
      simpl in Hb. lia. }
    rewrite Hv2 by done. apply elem_of_dom in Hx as [c Hc].
    exists c. by eapply lookup_weaken.
  - intros key Hfix Hin. rewrite Hv3 by auto.
    assert (key ∉ cc_edgepoints s) as Hne.
    { intros Hin'%Heps. apply elem_of_dom in Hin as [c Hc]. specialize (Hb _ _ Hc).
      simpl in Hb. lia. }
    rewrite Hv2 by done. apply elem_of_dom in Hin as [c Hc].
    rewrite Hc. by eapply lookup_weaken.
Qed.

(** A vertex listed in [fixed] keeps its coordinates through every level
    of Catmull-Clark subdivision. *)
Theorem catmullclark_fixed_vertices_stay
    (mesh subd : Mesh) (k : Z) (fixed : list Z) (key : Z) :
  keys_bounded mesh → key ∈ fixed → key ∈ dom (vertex mesh) →
  mesh_subdivide_catmullclark mesh k (Some fixed) = inr subd →
  vertex subd !! key = vertex mesh !! key.
Proof.
  intros Hb Hfix Hin. unfold mesh_subdivide_catmullclark. cbn [default].
  generalize (py_range k). intros levels. revert mesh Hb Hin.
  induction levels as [|x levels IH]; intros mesh Hb Hin; cbn [py_for].
  { by intros [= <-]. }
  destruct (catmullclark_level _ mesh) as [|mesh1] eqn:Hlevel; [done|]. cbn [py_bind].
  destruct (catmullclark_level_spec _ _ _ Hlevel Hb) as (Hb1 & Hd1 & Hv1).
  intros H. rewrite <- Hv1; [|by apply elem_of_list_to_set|done].
  apply IH; [done| |done]. by apply Hd1.
Qed.

Lemma quad_keeps_vertices_witness :
  keys_bounded square ∧
  ∃ subd, mesh_subdivide_quad square 2 = inr subd ∧ vertex square ⊆ vertex subd.
Proof.
  assert (Hb : keys_bounded square)
    by (apply (bool_decide_unpack _); vm_compute; reflexivity).
  split; [exact Hb|].
  destruct (mesh_subdivide_quad square 2) as [e|subd] eqn:H.
  - exfalso. vm_compute in H. discriminate H.
  - exists subd. split; [reflexivity|].
    exact (quad_keeps_vertices square subd 2 Hb H).
Defined.

Lemma catmullclark_fixed_vertices_stay_witness :
  keys_bounded square ∧ 2 ∈ [0; 2] ∧ 2 ∈ dom (vertex square) ∧
  ∃ subd, mesh_subdivide_catmullclark square 2 (Some [0; 2]) = inr subd ∧
          vertex subd !! 2 = vertex square !! 2 ∧
          vertex subd !! 1 ≠ vertex square !! 1.
Proof.
  assert (Hb : keys_bounded square)
    by (apply (bool_decide_unpack _); vm_compute; reflexivity).
  assert (H2 : 2 ∈ [0; 2]) by (apply (bool_decide_unpack _); vm_compute; reflexivity).
  assert (Hd : 2 ∈ dom (vertex square))
    by (apply (bool_decide_unpack _); vm_compute; reflexivity).
  split; [exact Hb|]. split; [exact H2|]. split; [exact Hd|].
  destruct (mesh_subdivide_catmullclark square 2 (Some [0; 2])) as [e|subd] eqn:H.
  - exfalso. vm_compute in H. discriminate H.
  - exists subd. split; [reflexivity|]. split.
    + exact (catmullclark_fixed_vertices_stay square subd 2 [0; 2] 2 Hb H2 Hd H).
    + intros Heq. vm_compute in H. injection H as <-. vm_compute in Heq. discriminate Heq.
Defined.

(* ===================================================================== *)
(** * Corner subdivision: counting                                         *)
(* ===================================================================== *)

Lemma corner_corners_spec (anc desc : gmap Z Z) (vs0 : list Z) (subd : Mesh)
    (center0 : list Z) :
  topo_inv subd →
  (∀ key, key ∈ vs0 →
          key ∈ dom (vertex subd) ∧
          ∃ a d, anc !! key = Some a ∧ desc !! key = Some d ∧
                 a ∈ dom (vertex subd) ∧ d ∈ dom (vertex subd)) →
  ∃ subd' center,
    py_for vs0 (corner_step anc desc) (subd, center0) = inr (subd', center0 ++ center) ∧
    length center = length vs0 ∧
    (∀ x, x ∈ center → x ∈ dom (vertex subd)) ∧
    topo_inv subd' ∧ vertex subd' = vertex subd ∧
    max_int_fkey subd ≤ max_int_fkey subd' ∧
    size (face subd') = (size (face subd) + length vs0)%nat ∧
    (∀ f, f ≤ max_int_fkey subd → face subd' !! f = face subd !! f) ∧
    (∀ f vs, face subd' !! f = Some vs → max_int_fkey subd < f → length vs = 3%nat) ∧
    (∀ a, has_row subd a → has_row subd' a).
Proof.
  revert subd center0. induction vs0 as [|key vs0 IH]; intros subd center0 Ht Hkeys.
  { exists subd, []. cbn [py_for]. rewrite app_nil_r.
    split_and!; [done|done|by intros ? ?%elem_of_nil|done|done|lia|simpl; lia|done| |done].
    intros f vs Hf Hlt. destruct Ht as (_ & _ & _ & Hfk).
    apply elem_of_dom_2, Hfk in Hf. lia. }
  destruct (Hkeys key) as (Hkey & a & d & Ha & Hd & Hain & Hdin);
    [by apply elem_of_cons; left|].
  cbn [py_for]. unfold corner_step at 1. unfold py_getitem at 1 2.
  rewrite Ha, Hd. cbn [py_bind fst snd].
  destruct (add_face_spec [a; key; d] subd Ht)
    as (Hfresh & Hv & Hf & Hmf & Ht1 & Hrows).
  { intros x Hx. repeat (apply elem_of_cons in Hx as [->|Hx]; [done|]).
    by apply elem_of_nil in Hx. }
  set (subd1 := (add_face [a; key; d] subd).1) in *.
  destruct (IH subd1 (center0 ++ [a]) Ht1)
    as (subd' & center & Hfor & Hlen & Hcin & Ht' & Hv' & Hmf' & Hsz' & Hold' & Hnew' & Hrows').
  { intros k Hk. rewrite Hv. apply Hkeys. by apply elem_of_cons; right. }
  exists subd', (a :: center). split_and!.
  - rewrite Hfor. f_equal. f_equal. by rewrite <- app_assoc.
  - simpl. by rewrite Hlen.
  - intros x [->|Hx]%elem_of_cons; [done|]. rewrite <- Hv. by apply Hcin.
  - done.
  - congruence.
  - lia.
  - rewrite Hsz', Hf, map_size_insert_None by (by apply not_elem_of_dom).
    simpl. lia.
  - intros f Hle. rewrite Hold' by lia. rewrite Hf.
    apply lookup_insert_ne. lia.
  - intros f vs Hfvs Hlt.
    destruct (decide (f ≤ max_int_fkey subd1)) as [Hle|Hgt].
    + rewrite Hold' in Hfvs by done. rewrite Hf in Hfvs.
      assert (f = max_int_fkey subd + 1) as -> by lia.
      rewrite lookup_insert_eq in Hfvs. by injection Hfvs as <-.
    + eapply Hnew'; [done|lia].
  - auto.
Qed.

Lemma corner_face_spec (m0 subd : Mesh) (fkey : Z) (vs0 vs' : list Z) :
  valid_mesh m0 → topo_inv subd → fkey ≤ max_int_fkey subd →
  face m0 !! fkey = Some vs0 → face subd !! fkey = Some vs' → vs0 ⊆ vs' →
  ∃ subd', corner_face m0 subd fkey = inr subd' ∧ topo_inv subd' ∧
           vertex subd' = vertex subd ∧
           max_int_fkey subd ≤ max_int_fkey subd' ∧
           size (face subd') = (size (face subd) + length vs0)%nat ∧
           face subd' !! fkey = None ∧
           (∀ f, f ≠ fkey → f ≤ max_int_fkey subd → face subd' !! f = face subd !! f) ∧
           (∀ f vs, face subd' !! f = Some vs → max_int_fkey subd < f →
                    length vs = 3%nat ∨ length vs = length vs0).
Proof.
  intros Hvalid Ht Hle Hf0 Hf' Hsub.
  unfold corner_face, face_halfedges, face_vertices, py_getitem at 1.
  rewrite Hf'. cbn [py_bind].
  unfold py_getitem at 1. rewrite Hf0. cbn [py_bind].
  assert (Hvs' : ∀ x, x ∈ vs' → x ∈ dom (vertex subd)).
  { intros x Hx. destruct Ht as (_ & _ & Hff & _). by eapply Hff. }
  destruct (corner_corners_spec (ancestor_of (cycle_pairs vs'))
              (descendant_of (cycle_pairs vs')) vs0 subd [] Ht)
    as (subd2 & center & -> & Hlen & Hcin & Ht2 & Hv2 & Hmf2 & Hsz2 & Hold2 & Hnew2 & _).
  { intros key Hkey%Hsub. split; [by apply Hvs'|].
    destruct (ancestor_of_spec (cycle_pairs vs') key) as (a & Ha & Hap).
    { by apply cycle_pairs_snd. }
    destruct (descendant_of_spec (cycle_pairs vs') key) as (d & Hd & Hdp).
    { by rewrite cycle_pairs_fst. }
    exists a, d. split_and!; [done|done|..].
    - apply Hvs'. by apply elem_of_cycle_pairs in Hap as [??].
    - apply Hvs'. by apply elem_of_cycle_pairs in Hdp as [??]. }
  cbn [py_bind fst snd app].
  destruct (add_face_spec center subd2 Ht2)
    as (Hfresh3 & Hv3 & Hf3 & Hmf3 & Ht3 & _).
  { intros x Hx. rewrite Hv2. by apply Hcin. }
  set (subd3 := (add_face center subd2).1) in *.
  assert (Hfk3 : face subd3 !! fkey = Some vs').
  { rewrite Hf3, lookup_insert_ne by lia. rewrite Hold2 by lia. done. }
  unfold del_face. rewrite Hfk3.
  eexists. split; [done|]. simpl.
  split_and!.
  - destruct Ht3 as (H1 & H2 & H3 & H4). unfold topo_inv. simpl. split_and!; try done.
    + intros fk vs x Hfk Hx. apply lookup_delete_Some in Hfk as [_ Hfk]. by eapply H3.
    + intros fk Hfk. apply H4. rewrite dom_delete_L in Hfk. set_solver.
  - congruence.
  - lia.
  - rewrite map_size_delete_Some by (by eexists).
    rewrite Hf3, map_size_insert_None by (by apply not_elem_of_dom).
    rewrite Hsz2. simpl. lia.
  - apply lookup_delete_eq.
  - intros f Hfne Hfle. rewrite lookup_delete_ne by done.
    rewrite Hf3, lookup_insert_ne by lia. by apply Hold2.
  - intros f vs Hfvs Hlt. apply lookup_delete_Some in Hfvs as [_ Hfvs].
    rewrite Hf3 in Hfvs.
    destruct (decide (f = max_int_fkey subd2 + 1)) as [->|Hne].
    + rewrite lookup_insert_eq in Hfvs. injection Hfvs as <-. right. done.
    + rewrite lookup_insert_ne in Hfvs by done. left.
      destruct (decide (f ≤ max_int_fkey subd2)) as [Hle2|Hgt2].
      * eapply Hnew2; [done|lia].
      * destruct Ht2 as (_ & _ & _ & Hfk). apply elem_of_dom_2, Hfk in Hfvs. lia.
Qed.

Lemma corner_face_loop (m0 : Mesh) (rest : list Z) (subd : Mesh) :
  valid_mesh m0 → NoDup rest → topo_inv subd →
  max_int_fkey m0 ≤ max_int_fkey subd →
  (∀ f, f ∈ rest → ∃ vs0 vs', face m0 !! f = Some vs0 ∧
                               face subd !! f = Some vs' ∧ vs0 ⊆ vs') →
  (∀ f vs, face subd !! f = Some vs →
           f ∈ rest ∨ (max_int_fkey m0 < f ∧ corner_cut_face m0 vs)) →
  ∃ subd', py_for rest (corner_face m0) subd = inr subd' ∧ topo_inv subd' ∧
           vertex subd' = vertex subd ∧
           size (face subd') = (size (face subd) + deg_sum m0 rest)%nat ∧
           (∀ f vs, face subd' !! f = Some vs → corner_cut_face m0 vs).
Proof.
  intros Hvalid. revert subd.
  induction rest as [|fkey rest IH]; intros subd Hnd Ht Hmax Hpre Hcut.
  { exists subd. cbn [py_for].
    split_and!; [done|done|done|unfold deg_sum; simpl; lia|].
    intros f vs Hf. destruct (Hcut f vs Hf) as [?%elem_of_nil|[_ ?]]; done. }
  apply NoDup_cons in Hnd as [Hnotin Hnd].
  destruct (Hpre fkey) as (vs0 & vs' & Hf0 & Hf' & Hsub); [by apply elem_of_cons; left|].
  destruct (valid_mesh_he m0 Hvalid) as (_ & _ & Hfaces).
  assert (Hbound : ∀ f, f ∈ fkey :: rest → f ≤ max_int_fkey m0).
  { intros f Hf. destruct (Hpre f Hf) as (v0 & _ & Hv0 & _). by eapply Hfaces. }
  destruct (corner_face_spec m0 subd fkey vs0 vs' Hvalid Ht)
    as (subd1 & Hstep & Ht1 & Hv1 & Hmf1 & Hfsz1 & Hgone & Hold1 & Hnew1);
    [|done..|].
  { assert (fkey ≤ max_int_fkey m0) by (apply Hbound; by apply elem_of_cons; left). lia. }
  destruct (IH subd1 Hnd Ht1) as (subd' & Hloop & Ht' & Hv' & Hfsz' & Hq').
  { lia. }
  { intros f Hf. destruct (Hpre f) as (v0 & v' & H0 & H' & Hs); [by apply elem_of_cons; right|].
    exists v0, v'. split_and!; [done| |done].
    rewrite Hold1; [done|by intros ->|].
    assert (f ≤ max_int_fkey m0) by (apply Hbound; by apply elem_of_cons; right). lia. }
  { intros f vs Hf. destruct (decide (f = fkey)) as [->|Hne]; [congruence|].
    destruct (decide (f ≤ max_int_fkey subd)) as [Hle|Hgt].
    - rewrite Hold1 in Hf by done. destruct (Hcut f vs Hf) as [Hin|?]; [|by right].
      apply elem_of_cons in Hin as [?|?]; [done|by left].
    - right. split; [lia|]. destruct (Hnew1 f vs Hf) as [H3|Hn]; [lia|by left|].
      right. by exists fkey, vs0. }
  exists subd'. split_and!.
  - cbn [py_for]. rewrite Hstep. done.
  - done.
  - congruence.
  - unfold deg_sum in *. cbn [fmap list_fmap sum_list length]. rewrite Hf0. simpl.
    simpl in Hfsz'. lia.
  - done.
Qed.

(** One level of corner subdivision on a well-formed mesh of polygons with
    V vertices, E edges and F faces returns a mesh of polygons with V + E
    vertices and one face per corner plus one per face; each face is a
    corner triangle or has as many corners as a face of the input. *)
Theorem corner_counts (mesh : Mesh) :
  valid_mesh mesh → faces_are_polygons mesh →
  ∃ subd, mesh_subdivide_corner mesh 1 = inr subd ∧
          number_of_vertices subd = number_of_vertices mesh + number_of_edges mesh ∧
          number_of_faces subd = face_degree_sum mesh + number_of_faces mesh ∧
          faces_are_polygons subd ∧
          (∀ fkey vs, face subd !! fkey = Some vs → corner_cut_face mesh vs).
Proof.
  intros Hvalid Hpoly.
  destruct (halfedges_spec mesh Hvalid) as (Hready & Hapart & _).
  destruct (cc_edge_loop mesh ∅ (halfedges mesh) (cc_start mesh ∅))
    as (s & _ & Hs & Hq & Hsz & _);
    [by apply edge_state_start|done|done|].
  destruct Hs as (Ht & _ & Hmf & Hfd & Hfs & _).
  cbn [cc_start cc_subd] in Hq, Hsz.
  destruct (corner_face_loop mesh (faces mesh) (cc_subd s) Hvalid)
    as (subd & Hfl & _ & Hv & Hfsz & Hcut).
  { apply NoDup_fst_map_to_list. }
  { done. }
  { lia. }
  { intros f [vs0 Hf0]%elem_of_faces%elem_of_dom.
    destruct (Hfs f vs0 Hf0) as (vs' & ? & ?). eauto. }
  { intros f vs Hf. left. apply elem_of_faces. rewrite <- Hfd. by apply elem_of_dom_2 in Hf. }
  exists subd. split_and!.
  - unfold mesh_subdivide_corner. change (py_range 1) with [0]. cbn [py_for].
    unfold corner_level, copy.
    change (py_for (halfedges mesh) _ mesh)
      with (py_for (halfedges mesh) quad_edge_step mesh).
    rewrite Hq. cbn [py_bind]. by rewrite Hfl.
  - unfold number_of_vertices, number_of_edges. rewrite Hv, Hsz.
    unfold halfedges. lia.
  - rewrite <- deg_sum_faces. unfold number_of_faces.
    rewrite Hfsz. rewrite <- !size_dom, Hfd. lia.
  - intros f vs Hf. simpl.
    destruct (Hcut f vs Hf) as [->|(f0 & vs0 & Hf0 & ->)]; [lia|].
    apply (Hpoly f0 vs0 Hf0).
  - done.
Qed.

Lemma corner_counts_witness :
  valid_mesh square ∧ faces_are_polygons square ∧
  ∃ subd, mesh_subdivide_corner square 1 = inr subd ∧
          number_of_vertices subd = 4 + 4 ∧ number_of_faces subd = 4 + 1.
Proof.
  assert (Hvalid : valid_mesh square)
    by (apply (bool_decide_unpack _); vm_compute; reflexivity).
  assert (Hpoly : faces_are_polygons square)
    by (apply (bool_decide_unpack _); vm_compute; reflexivity).
  split; [exact Hvalid|]. split; [exact Hpoly|].
  destruct (corner_counts square Hvalid Hpoly) as (subd & Hs & Hv & Hf & _).
  exists subd. split; [exact Hs|]. split; [exact Hv|exact Hf].
Defined.

(* ===================================================================== *)
(** * Corner subdivision: the vertices of the input                        *)
(* ===================================================================== *)

Lemma corner_face_grows (m0 subd subd' : Mesh) (fkey : Z) :
  corner_face m0 subd fkey = inr subd' → keys_bounded subd → grown_from subd subd'.
Proof.
  intros H Hb. revert H. unfold corner_face.
  destruct (face_halfedges subd fkey) as [|pairs]; [done|]. cbn [py_bind].
  destruct (face_vertices m0 fkey) as [|vs]; [done|]. cbn [py_bind].
  assert (∀ vs s s',
            py_for vs (corner_step (ancestor_of pairs) (descendant_of pairs)) s = inr s' →
            vertex s'.1 = vertex s.1 ∧ max_int_key s'.1 = max_int_key s.1) as Hloop.
  { clear. induction vs as [|k vs IH]; intros s s'; cbn [py_for].
    { by intros [= <-]. }
    unfold corner_step at 1.
    destruct (py_getitem _ k) as [|a]; [done|]. cbn [py_bind].
    destruct (py_getitem _ k) as [|d]; [done|]. cbn [py_bind].
    intros H%IH. cbn [fst] in H. destruct (add_face_frame [a; k; d] s.1) as [H1 H2].
    destruct H as [H3 H4]. split; congruence. }
  destruct (py_for vs _ (subd, [])) as [|s] eqn:Hfor; [done|]. cbn [py_bind].
  apply Hloop in Hfor as [Hv Hk]. cbn [fst] in Hv, Hk.
  destruct (add_face_frame s.2 s.1) as [Hv' Hk']. cbv zeta.
  set (m3 := (add_face s.2 s.1).1) in *.
  unfold del_face. destruct (face m3 !! fkey); [|done]. intros [= <-].
  apply grown_from_frame; [simpl; congruence|simpl; congruence|done].
Qed.

(** Corner subdivision is interpolating and adds edge points only: for
    any number of levels, if it returns on a mesh whose vertex keys do not
    exceed the vertex counter, every vertex of the input is a vertex of
    the result with the same key and the same coordinates. *)
Theorem corner_keeps_vertices (mesh subd : Mesh) (k : Z) :
  keys_bounded mesh → mesh_subdivide_corner mesh k = inr subd →
  vertex mesh ⊆ vertex subd.
Proof.
  intros Hb H.
  assert (grown_from mesh subd) as (_ & Hsub & _); [|done].
  unfold mesh_subdivide_corner in H.
  eapply (py_for_grows (py_range k) (λ mesh _, corner_level mesh)); [|exact H|done].
  clear. intros mesh _ subd. unfold corner_level, copy.
  destruct (py_for (halfedges mesh) _ mesh) as [|subd1] eqn:H1; [done|]. cbn [py_bind].
  intros H2 Hb.
  assert (grown_from mesh subd1) as Hg1.
  { eapply py_for_grows; [|exact H1|done].
    intros s [u v] s'. destruct (split_edge u v true s) as [|[s1 r]] eqn:Hs; [done|].
    cbn [py_bind fst]. intros [= <-] Hbs.
    by destruct (split_edge_grows u v true s s1 r Hs Hbs). }
  eapply grown_from_trans; [exact Hg1|].
  eapply py_for_grows; [|exact H2|by destruct Hg1].
  intros s f s'. apply corner_face_grows.
Qed.

Lemma corner_keeps_vertices_witness :
  keys_bounded square ∧
  ∃ subd, mesh_subdivide_corner square 2 = inr subd ∧ vertex square ⊆ vertex subd.
Proof.
  assert (Hb : keys_bounded square)
    by (apply (bool_decide_unpack _); vm_compute; reflexivity).
  split; [exact Hb|].
  destruct (mesh_subdivide_corner square 2) as [e|subd] eqn:H.
  - exfalso. vm_compute in H. discriminate H.
  - exists subd. split; [reflexivity|].
    exact (corner_keeps_vertices square subd 2 Hb H).
Defined.

(* ===================================================================== *)
(** * Catmull-Clark is quad subdivision with other coordinates             *)
(* ===================================================================== *)

Lemma same_connectivity_refl (m : Mesh) : same_connectivity m m.
Proof. by split. Qed.

Lemma same_connectivity_intro (vt vt' : gmap Z xyz) fc h k fk :
  dom vt' = dom vt →
  same_connectivity (mkMesh vt fc h k fk) (mkMesh vt' fc h k fk).
Proof. intros Hd. split; [|done]. by split_and!. Qed.

Lemma same_connectivity_inv (m m' : Mesh) :
  same_connectivity m m' →
  ∃ vt', dom vt' = dom (vertex m) ∧
         m' = mkMesh vt' (face m) (halfedge m) (max_int_key m) (max_int_fkey m).
Proof.
  intros ((Hh & Hf & Hd) & Hk & Hfk). exists (vertex m'). split; [done|].
  destruct m'. simpl in *. by subst.
Qed.

Lemma halfedges_same (m m' : Mesh) :
  same_connectivity m m' → halfedges m' = halfedges m.
Proof.
  intros ((Hh & _) & _). unfold halfedges, edges, directed_pairs. by rewrite Hh.
Qed.

Lemma faces_same (m m' : Mesh) :
  same_connectivity m m' → faces m' = faces m.
Proof. intros ((_ & Hf & _) & _). unfold faces. by rewrite Hf. Qed.

Lemma vertex_coordinates_same (m m' : Mesh) (key : Z) (c' : xyz) :
  same_connectivity m m' → vertex_coordinates m' key = inr c' →
  ∃ c, vertex_coordinates m key = inr c.
Proof.
  intros ((_ & _ & Hd) & _). unfold vertex_coordinates, py_getitem.
  destruct (vertex m' !! key) eqn:H'; [|done]. intros _.
  assert (key ∈ dom (vertex m)) as [c Hc]%elem_of_dom.
  { rewrite <- Hd. by apply elem_of_dom. }
  exists c. by rewrite Hc.
Qed.

Lemma halfedge_get_same (m m' : Mesh) (u v : Z) :
  same_connectivity m m' → halfedge_get m' u v = halfedge_get m u v.
Proof. intros ((Hh & _) & _). unfold halfedge_get. by rewrite Hh. Qed.

Lemma halfedge_set_same (u v : Z) (f : option Z) (m m' : Mesh) :
  same_connectivity m m' →
  same_connectivity (halfedge_set u v f m) (halfedge_set u v f m').
Proof.
  intros ((Hh & Hf & Hd) & Hk & Hfk). unfold same_connectivity, same_topology.
  simpl. by rewrite Hh.
Qed.

Lemma halfedge_del_same (u v : Z) (m m' : Mesh) :
  same_connectivity m m' →
  same_connectivity (halfedge_del u v m) (halfedge_del u v m').
Proof.
  intros ((Hh & Hf & Hd) & Hk & Hfk). unfold same_connectivity, same_topology.
  simpl. by rewrite Hh.
Qed.

Lemma add_vertex_same (c c' : xyz) (m m' : Mesh) :
  same_connectivity m m' →
  same_connectivity (add_vertex c m).1 (add_vertex c' m').1 ∧
  (add_vertex c' m').2 = (add_vertex c m).2.
Proof.
  intros ((Hh & Hf & Hd) & Hk & Hfk). unfold same_connectivity, same_topology.
  simpl. rewrite Hh, Hk, !dom_insert_L, Hd. done.
Qed.

Lemma split_in_face_same (f : option Z) (v w : Z) (m m' m1' : Mesh) :
  same_connectivity m m' → split_in_face f v w m' = inr m1' →
  ∃ m1, split_in_face f v w m = inr m1 ∧ same_connectivity m1 m1'.
Proof.
  intros HR. pose proof HR as ((Hh & Hf & Hd) & Hk & Hfk).
  destruct f as [fkey|]; simpl; [|intros [= <-]; by exists m].
  rewrite Hf. destruct (py_getitem (face m) fkey) as [|vs]; [done|]. simpl.
  destruct (insert_before v w vs) as [|vs']; [done|]. simpl.
  intros [= <-]. eexists. split; [done|].
  unfold same_connectivity, same_topology. simpl. by rewrite Hf.
Qed.

Lemma split_edge_same (u v : Z) (a : bool) (m m' m1' : Mesh) (r : option Z) :
  same_connectivity m m' → split_edge u v a m' = inr (m1', r) →
  ∃ m1, split_edge u v a m = inr (m1, r) ∧ same_connectivity m1 m1'.
Proof.
  intros HR. unfold split_edge.
  rewrite !(halfedge_get_same m m') by done.
  destruct (halfedge_get m u v) as [|fuv]; [done|]. cbn [py_bind].
  destruct (halfedge_get m v u) as [|fvu]; [done|]. cbn [py_bind].
  destruct (negb a && _).
  { intros [= <- <-]. by exists m. }
  destruct (vertex_coordinates m' u) as [|cu'] eqn:Hu; [done|].
  destruct (vertex_coordinates_same _ _ u cu' HR Hu) as [cu ->].
  cbn [py_bind].
  destruct (vertex_coordinates m' v) as [|cv'] eqn:Hv; [done|].
  destruct (vertex_coordinates_same _ _ v cv' HR Hv) as [cv ->].
  cbn [py_bind].
  destruct (add_vertex_same (midpoint cu cv) (midpoint cu' cv') m m' HR) as [HR1 Hkey].
  destruct (add_vertex (midpoint cu' cv') m') as [s1' w'].
  destruct (add_vertex (midpoint cu cv) m) as [s1 w].
  cbn [fst snd] in HR1, Hkey. subst w'. cbv zeta.
  set (m4' := halfedge_del u v (halfedge_set w v fuv (halfedge_set u w fuv s1'))).
  set (m4 := halfedge_del u v (halfedge_set w v fuv (halfedge_set u w fuv s1))).
  assert (same_connectivity m4 m4') as HR4
    by (by apply halfedge_del_same, halfedge_set_same, halfedge_set_same).
  destruct (split_in_face fuv v w m4') as [|m5'] eqn:H5; [done|].
  destruct (split_in_face_same _ _ _ _ _ _ HR4 H5) as (m5 & -> & HR5).
  cbn [py_bind].
  set (m8' := halfedge_del v u (halfedge_set w u fvu (halfedge_set v w fvu m5'))).
  set (m8 := halfedge_del v u (halfedge_set w u fvu (halfedge_set v w fvu m5))).
  assert (same_connectivity m8 m8') as HR8
    by (by apply halfedge_del_same, halfedge_set_same, halfedge_set_same).
  destruct (split_in_face fvu u w m8') as [|m9'] eqn:H9; [done|].
  destruct (split_in_face_same _ _ _ _ _ _ HR8 H9) as (m9 & -> & HR9).
  cbn [py_bind]. intros [= <- <-]. by exists m9.
Qed.

Lemma add_face_step_same (fkey : Z) (m m' : Mesh) (e : Z * Z) :
  same_connectivity m m' →
  same_connectivity (add_face_step fkey m e) (add_face_step fkey m' e).
Proof.
  intros HR. destruct e as [u v]. unfold add_face_step.
  pose proof (halfedge_set_same u v (Some fkey) m m' HR) as HR1.
  rewrite (halfedge_get_same _ _ v u HR1).
  destruct (halfedge_get _ v u); [by apply halfedge_set_same|done].
Qed.

Lemma add_face_same (vs : list Z) (m m' : Mesh) :
  same_connectivity m m' →
  same_connectivity (add_face vs m).1 (add_face vs m').1.
Proof.
  intros HR. rewrite !add_face_unfold.
  pose proof HR as ((Hh & Hf & Hd) & Hk & Hfk).
  rewrite Hfk.
  assert (same_connectivity
            (mkMesh (vertex m) (<[max_int_fkey m + 1 := vs]> (face m)) (halfedge m)
               (max_int_key m) (max_int_fkey m + 1))
            (mkMesh (vertex m') (<[max_int_fkey m + 1 := vs]> (face m')) (halfedge m')
               (max_int_key m') (max_int_fkey m + 1))) as H0.
  { unfold same_connectivity, same_topology. simpl. by rewrite Hh, Hf. }
  revert H0.
  generalize (mkMesh (vertex m) (<[max_int_fkey m + 1 := vs]> (face m)) (halfedge m)
               (max_int_key m) (max_int_fkey m + 1)).
  generalize (mkMesh (vertex m') (<[max_int_fkey m + 1 := vs]> (face m')) (halfedge m')
               (max_int_key m') (max_int_fkey m + 1)).
  induction (cycle_pairs vs) as [|e ps IH]; intros b a Hab; [done|].
  cbn [foldl]. apply IH. by apply add_face_step_same.
Qed.

Lemma face_centroid_same (m m' : Mesh) (fkey : Z) (c' : xyz) :
  same_connectivity m m' → face_centroid m' fkey = inr c' →
  ∃ c, face_centroid m fkey = inr c.
Proof.
  intros HR. pose proof HR as ((_ & Hf & Hd) & _).
  unfold face_centroid, face_vertices. rewrite Hf.
  destruct (py_getitem (face m) fkey) as [|vs]; [done|]. cbn [py_bind].
  destruct (py_map (vertex_coordinates m') vs) as [|ps'] eqn:Hps'; [done|].
  cbn [py_bind]. intros Hc.
  assert (∃ ps, py_map (vertex_coordinates m) vs = inr ps ∧ length ps = length ps')
    as (ps & -> & Hlen).
  { clear Hc. revert ps' Hps'. induction vs as [|x vs IH]; intros ps'; simpl.
    { intros [= <-]. by exists []. }
    destruct (vertex_coordinates m' x) as [|c0'] eqn:Hx; [done|]. simpl.
    destruct (vertex_coordinates_same _ _ x c0' HR Hx) as [c0 ->]. simpl.
    destruct (py_map (vertex_coordinates m') vs) as [|ps0']; [done|]. simpl.
    intros [= <-]. destruct (IH ps0' eq_refl) as (ps0 & -> & Hlen). simpl.
    exists (c0 :: ps0). split; [done|]. simpl. by rewrite Hlen. }
  cbn [py_bind]. apply centroid_points_ok. intros ->.
  destruct ps'; [done|]. done.
Qed.

Lemma quad_face_same (m0 m0' subd subd' subd1' : Mesh) (fkey : Z) :
  same_connectivity m0 m0' → same_connectivity subd subd' →
  quad_face m0' subd' fkey = inr subd1' →
  ∃ subd1, quad_face m0 subd fkey = inr subd1 ∧ same_connectivity subd1 subd1'.
Proof.
  intros HR0 HR. unfold quad_face, face_halfedges, face_vertices.
  pose proof HR0 as ((_ & Hf0 & _) & _). pose proof HR as ((_ & Hf & _) & _).
  rewrite Hf, Hf0.
  destruct (py_getitem (face subd) fkey) as [|vs']; [done|]. cbn [py_bind].
  destruct (face_centroid m0' fkey) as [|c'] eqn:Hc'; [done|].
  destruct (face_centroid_same _ _ _ _ HR0 Hc') as [c ->]. cbn [py_bind].
  destruct (add_vertex_same c c' subd subd' HR) as [HR1 Hkey].
  destruct (add_vertex c' subd') as [s1' key']. destruct (add_vertex c subd) as [s1 key].
  cbn [fst snd] in HR1, Hkey. subst key'.
  destruct (py_getitem (face m0) fkey) as [|vs]; [done|]. cbn [py_bind].
  assert (∀ vs a a' b',
            same_connectivity a a' →
            py_for vs
              (λ subd key0,
                 x <~ py_getitem (ancestor_of (cycle_pairs vs')) key0 ;
                 d <~ py_getitem (descendant_of (cycle_pairs vs')) key0 ;
                 inr (add_face [x; key0; d; key] subd).1) a' = inr b' →
            ∃ b, py_for vs
                   (λ subd key0,
                      x <~ py_getitem (ancestor_of (cycle_pairs vs')) key0 ;
                      d <~ py_getitem (descendant_of (cycle_pairs vs')) key0 ;
                      inr (add_face [x; key0; d; key] subd).1) a = inr b ∧
                 same_connectivity b b') as Hloop.
  { clear. induction vs as [|k vs IH]; intros a a' b' Ha; cbn [py_for].
    { intros [= <-]. by exists a. }
    destruct (py_getitem _ k) as [|x]; [done|]. cbn [py_bind].
    destruct (py_getitem _ k) as [|d]; [done|]. cbn [py_bind].
    apply IH. by apply add_face_same. }
  destruct (py_for vs _ s1') as [|s2'] eqn:H2; [done|].
  destruct (Hloop _ _ _ _ HR1 H2) as (s2 & -> & HR2). cbn [py_bind].
  unfold del_face. pose proof HR2 as ((Hh2 & Hf2 & Hd2) & Hk2 & Hfk2).
  rewrite Hf2. destruct (face s2 !! fkey); [|done]. intros [= <-].
  eexists. split; [done|].
  unfold same_connectivity, same_topology. simpl. by rewrite Hf2.
Qed.

Lemma py_for_same {A} (xs : list A) (body body' : Mesh → A → py Mesh) (m m' m1' : Mesh) :
  (∀ s s' x s1', same_connectivity s s' → body' s' x = inr s1' →
                 ∃ s1, body s x = inr s1 ∧ same_connectivity s1 s1') →
  same_connectivity m m' → py_for xs body' m' = inr m1' →
  ∃ m1, py_for xs body m = inr m1 ∧ same_connectivity m1 m1'.
Proof.
  intros Hbody. revert m m'. induction xs as [|x xs IH]; intros m m' HR; cbn [py_for].
  { intros [= <-]. by exists m. }
  destruct (body' m' x) as [|s1'] eqn:Hb; [done|]. cbn [py_bind].
  destruct (Hbody _ _ _ _ HR Hb) as (s1 & -> & HR1). cbn [py_bind].
  by apply IH.
Qed.

Lemma set_xyz_same (m m' m1' : Mesh) (key : Z) (c : xyz) :
  same_connectivity m m' → set_xyz key c m' = inr m1' → same_connectivity m m1'.
Proof.
  intros ((Hh & Hf & Hd) & Hk & Hfk). unfold set_xyz.
  destruct (vertex m' !! key) eqn:Hv; [|done]. intros [= <-].
  unfold same_connectivity, same_topology. simpl. split_and!; try done.
  rewrite dom_insert_L, Hd. apply elem_of_dom_2 in Hv. rewrite Hd in Hv. set_solver.
Qed.

Lemma cc_move_edgepoint_same (key_xyz : gmap Z xyz) (m m' m1' : Mesh) (w : Z) :
  same_connectivity m m' → cc_move_edgepoint key_xyz m' w = inr m1' →
  same_connectivity m m1'.
Proof.
  intros HR. unfold cc_move_edgepoint.
  destruct (neighbours m' w) as [|nbrs]; [done|]. cbn [py_bind].
  destruct (py_map _ nbrs) as [|ps]; [done|]. cbn [py_bind].
  destruct (centroid_points ps) as [|c]; [done|]. cbn [py_bind].
  by apply set_xyz_same.
Qed.

Lemma cc_move_vertex_same (mesh : Mesh) (fixed bkeys : gset Z)
    (bkey_edgepoints : gmap Z (list Z)) (key_xyz : gmap Z xyz)
    (m m' m1' : Mesh) (key : Z) :
  same_connectivity m m' →
  cc_move_vertex mesh fixed bkeys bkey_edgepoints key_xyz m' key = inr m1' →
  same_connectivity m m1'.
Proof.
  intros HR. unfold cc_move_vertex. case_bool_decide; [by intros [= <-]|].
  destruct (if bool_decide (key ∈ bkeys) then _ else _) as [|c]; [done|].
  cbn [py_bind]. by apply set_xyz_same.
Qed.

Lemma py_for_moves_same {A} (xs : list A) (body : Mesh → A → py Mesh) (m m' m1' : Mesh) :
  (∀ s s' x s1', same_connectivity s s' → body s' x = inr s1' → same_connectivity s s1') →
  same_connectivity m m' → py_for xs body m' = inr m1' → same_connectivity m m1'.
Proof.
  intros Hbody. revert m'. induction xs as [|x xs IH]; intros m' HR; cbn [py_for].
  { by intros [= <-]. }
  destruct (body m' x) as [|s1'] eqn:Hb; [done|]. cbn [py_bind].
  apply IH. by eapply Hbody.
Qed.

Lemma cc_edge_loop_same (bkeys : gset Z) (es : list (Z * Z)) (m : Mesh) (s s' : cc_edges) :
  same_connectivity m (cc_subd s) →
  py_for es (cc_edge_step bkeys) s = inr s' →
  ∃ m1, py_for es quad_edge_step m = inr m1 ∧ same_connectivity m1 (cc_subd s').
Proof.
  revert m s. induction es as [|[u v] es IH]; intros m s HR; cbn [py_for].
  { intros [= <-]. by exists m. }
  destruct (cc_edge_step bkeys s (u, v)) as [|s1] eqn:Hstep; [done|]. cbn [py_bind].
  assert (∃ m1, quad_edge_step m (u, v) = inr m1 ∧ same_connectivity m1 (cc_subd s1))
    as (m1 & -> & HR1).
  { revert Hstep. unfold cc_edge_step, quad_edge_step.
    destruct (split_edge u v true (cc_subd s)) as [|[m1' r]] eqn:Hs; [done|].
    destruct (split_edge_same _ _ _ _ _ _ _ HR Hs) as (m1 & -> & HR1).
    cbn [py_bind fst snd]. destruct r as [w|]; [|done]. cbn [from_option py_bind].
    destruct (bool_decide (u ∈ bkeys) && bool_decide (v ∈ bkeys)).
    - destruct (dict_append u w _) as [|b1]; [done|]. cbn [py_bind].
      destruct (dict_append v w b1) as [|b2]; [done|]. cbn [py_bind].
      intros [= <-]. by exists m1.
    - intros [= <-]. by exists m1. }
  cbn [py_bind]. by apply IH.
Qed.

Lemma catmullclark_level_same (fixed : gset Z) (mq mc mc1 : Mesh) :
  same_connectivity mq mc → catmullclark_level fixed mc = inr mc1 →
  ∃ mq1, quad_level mq = inr mq1 ∧ same_connectivity mq1 mc1.
Proof.
  intros HR. unfold catmullclark_level, quad_level, copy.
  rewrite (halfedges_same _ _ HR), (faces_same _ _ HR).
  destruct (py_for (halfedges mq) (cc_edge_step _) _) as [|s] eqn:H1; [done|].
  cbn [py_bind].
  destruct (cc_edge_loop_same _ _ mq (mkCCEdges mc _ []) _ HR H1) as (m1 & Hq & HR1).
  change (py_for (halfedges mq) _ mq) with (py_for (halfedges mq) quad_edge_step mq).
  rewrite Hq. cbn [py_bind].
  destruct (py_for (faces mq) (quad_face mc) (cc_subd s)) as [|subd1] eqn:H2; [done|].
  cbn [py_bind].
  destruct (py_for_same (faces mq) (quad_face mq) (quad_face mc) m1 (cc_subd s) subd1)
    as (mq1 & -> & HR2); [|done|done|].
  { intros a a' x b' Ha. by apply quad_face_same. }
  destruct (py_for (cc_edgepoints s) _ subd1) as [|subd2] eqn:H3; [done|].
  cbn [py_bind]. intros H4. exists mq1. split; [done|].
  eapply py_for_moves_same; [|eapply py_for_moves_same; [|exact HR2|exact H3]|exact H4].
  - intros a a' x b' Ha. by apply cc_move_vertex_same.
  - intros a a' x b' Ha. by apply cc_move_edgepoint_same.
Qed.

Lemma catmullclark_levels_same (fixed : gset Z) (levels : list Z) (mq mc subd : Mesh) :
  same_connectivity mq mc →
  py_for levels (λ mesh _, catmullclark_level fixed mesh) mc = inr subd →
  ∃ quad, py_for levels (λ mesh _, quad_level mesh) mq = inr quad ∧
          same_connectivity quad subd.
Proof.
  revert mq mc. induction levels as [|x levels IH]; intros mq mc HR; cbn [py_for].
  { intros [= <-]. by exists mq. }
  destruct (catmullclark_level _ mc) as [|mc1] eqn:Hlevel; [done|]. cbn [py_bind].
  destruct (catmullclark_level_same _ _ _ _ HR Hlevel) as (mq1 & -> & HR1).
  cbn [py_bind]. by apply IH.
Qed.

(** Catmull-Clark subdivision is quad subdivision with other coordinates:
    whenever it returns, quad subdivision with the same number of levels
    returns too, and the two results have the same faces, the same
    half-edges, the same vertex keys and the same key counters. *)
Theorem catmullclark_refines_quad
    (mesh subd : Mesh) (k : Z) (fixed : option (list Z)) :
  mesh_subdivide_catmullclark mesh k fixed = inr subd →
  ∃ quad, mesh_subdivide_quad mesh k = inr quad ∧ same_connectivity quad subd.
Proof.
  unfold mesh_subdivide_catmullclark, mesh_subdivide_quad.
  apply catmullclark_levels_same, same_connectivity_refl.
Qed.

Lemma catmullclark_refines_quad_witness :
  ∃ subd, mesh_subdivide_catmullclark square 2 None = inr subd ∧
  ∃ quad, mesh_subdivide_quad square 2 = inr quad ∧ same_connectivity quad subd.
Proof.
  destruct (mesh_subdivide_catmullclark square 2 None) as [e|subd] eqn:H.
  - exfalso. vm_compute in H. discriminate H.
  - exists subd. split; [reflexivity|].
    exact (catmullclark_refines_quad square subd 2 None H).
Defined.

(* ===================================================================== *)
(** * Quads at every level                                                 *)
(* ===================================================================== *)

Lemma split_in_face_faces (f : option Z) (v w : Z) (m m' : Mesh) :
  split_in_face f v w m = inr m' →
  dom (face m') = dom (face m) ∧ max_int_fkey m' = max_int_fkey m.
Proof.
  destruct f as [fkey|]; simpl; [|by intros [= <-]].
  unfold py_getitem. destruct (face m !! fkey) as [vs|] eqn:Hf; [|done]. simpl.
  destruct (insert_before _ _ _) as [|vs']; [done|]. simpl.
  intros [= <-]. simpl. split; [|done].
  rewrite dom_insert_L. apply elem_of_dom_2 in Hf. set_solver.
Qed.

Lemma split_edge_faces (u v : Z) (a : bool) (m m' : Mesh) (r : option Z) :
  split_edge u v a m = inr (m', r) →
  dom (face m') = dom (face m) ∧ max_int_fkey m' = max_int_fkey m.
Proof.
  unfold split_edge.
  destruct (halfedge_get m u v) as [|fuv]; [done|]. cbn [py_bind].
  destruct (halfedge_get m v u) as [|fvu]; [done|]. cbn [py_bind].
  destruct (negb a && _).
  { by intros [= <- <-]. }
  destruct (vertex_coordinates m u) as [|cu]; [done|]. cbn [py_bind].
  destruct (vertex_coordinates m v) as [|cv]; [done|]. cbn [py_bind].
  assert (face (add_vertex (midpoint cu cv) m).1 = face m ∧
          max_int_fkey (add_vertex (midpoint cu cv) m).1 = max_int_fkey m) as [Hf1 Hk1]
    by done.
  destruct (add_vertex (midpoint cu cv) m) as [m1 w]. cbn [fst] in Hf1, Hk1. cbv zeta.
  destruct (split_in_face fuv v w _) as [|m5] eqn:H5; [done|]. cbn [py_bind].
  destruct (split_in_face fvu u w _) as [|m9] eqn:H9; [done|]. cbn [py_bind].
  intros [= <- <-].
  apply split_in_face_faces in H5 as [Hd5 Hk5].
  apply split_in_face_faces in H9 as [Hd9 Hk9].
  simpl in *. split; congruence.
Qed.

Lemma add_face_faces (vs : list Z) (m : Mesh) :
  face (add_face vs m).1 = <[max_int_fkey m + 1 := vs]> (face m) ∧
  max_int_fkey (add_face vs m).1 = max_int_fkey m + 1.
Proof.
  rewrite add_face_unfold.
  destruct (add_face_steps_spec (max_int_fkey m + 1) (cycle_pairs vs)
              (mkMesh (vertex m) (<[max_int_fkey m + 1 := vs]> (face m)) (halfedge m)
                 (max_int_key m) (max_int_fkey m + 1))) as (_ & H2 & _ & H4 & _).
  done.
Qed.

(** What the body of the face loop does to the face table. *)
Lemma quad_face_faces (m0 subd subd' : Mesh) (fkey : Z) :
  quad_face m0 subd fkey = inr subd' → fkeys_bounded subd →
  fkeys_bounded subd' ∧ max_int_fkey subd ≤ max_int_fkey subd' ∧
  face subd' !! fkey = None ∧
  (∀ f, f ≠ fkey → f ≤ max_int_fkey subd → face subd' !! f = face subd !! f) ∧
  (∀ f vs, face subd' !! f = Some vs → max_int_fkey subd < f → length vs = 4%nat).
Proof.
  intros H Hb. revert H. unfold quad_face.
  destruct (face_halfedges subd fkey) as [|pairs] eqn:Hp; [done|]. cbn [py_bind].
  destruct (face_centroid m0 fkey) as [|c]; [done|]. cbn [py_bind].
  assert (face (add_vertex c subd).1 = face subd ∧
          max_int_fkey (add_vertex c subd).1 = max_int_fkey subd) as [Hf1 Hk1] by done.
  destruct (add_vertex c subd) as [subd1 key]. cbn [fst] in Hf1, Hk1.
  destruct (face_vertices m0 fkey) as [|vs]; [done|]. cbn [py_bind].
  assert (∀ vs s s',
            py_for vs
              (λ subd key0,
                 a <~ py_getitem (ancestor_of pairs) key0 ;
                 d <~ py_getitem (descendant_of pairs) key0 ;
                 inr (add_face [a; key0; d; key] subd).1) s = inr s' →
            fkeys_bounded s →
            fkeys_bounded s' ∧ max_int_fkey s ≤ max_int_fkey s' ∧
            (∀ f, f ≤ max_int_fkey s → face s' !! f = face s !! f) ∧
            (∀ f vs, face s' !! f = Some vs → max_int_fkey s < f → length vs = 4%nat))
    as Hloop.
  { clear. induction vs as [|k vs IH]; intros s s'; cbn [py_for].
    { intros [= <-] Hb. split_and!; [done|lia|done|].
      intros f vs Hf Hlt. specialize (Hb f vs Hf). simpl in Hb. lia. }
    destruct (py_getitem _ k) as [|a]; [done|]. cbn [py_bind].
    destruct (py_getitem _ k) as [|d]; [done|]. cbn [py_bind].
    destruct (add_face_faces [a; k; d; key] s) as [Hf Hk].
    set (s1 := (add_face [a; k; d; key] s).1) in *.
    intros H Hb. apply IH in H as (Hb' & Hle & Hold & Hnew).
    2:{ unfold fkeys_bounded. rewrite Hf, Hk.
        apply map_Forall_insert_2; [simpl; lia|].
        eapply map_Forall_impl; [exact Hb|]. simpl. intros. lia. }
    split_and!; [done|lia| |].
    - intros f Hle'. rewrite Hold by lia. rewrite Hf. apply lookup_insert_ne. lia.
    - intros f vs' Hfv Hlt.
      destruct (decide (f ≤ max_int_fkey s1)) as [Hle1|Hgt1].
      + rewrite Hold in Hfv by done. rewrite Hf in Hfv.
        assert (f = max_int_fkey s + 1) as -> by lia.
        rewrite lookup_insert_eq in Hfv. by injection Hfv as <-.
      + eapply Hnew; [done|lia]. }
  destruct (py_for vs _ subd1) as [|subd2] eqn:Hfor; [done|]. cbn [py_bind].
  apply Hloop in Hfor as (Hb2 & Hle2 & Hold2 & Hnew2).
  2:{ unfold fkeys_bounded. by rewrite Hf1, Hk1. }
  unfold del_face. destruct (face subd2 !! fkey) eqn:Hfk; [|done]. intros [= <-].
  simpl. split_and!.
  - unfold fkeys_bounded. simpl. intros f vs' [_ Hf]%lookup_delete_Some.
    by apply (Hb2 f vs').
  - lia.
  - apply lookup_delete_eq.
  - intros f Hne Hle. rewrite lookup_delete_ne by done.
    rewrite Hold2 by lia. by rewrite Hf1.
  - intros f vs' [_ Hf]%lookup_delete_Some Hlt. eapply Hnew2; [done|lia].
Qed.

Lemma quad_face_loop_faces (m0 : Mesh) (rest : list Z) (subd subd' : Mesh) (bound : Z) :
  py_for rest (quad_face m0) subd = inr subd' → fkeys_bounded subd →
  bound ≤ max_int_fkey subd →
  (∀ f vs, face subd !! f = Some vs →
           f ∈ rest ∨ (bound < f ∧ length vs = 4%nat)) →
  (∀ f, f ∈ rest → f ≤ bound) →
  fkeys_bounded subd' ∧ all_quads subd'.
Proof.
  revert subd. induction rest as [|fkey rest IH]; intros subd; cbn [py_for].
  { intros [= <-] Hb _ Hq _. split; [done|]. intros f vs Hf.
    destruct (Hq f vs Hf) as [?%elem_of_nil|[_ ?]]; done. }
  destruct (quad_face m0 subd fkey) as [|subd1] eqn:Hstep; [done|]. cbn [py_bind].
  intros H Hb Hbound Hq Hrest.
  destruct (quad_face_faces _ _ _ _ Hstep Hb) as (Hb1 & Hle1 & Hgone & Hold & Hnew).
  apply (IH subd1 H Hb1); [lia| |].
  - intros f vs Hf. destruct (decide (f = fkey)) as [->|Hne]; [congruence|].
    destruct (decide (f ≤ max_int_fkey subd)) as [Hle|Hgt].
    + rewrite Hold in Hf by done. destruct (Hq f vs Hf) as [Hin|?]; [|by right].
      apply elem_of_cons in Hin as [?|?]; [done|by left].
    + right. split; [lia|]. eapply Hnew; [done|lia].
  - intros f Hf. apply Hrest. by apply elem_of_cons; right.
Qed.

Lemma edge_loop_faces (es : list (Z * Z)) (m m' : Mesh) :
  py_for es quad_edge_step m = inr m' →
  dom (face m') = dom (face m) ∧ max_int_fkey m' = max_int_fkey m.
Proof.
  revert m. induction es as [|[u v] es IH]; intros m; cbn [py_for].
  { by intros [= <-]. }
  unfold quad_edge_step at 1.
  destruct (split_edge u v true m) as [|[m1 r]] eqn:Hs; [done|]. cbn [py_bind fst].
  intros H%IH. apply split_edge_faces in Hs as [Hd1 Hk1].
  destruct H as [Hd Hk]. split; congruence.
Qed.

Lemma quad_level_quads (mesh subd : Mesh) :
  quad_level mesh = inr subd → fkeys_bounded mesh →
  fkeys_bounded subd ∧ all_quads subd.
Proof.
  unfold quad_level, copy.
  change (py_for (halfedges mesh) _ mesh) with (py_for (halfedges mesh) quad_edge_step mesh).
  destruct (py_for (halfedges mesh) quad_edge_step mesh) as [|subd1] eqn:H1; [done|].
  cbn [py_bind]. intros H2 Hb.
  apply edge_loop_faces in H1 as [Hd Hk].
  assert (Hin : ∀ f vs, face subd1 !! f = Some vs → f ∈ faces mesh).
  { intros f vs Hf. apply elem_of_faces. rewrite <- Hd. by apply elem_of_dom_2 in Hf. }
  assert (Hle : ∀ f, f ∈ faces mesh → f ≤ max_int_fkey mesh).
  { intros f [vs Hf]%elem_of_faces%elem_of_dom. by apply (Hb f vs). }
  apply (quad_face_loop_faces mesh (faces mesh) subd1 subd (max_int_fkey mesh) H2).
  - intros f vs Hf. simpl. rewrite Hk. apply Hle. by eapply Hin.
  - lia.
  - intros f vs Hf. left. by eapply Hin.
  - done.
Qed.

Lemma quad_levels_quads (levels : list Z) (mesh subd : Mesh) :
  levels ≠ [] →
  py_for levels (λ mesh _, quad_level mesh) mesh = inr subd → fkeys_bounded mesh →
  fkeys_bounded subd ∧ all_quads subd.
Proof.
  revert mesh. induction levels as [|x levels IH]; intros mesh Hne; [done|].
  cbn [py_for]. destruct (quad_level mesh) as [|m1] eqn:Hlevel; [done|]. cbn [py_bind].
  intros H Hb. destruct (quad_level_quads _ _ Hlevel Hb) as [Hb1 Hq1].
  destruct levels as [|y levels]; [by injection H as <-|].
  by apply (IH m1).
Qed.

Lemma py_range_nonempty (k : Z) : 1 ≤ k → py_range k ≠ [].
Proof.
  intros Hk. unfold py_range. destruct (Z.to_nat k) as [|n] eqn:Hn; [lia|done].
Qed.

(** After any positive number of levels, every face of a quad
    subdivision is a quad, and so is every face of a Catmull-Clark
    subdivision, whenever the call returns on a mesh whose face keys do
    not exceed the face counter. *)
Theorem quads_at_every_level
    (mesh subd : Mesh) (k : Z) (fixed : option (list Z)) :
  fkeys_bounded mesh → 1 ≤ k →
  mesh_subdivide_quad mesh k = inr subd
  ∨ mesh_subdivide_catmullclark mesh k fixed = inr subd →
  all_quads subd.
Proof.
  intros Hb Hk [H|H].
  - by destruct (quad_levels_quads (py_range k) mesh subd (py_range_nonempty k Hk) H Hb).
  - unfold mesh_subdivide_catmullclark in H.
    destruct (catmullclark_levels_same _ _ mesh mesh subd
                (same_connectivity_refl mesh) H) as (quad & Hq & (_ & Hf & _) & _).
    destruct (quad_levels_quads (py_range k) mesh quad (py_range_nonempty k Hk) Hq Hb)
      as [_ Hquads].
    unfold all_quads. by rewrite Hf.
Qed.

Lemma quads_at_every_level_witness :
  fkeys_bounded square ∧ 1 ≤ 2 ∧
  ∃ subd, mesh_subdivide_catmullclark square 2 None = inr subd ∧ all_quads subd ∧
          number_of_faces subd = 16.
Proof.
  assert (Hb : fkeys_bounded square)
    by (apply (bool_decide_unpack _); vm_compute; reflexivity).
  split; [exact Hb|]. split; [lia|].
  destruct (mesh_subdivide_catmullclark square 2 None) as [e|subd] eqn:H.
  - exfalso. vm_compute in H. discriminate H.
  - exists subd. split; [reflexivity|]. split.
    + apply (quads_at_every_level square subd 2 None Hb); [lia|]. right. exact H.
    + vm_compute in H. injection H as <-. vm_compute. reflexivity.
Defined.

(* ===================================================================== *)
(** * Catmull-Clark: vertices without neighbours                           *)
(* ===================================================================== *)

Lemma rows_kept_refl (m : Mesh) : rows_kept m m.
Proof. by intros key. Qed.

Lemma rows_kept_trans (m1 m2 m3 : Mesh) :
  rows_kept m1 m2 → rows_kept m2 m3 → rows_kept m1 m3.
Proof. intros H1 H2 key Hk. by apply H2, H1. Qed.

Lemma rows_kept_frame (m m' : Mesh) : halfedge m' = halfedge m → rows_kept m m'.
Proof. intros H key. by rewrite H. Qed.

Lemma halfedge_set_rows (u v : Z) (f : option Z) (m : Mesh) :
  rows_kept m (halfedge_set u v f m).
Proof.
  intros key Hk. unfold halfedge_set. simpl.
  destruct (decide (key = u)) as [->|Hne].
  - by rewrite lookup_insert_eq.
  - by rewrite lookup_insert_ne.
Qed.

Lemma halfedge_del_rows (u v : Z) (m : Mesh) :
  rows_kept m (halfedge_del u v m).
Proof.
  intros key Hk. unfold halfedge_del. simpl.
  destruct (halfedge m !! u) as [row|] eqn:Hu; [|done].
  destruct (decide (key = u)) as [->|Hne].
  - by rewrite lookup_insert_eq.
  - by rewrite lookup_insert_ne.
Qed.

Lemma add_vertex_rows (c : xyz) (m : Mesh) : rows_kept m (add_vertex c m).1.
Proof.
  intros key Hk. unfold add_vertex. simpl.
  destruct (decide (key = max_int_key m + 1)) as [->|Hne].
  - by rewrite lookup_insert_eq.
  - by rewrite lookup_insert_ne.
Qed.

Lemma split_in_face_rows (f : option Z) (v w : Z) (m m' : Mesh) :
  split_in_face f v w m = inr m' → rows_kept m m'.
Proof.
  destruct f as [fkey|]; simpl; [|intros [= <-]; apply rows_kept_refl].
  destruct (py_getitem _ _) as [|vs]; [done|]. simpl.
  destruct (insert_before _ _ _) as [|vs']; [done|]. simpl.
  intros [= <-]. by apply rows_kept_frame.
Qed.

Lemma split_edge_rows (u v : Z) (a : bool) (m m' : Mesh) (r : option Z) :
  split_edge u v a m = inr (m', r) → rows_kept m m'.
Proof.
  unfold split_edge.
  destruct (halfedge_get m u v) as [|fuv]; [done|]. cbn [py_bind].
  destruct (halfedge_get m v u) as [|fvu]; [done|]. cbn [py_bind].
  destruct (negb a && _).
  { intros [= <- <-]. apply rows_kept_refl. }
  destruct (vertex_coordinates m u) as [|cu]; [done|]. cbn [py_bind].
  destruct (vertex_coordinates m v) as [|cv]; [done|]. cbn [py_bind].
  pose proof (add_vertex_rows (midpoint cu cv) m) as H1.
  destruct (add_vertex (midpoint cu cv) m) as [m1 w]. cbn [fst] in H1. cbv zeta.
  destruct (split_in_face fuv v w _) as [|m5] eqn:H5; [done|]. cbn [py_bind].
  destruct (split_in_face fvu u w _) as [|m9] eqn:H9; [done|]. cbn [py_bind].
  intros [= <- <-].
  apply split_in_face_rows in H5, H9.
  eapply rows_kept_trans; [exact H1|].
  eapply rows_kept_trans; [|exact H9].
  eapply rows_kept_trans; [|apply halfedge_del_rows].
  eapply rows_kept_trans; [|apply halfedge_set_rows].
  eapply rows_kept_trans; [|apply halfedge_set_rows].
  eapply rows_kept_trans; [|exact H5].
  eapply rows_kept_trans; [|apply halfedge_del_rows].
  eapply rows_kept_trans; [|apply halfedge_set_rows].
  apply halfedge_set_rows.
Qed.

Lemma add_face_rows (vs : list Z) (m : Mesh) : rows_kept m (add_face vs m).1.
Proof.
  rewrite add_face_unfold.
  set (m1 := mkMesh _ _ _ _ _).
  assert (rows_kept m m1) as H0 by (by apply rows_kept_frame).
  revert H0. generalize m1. clear m1.
  induction (cycle_pairs vs) as [|[u v] ps IH]; intros m1 H1; [done|].
  cbn [foldl]. apply IH. eapply rows_kept_trans; [exact H1|].
  unfold add_face_step.
  destruct (halfedge_get _ v u).
  - eapply rows_kept_trans; apply halfedge_set_rows.
  - apply halfedge_set_rows.
Qed.

Lemma quad_face_rows (m0 subd subd' : Mesh) (fkey : Z) :
  quad_face m0 subd fkey = inr subd' → rows_kept subd subd'.
Proof.
  unfold quad_face.
  destruct (face_halfedges subd fkey) as [|pairs]; [done|]. cbn [py_bind].
  destruct (face_centroid m0 fkey) as [|c]; [done|]. cbn [py_bind].
  pose proof (add_vertex_rows c subd) as H1.
  destruct (add_vertex c subd) as [subd1 key]. cbn [fst] in H1.
  destruct (face_vertices m0 fkey) as [|vs]; [done|]. cbn [py_bind].
  assert (∀ vs s s',
            py_for vs
              (λ subd key0,
                 a <~ py_getitem (ancestor_of pairs) key0 ;
                 d <~ py_getitem (descendant_of pairs) key0 ;
                 inr (add_face [a; key0; d; key] subd).1) s = inr s' →
            rows_kept s s') as Hloop.
  { clear. induction vs as [|k vs IH]; intros s s'; cbn [py_for].
    { intros [= <-]. apply rows_kept_refl. }
    destruct (py_getitem _ k) as [|a]; [done|]. cbn [py_bind].
    destruct (py_getitem _ k) as [|d]; [done|]. cbn [py_bind].
    intros H%IH. eapply rows_kept_trans; [apply add_face_rows|exact H]. }
  destruct (py_for vs _ subd1) as [|subd2] eqn:Hfor; [done|]. cbn [py_bind].
  apply Hloop in Hfor.
  unfold del_face. destruct (face subd2 !! fkey); [|done]. intros [= <-].
  eapply rows_kept_trans; [exact H1|].
  eapply rows_kept_trans; [exact Hfor|]. by apply rows_kept_frame.
Qed.

Lemma py_for_rows {A} (xs : list A) (body : Mesh → A → py Mesh) (m m' : Mesh) :
  (∀ s x s', body s x = inr s' → rows_kept s s') →
  py_for xs body m = inr m' → rows_kept m m'.
Proof.
  intros Hbody. revert m. induction xs as [|x xs IH]; intros m; cbn [py_for].
  { intros [= <-]. apply rows_kept_refl. }
  destruct (body m x) as [|m1] eqn:Hb; [done|]. cbn [py_bind].
  intros H. eapply rows_kept_trans; [by eapply Hbody|by apply IH].
Qed.

(** The stencil of a vertex without neighbours. *)
Lemma cc_move_vertex_isolated (m0 mT m : Mesh) (fixed : gset Z)
    (bkey_edgepoints : gmap Z (list Z)) (key : Z) :
  valid_mesh m0 → same_topology mT m → topo_inv mT →
  rows_kept m0 mT →
  free_isolated_vertex m0 fixed key →
  cc_move_vertex m0 fixed (list_to_set (vertices_on_boundary m0))
    bkey_edgepoints (vertex mT) m key = inl ZeroDivisionError.
Proof.
  intros Hvalid (Hh & _ & _) (_ & Hi & _ & _) Hrows (Hin & Hfix & Hrow).
  unfold cc_move_vertex. rewrite bool_decide_eq_false_2 by done.
  assert (Hhe : ∀ b, he m0 key b = None).
  { intros b. unfold he. rewrite Hrow. simpl. apply lookup_empty. }
  rewrite bool_decide_eq_false_2.
  2:{ intros (a & b & Hab & Hk)%elem_of_boundary.
      destruct (valid_mesh_he m0 Hvalid) as (Hv & _ & _).
      destruct Hk as [->| ->]; [by rewrite Hhe in Hab|].
      destruct (Hv a b None Hab) as (_ & _ & _ & [f Hf] & _). by rewrite Hhe in Hf. }
  unfold vertex_faces, py_getitem at 1. rewrite Hrow. cbn [py_bind].
  rewrite map_to_list_empty. cbn [fmap list_fmap omap list_omap py_map py_bind].
  unfold neighbours, py_getitem at 1. rewrite Hh.
  destruct (Hrows key) as [row' Hrow']; [by rewrite Hrow|]. rewrite Hrow'.
  cbn [py_bind].
  destruct (py_map_ok (py_getitem (vertex mT)) (map_to_list row').*1) as (ps & -> & Hlen).
  { intros x ([x' f'] & -> & Hx%elem_of_map_to_list)%list_elem_of_fmap. simpl.
    destruct (py_getitem_ok (vertex mT) x') as (c & ? & _); [|by exists c].
    apply (Hi key x'). unfold he. rewrite Hrow'. simpl. by rewrite Hx. }
  cbn [py_bind]. unfold py_div.
  destruct (Qeq_bool (inject_Z (Z.of_nat (length ps))) 0); [done|].
  cbn [py_bind]. done.
Qed.

Lemma cc_move_vertices_outcome (m0 mT : Mesh) (fixed : gset Z)
    (bkey_edgepoints : gmap Z (list Z)) (keys : list Z) (m : Mesh) :
  valid_mesh m0 → rows_complete m0 → same_topology mT m → topo_inv mT →
  rows_kept m0 mT →
  (∀ a, has_row m0 a → has_row mT a) →
  (∀ key, key ∈ keys → key ∈ dom (vertex m0)) →
  dom bkey_edgepoints = list_to_set (vertices_on_boundary m0) →
  (∀ k l w, bkey_edgepoints !! k = Some l → w ∈ l → w ∈ dom (vertex mT)) →
  (∀ u v, is_Some (he m0 u v) →
          u ∈ (list_to_set (vertices_on_boundary m0) : gset Z) →
          v ∈ (list_to_set (vertices_on_boundary m0) : gset Z) →
          ∃ lu, bkey_edgepoints !! u = Some lu ∧ lu ≠ []) →
  let r := py_for keys
             (cc_move_vertex m0 fixed (list_to_set (vertices_on_boundary m0))
                bkey_edgepoints (vertex mT)) m in
  ((∃ key, key ∈ keys ∧ free_isolated_vertex m0 fixed key) → r = inl ZeroDivisionError) ∧
  ((∀ key, key ∈ keys → ¬ free_isolated_vertex m0 fixed key) →
   ∃ m', r = inr m' ∧ same_topology mT m').
Proof.
  intros Hvalid Hcomplete Hsame Ht Hkept Hrows Hkeys Hbd Hbp Hbne.
  revert m Hsame. induction keys as [|key keys IH]; intros m Hsame; cbn [py_for].
  { split; [by intros (? & ?%elem_of_nil & _)|]. intros _. by exists m. }
  assert (Hin : key ∈ dom (vertex m0)) by (apply Hkeys; by apply elem_of_cons; left).
  assert (Hrest : ∀ key, key ∈ keys → key ∈ dom (vertex m0)).
  { intros k Hk. apply Hkeys. by apply elem_of_cons; right. }
  pose proof Hin as [c Hc]%elem_of_dom.
  destruct (Hcomplete key c Hc) as [row Hrow]. simpl in Hrow.
  destruct (decide (key ∉ fixed ∧ row = ∅)) as [[Hfix ->]|Hgood].
  - rewrite (cc_move_vertex_isolated m0 mT m fixed bkey_edgepoints key);
      [|done..]. cbn [py_bind]. split; [done|].
    intros Hnone. exfalso. apply (Hnone key); [by apply elem_of_cons; left|done].
  - assert (∃ m1, cc_move_vertex m0 fixed (list_to_set (vertices_on_boundary m0))
                    bkey_edgepoints (vertex mT) m key = inr m1 ∧ same_topology mT m1)
      as (m1 & -> & Hsame1).
    { destruct (decide (key ∈ fixed)) as [Hf|Hf].
      { exists m. split; [|done]. unfold cc_move_vertex. by rewrite bool_decide_eq_true_2. }
      assert (has_row m0 key) as Hr.
      { split; [done|]. assert (row ≠ ∅) as Hne by tauto.
        destruct (map_choose row Hne) as (b & f & Hb). exists b.
        unfold he. rewrite Hrow. simpl. by rewrite Hb. }
      apply (cc_move_vertex_ok m0 mT m fixed bkey_edgepoints (vertex mT) key); auto. }
    cbn [py_bind]. destruct (IH Hrest m1 Hsame1) as [IH1 IH2]. split.
    + intros (k & [->|Hk]%elem_of_cons & Hbad); [|by apply IH1; exists k].
      exfalso. destruct Hbad as (_ & Hfix & Hrow'). rewrite Hrow in Hrow'.
      injection Hrow' as ->. tauto.
    + intros Hnone. apply IH2. intros k Hk. apply Hnone. by apply elem_of_cons; right.
Qed.

(** Catmull-Clark fails exactly on vertices without neighbours that are
    not fixed: on a well-formed mesh with such a vertex the first level
    raises [ZeroDivisionError] (the vertex stencil divides by the number of
    neighbours), and without one a level returns a mesh. *)
Theorem catmullclark_isolated_vertex (mesh : Mesh) (fixed : option (list Z)) :
  valid_mesh mesh → rows_complete mesh →
  ((∃ key, free_isolated_vertex mesh (list_to_set (default [] fixed)) key) →
   ∀ k, 1 ≤ k → mesh_subdivide_catmullclark mesh k fixed = inl ZeroDivisionError) ∧
  ((∀ key, ¬ free_isolated_vertex mesh (list_to_set (default [] fixed)) key) →
   ∃ subd, mesh_subdivide_catmullclark mesh 1 fixed = inr subd).
Proof.
  intros Hvalid Hcomplete.
  destruct (topology_pass mesh (list_to_set (vertices_on_boundary mesh)) Hvalid)
    as (s & subd & Hloop & Hq & Hfl & Ht & _ & _ & _ & Hrows & Heps
        & Hbd & Hbp & Hbne).
  assert (Hsame : same_topology subd subd) by done.
  destruct (cc_move_edgepoints_ok subd subd (vertex subd) (cc_edgepoints s)
              Hsame Ht eq_refl Heps) as (subd1 & Hmove1 & Hsame1).
  assert (rows_kept mesh subd) as Hkept.
  { eapply rows_kept_trans.
    - eapply py_for_rows; [|exact Hq]. intros a [u v] a'. unfold quad_edge_step.
      destruct (split_edge u v true a) as [|[a1 r]] eqn:Hs; [done|]. cbn [py_bind fst].
      intros [= <-]. by eapply split_edge_rows.
    - eapply py_for_rows; [|exact Hfl]. intros a x a'. apply quad_face_rows. }
  destruct (cc_move_vertices_outcome mesh subd (list_to_set (default [] fixed))
              (cc_bkey_edgepoints s) (vertices mesh) subd1
              Hvalid Hcomplete Hsame1 Ht Hkept Hrows) as [Hbad Hgood]; [|done..|].
  { intros key. apply elem_of_vertices. }
  assert (Hlevel : catmullclark_level (list_to_set (default [] fixed)) mesh
                   = py_for (vertices mesh)
                       (cc_move_vertex mesh (list_to_set (default [] fixed))
                          (list_to_set (vertices_on_boundary mesh))
                          (cc_bkey_edgepoints s) (vertex subd)) subd1).
  { unfold catmullclark_level, copy.
    change (mkCCEdges mesh (gset_to_gmap [] (list_to_set (vertices_on_boundary mesh))) [])
      with (cc_start mesh (list_to_set (vertices_on_boundary mesh))).
    rewrite Hloop. cbn [py_bind]. rewrite Hfl. cbn [py_bind].
    rewrite Hmove1. done. }
  split.
  - intros (key & Hkey) k Hk. unfold mesh_subdivide_catmullclark.
    assert (py_range k = 0 :: (Z.of_nat <$> seq 1 (Z.to_nat k - 1))) as ->.
    { unfold py_range. destruct (Z.to_nat k) as [|n] eqn:Hn; [lia|].
      simpl. by rewrite Nat.sub_0_r. }
    cbn [py_for]. rewrite Hlevel, Hbad; [done|].
    exists key. split; [|done]. apply elem_of_vertices. by destruct Hkey.
  - intros Hnone. unfold mesh_subdivide_catmullclark. change (py_range 1) with [0].
    cbn [py_for]. rewrite Hlevel.
    destruct Hgood as (m' & -> & _); [by intros key _; apply Hnone|].
    by exists m'.
Qed.

Lemma catmullclark_isolated_vertex_witness :
  valid_mesh square_and_spare ∧ rows_complete square_and_spare ∧
  free_isolated_vertex square_and_spare ∅ 4 ∧
  mesh_subdivide_catmullclark square_and_spare 1 None = inl ZeroDivisionError ∧
  ∃ subd, mesh_subdivide_catmullclark square_and_spare 1 (Some [4]) = inr subd.
Proof.
  assert (Hvalid : valid_mesh square_and_spare)
    by (apply (bool_decide_unpack _); vm_compute; reflexivity).
  assert (Hrows : rows_complete square_and_spare)
    by (apply (bool_decide_unpack _); vm_compute; reflexivity).
  assert (Hiso : free_isolated_vertex square_and_spare ∅ 4).
  { split; [apply (bool_decide_unpack _); vm_compute; reflexivity|].
    split; [apply not_elem_of_empty|vm_compute; reflexivity]. }
  split; [exact Hvalid|]. split; [exact Hrows|]. split; [exact Hiso|]. split.
  - apply (proj1 (catmullclark_isolated_vertex square_and_spare None Hvalid Hrows)).
    + exists 4. exact Hiso.
    + lia.
  - apply (proj2 (catmullclark_isolated_vertex square_and_spare (Some [4]) Hvalid Hrows)).
    intros key (Hin & Hfix & Hrow).
    assert (key = 4) as ->.
    { apply elem_of_dom in Hin as [c Hc].
      assert (Hkeys : map_Forall (λ k _, k = 0 ∨ k = 1 ∨ k = 2 ∨ k = 3 ∨ k = 4)
                        (vertex square_and_spare))
        by (apply (bool_decide_unpack _); vm_compute; reflexivity).
      destruct (Hkeys key c Hc) as [-> |[-> |[-> |[-> | ->]]]]; [exfalso..|done];
        vm_compute in Hrow; discriminate Hrow. }
    apply Hfix. cbn [default]. set_solver.
Defined.

(* ===================================================================== *)
(** * Loop subdivision on a mesh with a boundary                           *)
(* ===================================================================== *)

Lemma dict_of_ok {A} (keys : list Z) (f : Z → py A) :
  (∀ key, key ∈ keys → ∃ a, f key = inr a) → ∃ d, dict_of keys f = inr d.
Proof.
  unfold dict_of. generalize (∅ : gmap Z A).
  induction keys as [|key keys IH]; intros d Hf; cbn [py_for]; [by exists d|].
  destruct (Hf key) as [a ->]; [by apply elem_of_cons; left|]. cbn [py_bind].
  apply IH. intros k Hk. apply Hf. by apply elem_of_cons; right.
Qed.

Lemma loop_apex_error (subd : Mesh) (e : Z * Z) (err : exn) :
  loop_apex subd e = inl err → err = KeyError ∨ err = IndexError.
Proof.
  destruct e as [u v]. unfold loop_apex, halfedge_get, py_getitem.
  destruct (halfedge subd !! u) as [row|]; cbn [py_bind]; [|intros [= <-]; by left].
  destruct (row !! v) as [f|]; cbn [py_bind]; [|intros [= <-]; by left].
  destruct f as [fkey|]; cbn [from_option py_bind]; [|intros [= <-]; by left].
  destruct (face subd !! fkey) as [vs|]; cbn [py_bind]; [|intros [= <-]; by left].
  unfold py_list_get. cbv zeta.
  destruct (bool_decide (0 ≤ _)); [|intros [= <-]; by right].
  destruct (vs !! _); [done|]. intros [= <-]. by right.
Qed.

Lemma loop_apex_boundary (subd : Mesh) (u v : Z) :
  he subd u v = Some None → loop_apex subd (u, v) = inl KeyError.
Proof.
  intros H%halfedge_get_he. unfold loop_apex. by rewrite H.
Qed.

Lemma loop_uv_w_boundary (subd : Mesh) (u v : Z) :
  he subd u v = Some None →
  ∃ err, loop_uv_w subd = inl err ∧ (err = KeyError ∨ err = IndexError).
Proof.
  intros Huv. unfold loop_uv_w.
  assert ((u, v) ∈ directed_pairs subd) as Hin.
  { apply elem_of_directed_pairs. by rewrite Huv. }
  revert Hin. generalize (∅ : gmap (Z * Z) Z).
  induction (directed_pairs subd) as [|e es IH]; intros d Hin; [by apply elem_of_nil in Hin|].
  cbn [py_for]. destruct (loop_apex subd e) as [err|w] eqn:He; cbn [py_bind].
  - exists err. split; [done|]. by eapply loop_apex_error.
  - apply IH. apply elem_of_cons in Hin as [<-|Hin]; [|done].
    by rewrite (loop_apex_boundary subd u v Huv) in He.
Qed.

Section LoopFacts.
Variable cos : Q → Q.
Variable pi : Q.

(** Loop subdivision does not return on a mesh with a boundary: when some
    half-edge has no face, the first level raises while it builds [uv_w]
    (the lookup of the missing face fails, unless an index fails before),
    whatever the fixed set. *)
Theorem loop_raises_on_boundary (mesh : Mesh) (k : Z) (fixed : option (list Z))
    (u v : Z) :
  he mesh u v = Some None → 1 ≤ k →
  ∃ err, trimesh_subdivide_loop cos pi mesh k fixed = inl err ∧
         (err = KeyError ∨ err = IndexError).
Proof.
  intros Huv Hk. unfold trimesh_subdivide_loop, copy.
  assert (py_range k = 0 :: (Z.of_nat <$> seq 1 (Z.to_nat k - 1))) as ->.
  { unfold py_range. destruct (Z.to_nat k) as [|n] eqn:Hn; [lia|].
    simpl. by rewrite Nat.sub_0_r. }
  cbn [py_for]. unfold loop_level at 1.
  destruct (dict_of_ok (vertices mesh) (vertex_coordinates mesh)) as [key_xyz ->].
  { intros key Hkey%elem_of_vertices.
    destruct (py_getitem_ok (vertex mesh) key Hkey) as (c & ? & _). by exists c. }
  cbn [py_bind].
  destruct (dict_of_ok (faces mesh) (face_vertices mesh)) as [fkey_vertices ->].
  { intros fkey Hfkey%elem_of_faces.
    destruct (py_getitem_ok (face mesh) fkey Hfkey) as (c & ? & _). by exists c. }
  cbn [py_bind].
  destruct (loop_uv_w_boundary mesh u v Huv) as (err & -> & Herr).
  cbn [py_bind]. by exists err.
Qed.

End LoopFacts.

Lemma loop_raises_on_boundary_witness :
  he square 1 0 = Some None ∧ 1 ≤ 1 ∧
  ∃ err, trimesh_subdivide_loop (λ _, 1%Q) 3 square 1 None = inl err ∧
         (err = KeyError ∨ err = IndexError).
Proof.
  assert (H : he square 1 0 = Some None) by (vm_compute; reflexivity).
  split; [exact H|]. split; [lia|].
  apply (loop_raises_on_boundary (λ _, 1%Q) 3 square 1 None 1 0 H). lia.
Defined.

(* ===================================================================== *)
(** * The encoder and the decoder                                          *)
(* ===================================================================== *)

Lemma split_on_length (sep : ascii) (s : string) :
  length (split_on sep s) = S (occurrences sep s).
Proof.
  induction s as [|c s IH]; simpl; [done|].
  case_bool_decide; simpl; [by rewrite IH|].
  destruct (split_on sep s); simpl in *; lia.
Qed.

Lemma split_on_none (sep : ascii) (s : string) :
  occurrences sep s = 0%nat → split_on sep s = [s].
Proof.
  induction s as [|c s IH]; simpl; [done|].
  case_bool_decide as Hc; simpl; [done|]. intros H. by rewrite IH.
Qed.

Lemma split_on_first (sep : ascii) (m n : string) :
  occurrences sep m = 0%nat →
  split_on sep (m +:+ String sep n) = m :: split_on sep n.
Proof.
  induction m as [|c m IH]; simpl.
  - intros _. by rewrite bool_decide_eq_true_2.
  - case_bool_decide as Hc; simpl; [done|]. intros H. by rewrite IH.
Qed.

Section CodecFacts.
Context {obj cls : Type}.
Variable class_module : obj → string.
Variable class_name : obj → string.
Variable to_data : obj → value obj.
Variable import_class : string → string → codec_error + cls.
Variable from_data : cls → value obj → codec_error + value obj.
Variable numpy : bool.

(** The decoder reads what the encoder writes: for an instance of a data
    structure whose module and class names contain no slash, the encoder
    produces a dictionary on which the decoder's hook imports that class
    and hands [from_data] the value of [to_data]. *)
Theorem decoder_reads_encoder (x : obj) :
  occurrences "/"%char (class_module x) = 0%nat →
  occurrences "/"%char (class_name x) = 0%nat →
  ∃ d, encoder_default obj class_module class_name to_data numpy (VObject obj x)
       = inr (VDict obj d) ∧
       object_hook obj cls import_class from_data d
       = match import_class (class_module x) (class_name x) with
         | inl e => inl e
         | inr c => from_data c (to_data x)
         end.
Proof.
  intros Hm Hn. eexists. split; [reflexivity|].
  unfold object_hook. cbn [assoc]. rewrite bool_decide_eq_true_2 by done.
  change ("/" +:+ class_name x) with (String "/" (class_name x)).
  rewrite split_on_first by done. rewrite split_on_none by done.
  destruct (import_class _ _); [done|].
  rewrite bool_decide_eq_false_2 by done. by rewrite bool_decide_eq_true_2.
Qed.

(** A [dtype] that does not contain exactly one slash makes the hook raise
    [ValueError] (the unpacking of [dtype.split('/')]), whatever classes
    can be imported and whatever else the object holds. *)
Theorem malformed_dtype_raises (o : list (string * value obj)) (s : string) :
  assoc "dtype" o = Some (VStr obj s) → occurrences "/"%char s ≠ 1%nat →
  object_hook obj cls import_class from_data o = inl CodecValueError.
Proof.
  intros Hd Hs. unfold object_hook. rewrite Hd.
  pose proof (split_on_length "/"%char s) as Hlen.
  destruct (split_on "/"%char s) as [|a [|b [|c l]]]; simpl in Hlen; try done. lia.
Qed.

End CodecFacts.

Lemma decoder_reads_encoder_witness :
  occurrences "/"%char "compas.datastructures.mesh.mesh" = 0%nat ∧
  occurrences "/"%char "Mesh" = 0%nat ∧
  ∃ d, encoder_default unit (λ _, "compas.datastructures.mesh.mesh") (λ _, "Mesh")
         (λ _, VNum unit 7) false (VObject unit ())
       = inr (VDict unit d) ∧
       object_hook unit unit (λ _ _, inr ()) (λ _ v, inr v) d = inr (VNum unit 7).
Proof.
  split; [reflexivity|]. split; [reflexivity|].
  exact (decoder_reads_encoder (λ _ : unit, "compas.datastructures.mesh.mesh")
           (λ _, "Mesh") (λ _, VNum unit 7) (λ _ _, inr ()) (λ _ v, inr v) false ()
           eq_refl eq_refl).
Defined.

Lemma malformed_dtype_raises_witness :
  assoc "dtype" [("dtype", VStr unit "compas/datastructures/Mesh"); ("value", VNone unit)]
  = Some (VStr unit "compas/datastructures/Mesh") ∧
  occurrences "/"%char "compas/datastructures/Mesh" ≠ 1%nat ∧
  object_hook unit unit (λ _ _, inr ()) (λ _ v, inr v)
    [("dtype", VStr unit "compas/datastructures/Mesh"); ("value", VNone unit)]
  = inl CodecValueError.
Proof.
  split; [reflexivity|]. split; [by vm_compute|].
  apply (malformed_dtype_raises (λ _ _, inr ()) (λ _ v, inr v) _
           "compas/datastructures/Mesh"); [reflexivity|by vm_compute].
Defined.

(* ===================================================================== *)
(** * No level to do                                                       *)
(* ===================================================================== *)

(** With no level to do ([k] at most 0, negative values included) the
    quad, Catmull-Clark, corner and Loop schemes return the mesh they were
    given, whatever its shape. *)
Theorem no_level_returns_input
    (cos : Q → Q) (pi : Q) (mesh : Mesh) (k : Z) (fixed : option (list Z)) :
  k ≤ 0 →
  mesh_subdivide_quad mesh k = inr mesh ∧
  mesh_subdivide_catmullclark mesh k fixed = inr mesh ∧
  mesh_subdivide_corner mesh k = inr mesh ∧
  trimesh_subdivide_loop cos pi mesh k fixed = inr mesh.
Proof.
  intros Hk.
  unfold mesh_subdivide_quad, mesh_subdivide_catmullclark, mesh_subdivide_corner,
    trimesh_subdivide_loop, copy.
  by rewrite !py_range_nonpos.
Qed.

Lemma no_level_returns_input_witness :
  -1 ≤ 0 ∧ mesh_subdivide_quad empty_mesh (-1) = inr empty_mesh ∧
  trimesh_subdivide_loop (λ _, 1%Q) 3 square (-1) None = inr square.
Proof.
  split; [lia|].
  destruct (no_level_returns_input (λ _, 1%Q) 3 empty_mesh (-1) None) as (H1 & _); [lia|].
  destruct (no_level_returns_input (λ _, 1%Q) 3 square (-1) None) as (_ & _ & _ & H2); [lia|].
  split; [exact H1|exact H2].
Defined.
